(** * hexclaude: the map / turn state engine

    A shallow embedding of [mapState.js] (grid of cells, unit roster,
    placement, bounded flood fill, turn switching), of the [Unit] class of
    [unit.js] and of the click dispatch of [interactions.js].

    Modelling conventions.
    - JavaScript numbers that the engine uses as indices, distances and
      stats are integers; they are modelled as [Z].
    - [Unit] objects are shared, mutable objects: the roster, the cells and
      the selection all hold references to them.  A reference is a
      [UnitRef]; the objects live in a store [UnitRef -> Unit.t] that is part
      of the modelled state, so that a mutation through one reference is seen
      through every other one.
    - Cell objects are created by [initializeCellStates] only and stay at
      their place in [mapState.cells]; a reference to a cell obtained with
      [getCell r c] is the place [(r, c)] of the matrix.
    - The rendering coordinates [x], [y] of a cell are floating point values
      used by the drawing code only; they are left out. *)

From Stdlib Require Import ZArith List Bool Lia.
From stdpp Require Import base option list functions.

Open Scope Z_scope.

(** ** Units ([unit.js]) *)

Inductive UnitType := SOLDIER | ARCHER | KNIGHT | MAGE.

Inductive UnitOwner := PLAYER | AI | NEUTRAL.

Record Position := { row : Z; col : Z }.

Module Unit.

Record t := mk {
  type : UnitType;
  owner : UnitOwner;
  health : Z;
  maxHealth : Z;
  attack : Z;
  movement : Z;
  movementRemaining : Z;
  hasAttacked : bool;
  position : Position
}.

(** [new Unit(type, owner, health, attack, movement)] *)
Definition new (ty : UnitType) (ow : UnitOwner) (hp att mov : Z) : t :=
  {| type := ty; owner := ow; health := hp; maxHealth := hp;
     attack := att; movement := mov; movementRemaining := mov;
     hasAttacked := false;
     position := {| row := -1; col := -1 |} |}.

Definition resetTurn (u : t) : t :=
  {| type := type u; owner := owner u; health := health u;
     maxHealth := maxHealth u; attack := attack u; movement := movement u;
     movementRemaining := movement u;
     hasAttacked := false;
     position := position u |}.

Definition takeDamage (u : t) (amount : Z) : bool * t :=
  let h := Z.max 0 (health u - amount) in
  (0 <? h,
   {| type := type u; owner := owner u; health := h;
      maxHealth := maxHealth u; attack := attack u; movement := movement u;
      movementRemaining := movementRemaining u;
      hasAttacked := hasAttacked u; position := position u |}).

Definition heal (u : t) (amount : Z) : t :=
  {| type := type u; owner := owner u;
     health := Z.min (maxHealth u) (health u + amount);
     maxHealth := maxHealth u; attack := attack u; movement := movement u;
     movementRemaining := movementRemaining u;
     hasAttacked := hasAttacked u; position := position u |}.

Definition move (u : t) (r c cost : Z) : bool * t :=
  if cost <=? movementRemaining u then
    (true,
     {| type := type u; owner := owner u; health := health u;
        maxHealth := maxHealth u; attack := attack u;
        movement := movement u;
        movementRemaining := movementRemaining u - cost;
        hasAttacked := hasAttacked u;
        position := {| row := r; col := c |} |})
  else (false, u).

Definition canAttack (u : t) : bool := negb (hasAttacked u).

Definition performAttack (u : t) : Z * t :=
  if canAttack u then
    (attack u,
     {| type := type u; owner := owner u; health := health u;
        maxHealth := maxHealth u; attack := attack u;
        movement := movement u;
        movementRemaining := movementRemaining u;
        hasAttacked := true; position := position u |})
  else (0, u).

End Unit.

Definition createUnit (ty : UnitType) (ow : UnitOwner) : Unit.t :=
  match ty with
  | SOLDIER => Unit.new ty ow 10 3 2
  | ARCHER => Unit.new ty ow 7 4 2
  | KNIGHT => Unit.new ty ow 12 5 3
  | MAGE => Unit.new ty ow 6 6 1
  end.

(** A reference to a [Unit] object. *)
Abbreviation UnitRef := nat.

(** ** Cells and the global [mapState] *)

Module Cell.

Record t := mk {
  rowIndex : Z;
  cellIndex : Z;
  isVisible : bool;
  isActive : bool;
  isHighlighted : bool;
  unit : option UnitRef
}.

Definition setActive (b : bool) (c : t) : t :=
  {| rowIndex := rowIndex c; cellIndex := cellIndex c;
     isVisible := isVisible c; isActive := b;
     isHighlighted := isHighlighted c; unit := unit c |}.

Definition setHighlighted (b : bool) (c : t) : t :=
  {| rowIndex := rowIndex c; cellIndex := cellIndex c;
     isVisible := isVisible c; isActive := isActive c;
     isHighlighted := b; unit := unit c |}.

Definition setUnit (u : option UnitRef) (c : t) : t :=
  {| rowIndex := rowIndex c; cellIndex := cellIndex c;
     isVisible := isVisible c; isActive := isActive c;
     isHighlighted := isHighlighted c; unit := u |}.

End Cell.

Abbreviation Grid := (list (list Cell.t)).

(** [currentTurn] is one of the two strings ['player'] and ['ai']. *)
Inductive Turn := TurnPlayer | TurnAI.

(** [unit.owner === mapState.currentTurn] *)
Definition ownerIsTurn (o : UnitOwner) (t : Turn) : bool :=
  match o, t with
  | PLAYER, TurnPlayer => true
  | AI, TurnAI => true
  | _, _ => false
  end.

Record MapState := mkState {
  cells : Grid;
  activeHexagon : option (Z * Z);
  units : list UnitRef;
  selectedUnit : option UnitRef;
  currentTurn : Turn;
  (** the [Unit] objects the references point to *)
  store : UnitRef -> Unit.t
}.

(** The module-level initial value of [mapState]. *)
Definition mapState (st : UnitRef -> Unit.t) : MapState :=
  {| cells := []; activeHexagon := None; units := [];
     selectedUnit := None; currentTurn := TurnPlayer; store := st |}.

Definition withCells (s : MapState) (g : Grid) : MapState :=
  {| cells := g; activeHexagon := activeHexagon s; units := units s;
     selectedUnit := selectedUnit s; currentTurn := currentTurn s;
     store := store s |}.

Definition withUnits (s : MapState) (us : list UnitRef) : MapState :=
  {| cells := cells s; activeHexagon := activeHexagon s; units := us;
     selectedUnit := selectedUnit s; currentTurn := currentTurn s;
     store := store s |}.

Definition withSelectedUnit (s : MapState) (u : option UnitRef) : MapState :=
  {| cells := cells s; activeHexagon := activeHexagon s; units := units s;
     selectedUnit := u; currentTurn := currentTurn s; store := store s |}.

Definition withCurrentTurn (s : MapState) (t : Turn) : MapState :=
  {| cells := cells s; activeHexagon := activeHexagon s; units := units s;
     selectedUnit := selectedUnit s; currentTurn := t; store := store s |}.

Definition withStore (s : MapState) (st : UnitRef -> Unit.t) : MapState :=
  {| cells := cells s; activeHexagon := activeHexagon s; units := units s;
     selectedUnit := selectedUnit s; currentTurn := currentTurn s;
     store := st |}.

(** ** Grid / cell store *)

(** [mapState.cells[r][c]] for indices that the callers have checked to be
    non-negative; [None] stands for JavaScript's [undefined]. *)
Definition cellAt (g : Grid) (r c : Z) : option Cell.t :=
  if (0 <=? r) && (0 <=? c)
  then g !! Z.to_nat r ≫= (λ rw, rw !! Z.to_nat c)
  else None.

(** In-place update of the cell object stored at [(r, c)]. *)
Definition updCell (f : Cell.t -> Cell.t) (r c : Z) (g : Grid) : Grid :=
  if (0 <=? r) && (0 <=? c)
  then alter (alter f (Z.to_nat c)) (Z.to_nat r) g
  else g.

(** [config.gridConfig] is a matrix of numbers, 1 meaning visible. *)
Definition initializeCellStates (gridConfig : list (list Z)) (s : MapState)
  : MapState :=
  withCells s
    (imap (λ rowIndex rw,
       imap (λ cellIndex v,
         {| Cell.rowIndex := Z.of_nat rowIndex;
            Cell.cellIndex := Z.of_nat cellIndex;
            Cell.isVisible := v =? 1;
            Cell.isActive := false;
            Cell.isHighlighted := false;
            Cell.unit := None |}) rw) gridConfig).

(** The bounds tests of [cellExists] and [toggleCellState], on their own. *)
Definition inBounds (g : Grid) (rowIndex cellIndex : Z) : bool :=
  (0 <=? rowIndex) && (rowIndex <? Z.of_nat (length g))
  && match g !! Z.to_nat rowIndex with
     | Some rw => (0 <=? cellIndex) && (cellIndex <? Z.of_nat (length rw))
     | None => false
     end.

Definition cellExists (g : Grid) (rowIndex cellIndex : Z) : bool :=
  if (0 <=? rowIndex) && (rowIndex <? Z.of_nat (length g)) then
    match g !! Z.to_nat rowIndex with
    | Some rw =>
        if (0 <=? cellIndex) && (cellIndex <? Z.of_nat (length rw)) then
          match rw !! Z.to_nat cellIndex with
          | Some cell => Cell.isVisible cell
          | None => false
          end
        else false
    | None => false
    end
  else false.

Definition getCell (g : Grid) (rowIndex cellIndex : Z) : option Cell.t :=
  if cellExists g rowIndex cellIndex then cellAt g rowIndex cellIndex
  else None.

Definition toggleCellState (s : MapState) (rowIndex cellIndex : Z)
  : bool * MapState :=
  let g := cells s in
  if (0 <=? rowIndex) && (rowIndex <? Z.of_nat (length g)) then
    match g !! Z.to_nat rowIndex with
    | Some rw =>
        if (0 <=? cellIndex) && (cellIndex <? Z.of_nat (length rw)) then
          match rw !! Z.to_nat cellIndex with
          | Some cell =>
              if Cell.isVisible cell then
                (negb (Cell.isActive cell),
                 withCells s
                   (updCell (Cell.setActive (negb (Cell.isActive cell)))
                      rowIndex cellIndex g))
              else (false, s)
          | None => (false, s)
          end
        else (false, s)
    | None => (false, s)
    end
  else (false, s).

Definition clearHighlightedCells (s : MapState) : MapState :=
  withCells s (map (map (Cell.setHighlighted false)) (cells s)).

(** ** Placement manager *)

Definition addUnit (s : MapState) (unit : option UnitRef) : bool * MapState :=
  match unit with
  | Some u => (true, withUnits s (units s ++ [u]))
  | None => (false, s)
  end.

(** [Array.prototype.indexOf]: the first index holding the reference, else
    [-1]. *)
Fixpoint indexOf (u : UnitRef) (l : list UnitRef) : Z :=
  match l with
  | [] => -1
  | x :: l' =>
      if decide (x = u) then 0
      else let i := indexOf u l' in if i =? -1 then -1 else i + 1
  end.

(** [Array.prototype.includes] *)
Definition includes (u : UnitRef) (l : list UnitRef) : bool :=
  bool_decide (u ∈ l).

(** [cell.unit = v] on the cell object returned by [getCell r c] (nothing is
    written when [getCell] returned [null]). *)
Definition setCellUnit (v : option UnitRef) (r c : Z) (g : Grid) : Grid :=
  match getCell g r c with
  | Some _ => updCell (Cell.setUnit v) r c g
  | None => g
  end.

Definition removeUnit (s : MapState) (unit : option UnitRef)
  : bool * MapState :=
  match unit with
  | None => (false, s)
  | Some u =>
      let index := indexOf u (units s) in
      if negb (index =? -1) then
        let s1 := withUnits s (delete (Z.to_nat index) (units s)) in
        let pos := Unit.position (store s u) in
        let s2 :=
          if (0 <=? row pos) && (0 <=? col pos)
          then withCells s1 (setCellUnit None (row pos) (col pos) (cells s1))
          else s1 in
        let s3 :=
          if bool_decide (selectedUnit s2 = Some u)
          then withSelectedUnit s2 None
          else s2 in
        (true, s3)
      else (false, s)
  end.

(** [placeUnit] dereferences [unit] without a null test, so its argument is
    a proper reference. *)
Definition placeUnit (s : MapState) (unit : UnitRef) (rowIndex cellIndex : Z)
  : bool * MapState :=
  match getCell (cells s) rowIndex cellIndex with
  | Some cell =>
      if Cell.isVisible cell && negb (bool_decide (is_Some (Cell.unit cell)))
      then
        let pos := Unit.position (store s unit) in
        let s1 :=
          if (0 <=? row pos) && (0 <=? col pos)
          then withCells s (setCellUnit None (row pos) (col pos) (cells s))
          else s in
        let s2 :=
          if negb (includes unit (units s1))
          then withUnits s1 (units s1 ++ [unit])
          else s1 in
        let s3 :=
          withStore s2
            (alter (λ u,
               {| Unit.type := Unit.type u; Unit.owner := Unit.owner u;
                  Unit.health := Unit.health u;
                  Unit.maxHealth := Unit.maxHealth u;
                  Unit.attack := Unit.attack u;
                  Unit.movement := Unit.movement u;
                  Unit.movementRemaining := Unit.movementRemaining u;
                  Unit.hasAttacked := Unit.hasAttacked u;
                  Unit.position := {| row := rowIndex; col := cellIndex |} |})
               unit (store s2)) in
        (true,
         withCells s3
           (updCell (Cell.setUnit (Some unit)) rowIndex cellIndex (cells s3)))
      else (false, s)
  | None => (false, s)
  end.

(** ** Range query (bounded flood fill) *)

(** The six neighbours of [(r, c)]; the table depends on the parity of the
    row ([r % 2 === 0], with JavaScript's remainder). *)
Definition neighbors (r c : Z) : list (Z * Z) :=
  if Z.rem r 2 =? 0
  then [(r-1, c-1); (r-1, c); (r, c+1); (r+1, c); (r+1, c-1); (r, c-1)]
  else [(r-1, c); (r-1, c+1); (r, c+1); (r+1, c+1); (r+1, c); (r, c-1)].

(** [visited.has(`${r},${c}`)]: the key of a cell is the pair of its
    coordinates. *)
Definition visitedHas (k : Z * Z) (visited : list (Z * Z)) : bool :=
  bool_decide (k ∈ visited).

(** The [while (queue.length > 0)] loop.  One unit of [fuel] is spent per
    dequeued triple; [None] means the fuel ran out before the queue was
    empty. *)
Fixpoint rangeLoop (fuel : nat) (g : Grid) (range : Z)
    (includePredicate : Cell.t -> bool)
    (queue : list (Z * Z * Z)) (visited : list (Z * Z))
    (result : list Cell.t) : option (list Cell.t) :=
  match queue with
  | [] => Some result
  | (r, c, dist) :: queue' =>
      match fuel with
      | O => None
      | S fuel' =>
          match getCell g r c with
          | None =>
              rangeLoop fuel' g range includePredicate queue' visited result
          | Some cell =>
              if negb (Cell.isVisible cell) || negb (includePredicate cell)
              then
                rangeLoop fuel' g range includePredicate queue' visited result
              else if visitedHas (r, c) visited then
                rangeLoop fuel' g range includePredicate queue' visited result
              else
                let visited' := (r, c) :: visited in
                let result' := result ++ [cell] in
                if range <=? dist then
                  rangeLoop fuel' g range includePredicate queue' visited'
                    result'
                else
                  rangeLoop fuel' g range includePredicate
                    (queue' ++ map (λ n, (n.1, n.2, dist + 1)) (neighbors r c))
                    visited' result'
          end
      end
  end.

(** The keys of all cells of the matrix. *)
Definition allKeys (g : Grid) : list (Z * Z) :=
  concat (imap (λ i rw, imap (λ j _, (Z.of_nat i, Z.of_nat j)) rw) g).

(** Every cell spreads to its neighbours at most once, so the loop dequeues
    at most one triple for the origin and six per cell; see
    [rangeLoop_terminates]. *)
Definition rangeFuel (g : Grid) : nat := (7 * length (allKeys g) + 1)%nat.

Definition getCellsInRange (g : Grid) (row col range : Z)
    (includePredicate : Cell.t -> bool) : list Cell.t :=
  if (range <? 0) || negb (cellExists g row col) then []
  else
    match rangeLoop (rangeFuel g) g range includePredicate
            [(row, col, 0)] [] [] with
    | Some result => result
    | None => []
    end.

(** ** Turn controller / selection *)

(** [cell => cell?.unit === unit || !cell?.unit] *)
Definition emptyOrSelf (unit : UnitRef) (cell : Cell.t) : bool :=
  bool_decide (Cell.unit cell = Some unit)
  || negb (bool_decide (is_Some (Cell.unit cell))).

(** [cell.isHighlighted = true] for each cell object of the array; the
    object is the one stored at its own [rowIndex], [cellIndex]. *)
Definition highlightCells (cs : list Cell.t) (g : Grid) : Grid :=
  fold_left
    (λ g' cell,
       updCell (Cell.setHighlighted true)
         (Cell.rowIndex cell) (Cell.cellIndex cell) g')
    cs g.

Definition highlightMovementRange (s : MapState) (unit : option UnitRef)
  : MapState :=
  match unit with
  | None => s
  | Some u =>
      if Unit.movementRemaining (store s u) <=? 0 then s
      else
        let pos := Unit.position (store s u) in
        let movementRange := Unit.movementRemaining (store s u) in
        let cs :=
          getCellsInRange (cells s) (row pos) (col pos) movementRange
            (emptyOrSelf u) in
        withCells s (highlightCells cs (cells s))
  end.

Definition selectUnit (s : MapState) (unit : option UnitRef) : MapState :=
  highlightMovementRange
    (clearHighlightedCells (withSelectedUnit s unit)) unit.

Definition moveUnit (s : MapState) (unit : option UnitRef)
    (rowIndex cellIndex : Z) : bool * MapState :=
  match unit with
  | None => (false, s)
  | Some u =>
      match getCell (cells s) rowIndex cellIndex with
      | None => (false, s)
      | Some targetCell =>
          if negb (Cell.isVisible targetCell)
             || bool_decide (is_Some (Cell.unit targetCell))
          then (false, s)
          else
            let cost := 1 in
            let pos := Unit.position (store s u) in
            let '(moved, u') := Unit.move (store s u) rowIndex cellIndex cost in
            if moved then
              let s1 := withStore s (<[u := u']> (store s)) in
              let s2 :=
                withCells s1
                  (setCellUnit None (row pos) (col pos) (cells s1)) in
              let s3 :=
                withCells s2
                  (updCell (Cell.setUnit (Some u)) rowIndex cellIndex
                     (cells s2)) in
              let s4 := clearHighlightedCells s3 in
              let s5 :=
                if 0 <? Unit.movementRemaining (store s4 u)
                then highlightMovementRange s4 (Some u)
                else s4 in
              (true, s5)
            else (false, s)
      end
  end.

Definition flipTurn (t : Turn) : Turn :=
  match t with TurnPlayer => TurnAI | TurnAI => TurnPlayer end.

(** [endTurn] returns the new state and whether it scheduled the deferred
    [runAITurn] callback with [setTimeout]. *)
Definition endTurn (s : MapState) : MapState * bool :=
  let s1 := clearHighlightedCells (withSelectedUnit s None) in
  let s2 := withCurrentTurn s1 (flipTurn (currentTurn s1)) in
  let s3 :=
    withStore s2
      (fold_left
         (λ st u,
            if ownerIsTurn (Unit.owner (st u)) (currentTurn s2)
            then alter Unit.resetTurn u st
            else st)
         (units s2) (store s2)) in
  (s3, match currentTurn s3 with TurnAI => true | TurnPlayer => false end).

(** The deferred callback. *)
Definition runAITurn (s : MapState) : MapState * bool := endTurn s.

(** ** Click dispatch ([interactions.js]) *)

(** [cell.unit && f(cell.unit.owner)] *)
Definition unitOwnerIs (s : MapState) (cu : option UnitRef)
    (f : UnitOwner -> bool) : bool :=
  match cu with
  | Some v => f (Unit.owner (store s v))
  | None => false
  end.

Definition handleCellInteraction (s : MapState) (cell : Cell.t)
    (rowIndex colIndex : Z) : MapState :=
  match selectedUnit s with
  | Some selected =>
      if bool_decide (Cell.unit cell = Some selected) then selectUnit s None
      else if unitOwnerIs s (Cell.unit cell)
                (λ o, match o with PLAYER => true | _ => false end)
      then selectUnit s (Cell.unit cell)
      else if Cell.isHighlighted cell
      then (moveUnit s (Some selected) rowIndex colIndex).2
      else selectUnit s None
  | None =>
      if unitOwnerIs s (Cell.unit cell) (λ o, ownerIsTurn o (currentTurn s))
      then selectUnit s (Cell.unit cell)
      else (toggleCellState s rowIndex colIndex).2
  end.

(** The scan for the clicked cell: the first visible cell, in row-major
    order, whose hexagon contains the click point.  [hit r c] stands for
    [isPointInHexagon] applied to the pixel position of the cell at
    [(r, c)]. *)
Fixpoint findClickedInRow (hit : Z -> Z -> bool) (rowIndex cellIndex : Z)
    (rw : list Cell.t) : option (Cell.t * Z * Z) :=
  match rw with
  | [] => None
  | cell :: rest =>
      if negb (Cell.isVisible cell)
      then findClickedInRow hit rowIndex (cellIndex + 1) rest
      else if hit rowIndex cellIndex then Some (cell, rowIndex, cellIndex)
      else findClickedInRow hit rowIndex (cellIndex + 1) rest
  end.

Fixpoint findClicked (hit : Z -> Z -> bool) (rowIndex : Z) (g : Grid)
  : option (Cell.t * Z * Z) :=
  match g with
  | [] => None
  | rw :: rest =>
      match findClickedInRow hit rowIndex 0 rw with
      | Some found => Some found
      | None => findClicked hit (rowIndex + 1) rest
      end
  end.

(** [handleClick]: [isDragging] and [hasMoved] are the gesture flags,
    [beyondThreshold] the test of the pointer displacement against
    [DRAG_THRESHOLD]. *)
Definition handleClick (s : MapState) (isDragging hasMoved : bool)
    (beyondThreshold : bool) (hit : Z -> Z -> bool) : MapState :=
  if isDragging || hasMoved then s
  else
    match currentTurn s with
    | TurnAI => s
    | TurnPlayer =>
        if beyondThreshold then s
        else
          match findClicked hit 0 (cells s) with
          | None => s
          | Some (clickedCell, clickedRow, clickedCol) =>
              handleCellInteraction s clickedCell clickedRow clickedCol
          end
    end.

(** ** Sequences of mutation operations *)

(** The exported mutation operations, with their arguments.  [placeUnit]
    takes a proper reference (it dereferences its argument); the other
    operations accept null.  The deferred [runAITurn] callback that
    [endTurn] schedules is one more [OpEndTurn] in the sequence. *)
Inductive Op :=
| OpInitializeCellStates (gridConfig : list (list Z))
| OpAddUnit (unit : option UnitRef)
| OpRemoveUnit (unit : option UnitRef)
| OpPlaceUnit (unit : UnitRef) (rowIndex cellIndex : Z)
| OpMoveUnit (unit : option UnitRef) (rowIndex cellIndex : Z)
| OpSelectUnit (unit : option UnitRef)
| OpEndTurn
| OpToggleCellState (rowIndex cellIndex : Z)
| OpClearHighlightedCells.

Definition step (s : MapState) (o : Op) : MapState :=
  match o with
  | OpInitializeCellStates gridConfig => initializeCellStates gridConfig s
  | OpAddUnit unit => (addUnit s unit).2
  | OpRemoveUnit unit => (removeUnit s unit).2
  | OpPlaceUnit unit r c => (placeUnit s unit r c).2
  | OpMoveUnit unit r c => (moveUnit s unit r c).2
  | OpSelectUnit unit => selectUnit s unit
  | OpEndTurn => (endTurn s).1
  | OpToggleCellState r c => (toggleCellState s r c).2
  | OpClearHighlightedCells => clearHighlightedCells s
  end.

Definition run (ops : list Op) (s : MapState) : MapState :=
  fold_left step ops s.

Arguments highlightMovementRange : simpl never.
Arguments clearHighlightedCells : simpl never.
Arguments getCellsInRange : simpl never.

(** * Specification-level definitions *)

(** ** Predicates used in the statements *)

(** Two matrices that differ at most in the [isHighlighted] flags. *)
Definition sameButHighlight (g g' : Grid) : Prop :=
  ∀ r c,
    Cell.setHighlighted false <$> cellAt g r c
    = Cell.setHighlighted false <$> cellAt g' r c.

(** ** Admissible paths, for the statements about the range query *)

(** The cell at [(r, c)] exists, is visible ([getCell] finds it) and passes
    the predicate. *)
Definition admissible (g : Grid) (p : Cell.t -> bool) (r c : Z) : Prop :=
  ∃ cell, getCell g r c = Some cell ∧ p cell = true.

(** [reach g p r0 c0 d r c]: there is a path of [d] steps from the origin
    [(r0, c0)] to [(r, c)], each step going to one of the six neighbours,
    on which every cell, both ends included, is admissible. *)
Inductive reach (g : Grid) (p : Cell.t -> bool) (r0 c0 : Z)
  : Z -> Z -> Z -> Prop :=
| reach_origin :
    admissible g p r0 c0 → reach g p r0 c0 0 r0 c0
| reach_step d r c r' c' :
    reach g p r0 c0 d r c →
    (r', c') ∈ neighbors r c →
    admissible g p r' c' →
    reach g p r0 c0 (d + 1) r' c'.

(** Every cell object records its own place, as after
    [initializeCellStates]. *)
Definition gridWf (g : Grid) : Prop :=
  ∀ r c cell, cellAt g r c = Some cell →
    Cell.rowIndex cell = r ∧ Cell.cellIndex cell = c.

Definition cellKey (cell : Cell.t) : Z * Z :=
  (Cell.rowIndex cell, Cell.cellIndex cell).

(** Loop invariant of the flood fill, queue part: every queued triple is
    the origin at distance 0 or a neighbour of a cell reached by an
    admissible path, one step further, and its distance is within range. *)
Definition queueOk (g : Grid) (p : Cell.t -> bool) (r0 c0 range : Z)
    (queue : list (Z * Z * Z)) : Prop :=
  ∀ r c d, (r, c, d) ∈ queue →
    0 <= d <= range
    ∧ ((d = 0 ∧ r = r0 ∧ c = c0)
       ∨ ∃ d' r' c', d = d' + 1 ∧ reach g p r0 c0 d' r' c'
           ∧ (r, c) ∈ neighbors r' c').

(** Loop invariant, result part: every collected cell is the cell found at
    the end of an admissible path of at most [range] steps. *)
Definition resultOk (g : Grid) (p : Cell.t -> bool) (r0 c0 range : Z)
    (result : list Cell.t) : Prop :=
  ∀ cell, cell ∈ result →
    ∃ r c d, 0 <= d <= range ∧ reach g p r0 c0 d r c
      ∧ getCell g r c = Some cell.

(** The coordinates of a queued or visited triple. *)
Definition keyOf (x : Z * Z * Z) : Z * Z := (x.1.1, x.1.2).

(** The distances of the queued triples start at [lo] or above and never
    decrease along the queue. *)
Fixpoint qSorted (lo : Z) (queue : list (Z * Z * Z)) : Prop :=
  match queue with
  | [] => True
  | x :: queue' => lo <= x.2 ∧ qSorted x.2 queue'
  end.

(** Loop invariant of the flood fill used for completeness.  [vd] lists the
    visited keys together with the distance at which each was visited; [lo]
    is the distance of the triple dequeued last. *)
Definition bfsInv (g : Grid) (p : Cell.t -> bool) (r0 c0 range : Z)
    (lo : Z) (queue : list (Z * Z * Z)) (visited : list (Z * Z))
    (vd : list (Z * Z * Z)) (result : list Cell.t) : Prop :=
  qSorted lo queue
  ∧ (∀ x, x ∈ queue → x.2 <= lo + 1)
  ∧ (∀ x, x ∈ vd → x.2 <= lo)
  ∧ (∀ r c d, (r, c, d) ∈ vd → d < range →
       ∀ n, n ∈ neighbors r c → admissible g p n.1 n.2 →
         (∃ d', (n.1, n.2, d') ∈ vd ∧ d' <= d + 1)
         ∨ (n.1, n.2, d + 1) ∈ queue)
  ∧ ((r0, c0, 0) ∈ queue
     ∨ (∃ d', (r0, c0, d') ∈ vd ∧ d' <= 0)
     ∨ ¬ admissible g p r0 c0)
  ∧ visited = keyOf <$> vd
  ∧ (∀ r c d, (r, c, d) ∈ vd →
       ∃ cell, getCell g r c = Some cell ∧ cell ∈ result).

(** The keys of the matrix that are not in the visited set. *)
Definition unvisited (g : Grid) (visited : list (Z * Z)) : list (Z * Z) :=
  List.filter (λ k, negb (visitedHas k visited)) (allKeys g).

(** ** The occupancy invariant *)

(** The occupancy invariant: every cell object records its own place, and a
    cell that refers to a unit is visible and is the cell at that unit's
    position. *)
Definition gridInv (g : Grid) (st : UnitRef -> Unit.t) : Prop :=
  ∀ r c cell, cellAt g r c = Some cell →
    (Cell.rowIndex cell = r ∧ Cell.cellIndex cell = c)
    ∧ ∀ u, Cell.unit cell = Some u →
        Cell.isVisible cell = true
        ∧ Unit.position (st u) = {| row := r; col := c |}.

(** What the occupancy invariant reads of a cell. *)
Definition occupancy (cell : Cell.t) : Z * Z * bool * option UnitRef :=
  (Cell.rowIndex cell, Cell.cellIndex cell, Cell.isVisible cell,
   Cell.unit cell).

Definition sameOccupancy (g g' : Grid) : Prop :=
  ∀ r c, occupancy <$> cellAt g r c = occupancy <$> cellAt g' r c.

Definition stateInv (s : MapState) : Prop := gridInv (cells s) (store s).

(** ** The conditions of the specification, in its own words *)

(** The cell at [(r, c)] is among the cells within [u.movementRemaining] of
    the position of [u] under the empty-or-self predicate. *)
Definition withinMovementRange (s : MapState) (u : UnitRef) (r c : Z) : bool :=
  existsb (λ cell, (Cell.rowIndex cell =? r) && (Cell.cellIndex cell =? c))
    (getCellsInRange (cells s)
       (row (Unit.position (store s u))) (col (Unit.position (store s u)))
       (Unit.movementRemaining (store s u)) (emptyOrSelf u)).

(** The condition under which the specification lets [moveUnit u r c]
    succeed: the cell is visible, unoccupied and within movement range. *)
Definition specMoveAllowed (s : MapState) (u : UnitRef) (r c : Z) : bool :=
  match cellAt (cells s) r c with
  | Some cell =>
      Cell.isVisible cell && negb (bool_decide (is_Some (Cell.unit cell)))
      && withinMovementRange s u r c
  | None => false
  end.

(** ** Sample data used by the examples *)

(** A store in which every reference points to a fresh player soldier. *)
Definition soldiers : UnitRef -> Unit.t := λ _, createUnit SOLDIER PLAYER.

(** The cell matrix built from a visibility mask. *)
Definition gridOf (gridConfig : list (list Z)) : Grid :=
  cells (initializeCellStates gridConfig (mapState soldiers)).

(** [defaultGridConfig] of [config.js]. *)
Definition defaultGridConfig : list (list Z) :=
  [[1; 1; 1; 1; 1; 1];
   [1; 0; 1; 1; 1; 1];
   [1; 1; 1; 0; 1; 1];
   [1; 1; 1; 1; 1; 1];
   [1; 1; 1; 1; 1; 1];
   [1; 1; 1; 0; 1; 1]].

(** A soldier (movement 2) standing at the left end of a single row of four
    visible cells. *)
Definition rowOfFour : MapState :=
  (placeUnit (initializeCellStates [[1; 1; 1; 1]] (mapState soldiers))
     0%nat 0 0).2.

(** The state of [rowOfFour] after the player has ended the turn: it is the
    AI's turn. *)
Definition rowOfFourAITurn : MapState := (endTurn rowOfFour).1.

(** A single visible cell that has been toggled active. *)
Definition oneActiveCell : MapState :=
  (toggleCellState (initializeCellStates [[1]] (mapState soldiers)) 0 0).2.

(** A unit whose attack strength is zero. *)
Definition harmless : Unit.t := Unit.new MAGE NEUTRAL 5 0 1.

(** ** Sequences of calls on one unit *)

(** The mutating methods of [Unit], with their arguments. *)
Inductive UnitCall :=
| CallResetTurn
| CallTakeDamage (amount : Z)
| CallHeal (amount : Z)
| CallMove (r c cost : Z)
| CallPerformAttack.

Definition unitCall (u : Unit.t) (call : UnitCall) : Unit.t :=
  match call with
  | CallResetTurn => Unit.resetTurn u
  | CallTakeDamage amount => (Unit.takeDamage u amount).2
  | CallHeal amount => Unit.heal u amount
  | CallMove r c cost => (Unit.move u r c cost).2
  | CallPerformAttack => (Unit.performAttack u).2
  end.

(** The amount or cost passed to the call is not negative. *)
Definition unitCallNonneg (call : UnitCall) : Prop :=
  match call with
  | CallTakeDamage amount => 0 <= amount
  | CallHeal amount => 0 <= amount
  | CallMove _ _ cost => 0 <= cost
  | _ => True
  end.

(** Health lies between 0 and [maxHealth], remaining movement between 0 and
    [movement]. *)
Definition unitOk (u : Unit.t) : Prop :=
  0 <= Unit.health u <= Unit.maxHealth u
  ∧ 0 <= Unit.movementRemaining u <= Unit.movement u.

(** A sequence of [moveUnit] calls; the result counts the calls that
    succeeded for the unit [u]. *)
Fixpoint moveUnits (s : MapState) (u : UnitRef)
    (moves : list (option UnitRef * Z * Z)) : Z * MapState :=
  match moves with
  | [] => (0, s)
  | (unit, r, c) :: moves' =>
      let res := moveUnit s unit r c in
      let rest := moveUnits res.2 u moves' in
      ((if res.1 && bool_decide (unit = Some u) then 1 else 0) + rest.1,
       rest.2)
  end.

(** [config.gridConfig[r][c]], [None] when there is no such entry. *)
Definition maskAt (gridConfig : list (list Z)) (r c : Z) : option Z :=
  if (0 <=? r) && (0 <=? c)
  then gridConfig !! Z.to_nat r ≫= (λ rw, rw !! Z.to_nat c)
  else None.

(** No [addUnit] in the sequence is given a unit that is in the roster at
    that moment. *)
Fixpoint addsOnlyNewUnits (s : MapState) (ops : list Op) : Prop :=
  match ops with
  | [] => True
  | o :: ops' =>
      match o with
      | OpAddUnit (Some u) => u ∉ units s
      | _ => True
      end
      ∧ addsOnlyNewUnits (step s o) ops'
  end.

(** ** Game setup ([src/src/hexagon.js]) *)

(** [new Unit(...)]: the new object is the one at the reference [ref]. *)
Definition newUnit (s : MapState) (ref : UnitRef) (u : Unit.t) : MapState :=
  withStore s (<[ref := u]> (store s)).

(** [initializeUnits]; the ten objects it creates are the ones at the
    references [base], ..., [base + 9]. *)
Definition initializeUnits (s : MapState) (base : UnitRef) : MapState :=
  let playerSoldier1 := base in
  let playerSoldier2 := (base + 1)%nat in
  let playerArcher := (base + 2)%nat in
  let playerKnight := (base + 3)%nat in
  let playerMage := (base + 4)%nat in
  let aiSoldier1 := (base + 5)%nat in
  let aiSoldier2 := (base + 6)%nat in
  let aiArcher := (base + 7)%nat in
  let aiKnight := (base + 8)%nat in
  let aiMage := (base + 9)%nat in
  let s := newUnit s playerSoldier1 (createUnit SOLDIER PLAYER) in
  let s := newUnit s playerSoldier2 (createUnit SOLDIER PLAYER) in
  let s := newUnit s playerArcher (createUnit ARCHER PLAYER) in
  let s := newUnit s playerKnight (createUnit KNIGHT PLAYER) in
  let s := newUnit s playerMage (createUnit MAGE PLAYER) in
  let s := newUnit s aiSoldier1 (createUnit SOLDIER AI) in
  let s := newUnit s aiSoldier2 (createUnit SOLDIER AI) in
  let s := newUnit s aiArcher (createUnit ARCHER AI) in
  let s := newUnit s aiKnight (createUnit KNIGHT AI) in
  let s := newUnit s aiMage (createUnit MAGE AI) in
  let s := (placeUnit s playerSoldier1 5 0).2 in
  let s := (placeUnit s playerSoldier2 5 1).2 in
  let s := (placeUnit s playerArcher 5 2).2 in
  let s := (placeUnit s playerKnight 5 5).2 in
  let s := (placeUnit s playerMage 5 4).2 in
  let s := (placeUnit s aiSoldier1 0 0).2 in
  let s := (placeUnit s aiSoldier2 0 1).2 in
  let s := (placeUnit s aiArcher 0 2).2 in
  let s := (placeUnit s aiKnight 0 3).2 in
  let s := (placeUnit s aiMage 0 4).2 in
  s.

(** What the page does when it is loaded: [initializeCellStates()] and then
    [initializeUnits()], on the initial [mapState]. *)
Definition startGame (gridConfig : list (list Z)) (st : UnitRef -> Unit.t)
    (base : UnitRef) : MapState :=
  initializeUnits (initializeCellStates gridConfig (mapState st)) base.

(** The units of [initializeUnits], as offsets from [base], with the cells
    they are placed on. *)
Definition setupCells : list (nat * Z * Z) :=
  [(0%nat, 5, 0); (1%nat, 5, 1); (2%nat, 5, 2); (3%nat, 5, 5); (4%nat, 5, 4);
   (5%nat, 0, 0); (6%nat, 0, 1); (7%nat, 0, 2); (8%nat, 0, 3); (9%nat, 0, 4)].

(** A sequence of [placeUnit] calls. *)
Definition placeAll (s : MapState) (l : list (UnitRef * Z * Z)) : MapState :=
  fold_left (λ s' p, (placeUnit s' p.1.1 p.1.2 p.2).2) l s.

(** The state of [initializeUnits] after its ten [createUnit] calls, before
    the first [placeUnit]. *)
Definition createdUnits (s : MapState) (base : UnitRef) : MapState :=
  newUnit (newUnit (newUnit (newUnit (newUnit
    (newUnit (newUnit (newUnit (newUnit (newUnit s
       base (createUnit SOLDIER PLAYER))
       (base + 1)%nat (createUnit SOLDIER PLAYER))
       (base + 2)%nat (createUnit ARCHER PLAYER))
       (base + 3)%nat (createUnit KNIGHT PLAYER))
       (base + 4)%nat (createUnit MAGE PLAYER))
       (base + 5)%nat (createUnit SOLDIER AI))
       (base + 6)%nat (createUnit SOLDIER AI))
       (base + 7)%nat (createUnit ARCHER AI))
       (base + 8)%nat (createUnit KNIGHT AI))
       (base + 9)%nat (createUnit MAGE AI).

(** The owner [initializeUnits] gives to its [k]-th unit. *)
Definition setupOwner (k : nat) : UnitOwner :=
  if (k <? 5)%nat then PLAYER else AI.

(** ** The event loop: clicks and the deferred AI callback *)

(** The game state together with the number of [runAITurn] callbacks that
    [endTurn] has scheduled with [setTimeout] and that have not fired yet. *)
Record World := mkWorld { game : MapState; pendingAI : nat }.

(** What can happen in the page: a click or tap on the canvas
    ([handleClick], with the gesture flags and the hit test of that click),
    a click on the End Turn button, and the firing of a scheduled
    callback. *)
Inductive Event :=
| ClickCanvas (isDragging hasMoved beyondThreshold : bool)
    (hit : Z -> Z -> bool)
| ClickEndTurn
| TimerFires.

Definition worldStep (w : World) (e : Event) : World :=
  match e with
  | ClickCanvas isDragging hasMoved beyondThreshold hit =>
      {| game := handleClick (game w) isDragging hasMoved beyondThreshold hit;
         pendingAI := pendingAI w |}
  | ClickEndTurn =>
      let res := endTurn (game w) in
      {| game := res.1;
         pendingAI := (pendingAI w + if res.2 then 1 else 0)%nat |}
  | TimerFires =>
      match pendingAI w with
      | O => w
      | S n =>
          let res := runAITurn (game w) in
          {| game := res.1; pendingAI := (n + if res.2 then 1 else 0)%nat |}
      end
  end.

Definition worldRun (events : list Event) (w : World) : World :=
  fold_left worldStep events w.

(** The page right after loading. *)
Definition startWorld (gridConfig : list (list Z)) (st : UnitRef -> Unit.t)
    (base : UnitRef) : World :=
  {| game := startGame gridConfig st base; pendingAI := 0 |}.

(** The highlighted cells are exactly the cells within the movement range
    of the selected unit: none if nothing is selected or the selected unit
    has no movement left. *)
Definition highlightsOk (s : MapState) : Prop :=
  ∀ r c cell, cellAt (cells s) r c = Some cell →
    Cell.isHighlighted cell = true ↔
    ∃ u, selectedUnit s = Some u
      ∧ 0 < Unit.movementRemaining (store s u)
      ∧ ∃ d, 0 <= d <= Unit.movementRemaining (store s u)
          ∧ reach (cells s) (emptyOrSelf u)
              (row (Unit.position (store s u)))
              (col (Unit.position (store s u))) d r c.

Definition gameInv (s : MapState) : Prop :=
  stateInv s
  ∧ highlightsOk s
  ∧ ∀ u, selectedUnit s = Some u → Unit.owner (store s u) = PLAYER.

Definition worldInv (w : World) : Prop :=
  gameInv (game w)
  ∧ (currentTurn (game w) = TurnAI → (1 <= pendingAI w)%nat).

Definition noHighlights (s : MapState) : Prop :=
  ∀ r c cell, cellAt (cells s) r c = Some cell →
    Cell.isHighlighted cell = false.

(** A hit test that is true at one place only. *)
Definition hitAt (r0 c0 : Z) : Z -> Z -> bool :=
  λ r c, (r =? r0) && (c =? c0).

(** ** The view state ([viewState.js]) and the zoom handler

    The scale, the offsets and the pointer positions are floating point
    numbers.  The model is parametric in the type of numbers and in the
    operations the code applies to them, so that nothing is assumed about
    rounding: [leb] is [<=], [add], [mul] and [div] are [+], [*] and [/],
    [exp] is [Math.exp]. *)

Section View.

Variable num : Type.
Variable leb : num -> num -> bool.
Variables add mul div : num -> num -> num.
Variable exp : num -> num.
Variables zero one minusOne zoomIntensity : num.

Record ViewState := mkView {
  scale : num;
  offsetX : num;
  offsetY : num;
  isDragging : bool;
  lastX : num;
  lastY : num;
  minScale : num;
  maxScale : num
}.

Definition resetViewState (v : ViewState) : ViewState :=
  {| scale := one; offsetX := zero; offsetY := zero; isDragging := false;
     lastX := zero; lastY := zero;
     minScale := minScale v; maxScale := maxScale v |}.







End View.

(** The sequence never builds the grid anew. *)
Definition keepsGrid (o : Op) : Prop :=
  match o with
  | OpInitializeCellStates _ => False
  | _ => True
  end.

(** Two matrices with the same shape and the same visible cells. *)
Definition sameVisibility (g g' : Grid) : Prop :=
  ∀ r c, Cell.isVisible <$> cellAt g r c = Cell.isVisible <$> cellAt g' r c.

(** * Verification *)

(** ** Reading and writing the cell matrix *)

Lemma cellExists_cellAt (g : Grid) (r c : Z) :
  cellExists g r c =
  match cellAt g r c with Some cell => Cell.isVisible cell | None => false end.
Proof.
  unfold cellExists, cellAt.
  destruct (0 <=? r) eqn:Hr; simpl; [|reflexivity].
  destruct (r <? Z.of_nat (length g)) eqn:Hr'; simpl.
  - destruct (g !! Z.to_nat r) as [rw|] eqn:Hg; simpl.
    + destruct (0 <=? c) eqn:Hc; simpl; [|reflexivity].
      destruct (c <? Z.of_nat (length rw)) eqn:Hc'; simpl; [reflexivity|].
      rewrite (proj2 (lookup_ge_None rw (Z.to_nat c))); [|lia].
      reflexivity.
    + destruct (0 <=? c); reflexivity.
  - rewrite (proj2 (lookup_ge_None g (Z.to_nat r))); [|lia].
    destruct (0 <=? c); reflexivity.
Qed.

Lemma getCell_Some (g : Grid) (r c : Z) (cell : Cell.t) :
  getCell g r c = Some cell ↔
  cellAt g r c = Some cell ∧ Cell.isVisible cell = true.
Proof.
  unfold getCell. rewrite cellExists_cellAt.
  destruct (cellAt g r c) as [x|]; [|split; [discriminate|intros [? _]; discriminate]].
  destruct (Cell.isVisible x) eqn:Hv; split.
  - intros [= <-]. auto.
  - intros [H _]. exact H.
  - discriminate.
  - intros [[= <-] H]. congruence.
Qed.

Lemma getCell_None (g : Grid) (r c : Z) :
  getCell g r c = None ↔
  ∀ cell, cellAt g r c = Some cell → Cell.isVisible cell = false.
Proof.
  unfold getCell. rewrite cellExists_cellAt.
  destruct (cellAt g r c) as [x|]; [|split; [discriminate|reflexivity]].
  destruct (Cell.isVisible x) eqn:Hv; split.
  - discriminate.
  - intros H. specialize (H x eq_refl). congruence.
  - intros _ cell [= <-]. exact Hv.
  - reflexivity.
Qed.

Lemma cellAt_bounds (g : Grid) (r c : Z) (cell : Cell.t) :
  cellAt g r c = Some cell → 0 <= r ∧ 0 <= c.
Proof.
  unfold cellAt. destruct (0 <=? r) eqn:Hr; destruct (0 <=? c) eqn:Hc;
    simpl; try discriminate. lia.
Qed.

Lemma cellAt_updCell (f : Cell.t → Cell.t) (g : Grid) (r c r' c' : Z) :
  cellAt (updCell f r c g) r' c' =
  if decide (r = r' ∧ c = c') then f <$> cellAt g r' c' else cellAt g r' c'.
Proof.
  unfold updCell, cellAt.
  destruct (0 <=? r) eqn:Hr; destruct (0 <=? c) eqn:Hc; simpl;
    try (destruct (decide _) as [[-> ->]|]; [rewrite ?Hr, ?Hc; simpl|];
         try reflexivity; rewrite ?andb_false_r; reflexivity).
  destruct (0 <=? r') eqn:Hr'; destruct (0 <=? c') eqn:Hc'; simpl;
    try (destruct (decide _); reflexivity).
  destruct (decide (r = r' ∧ c = c')) as [[-> ->]|Hne].
  - rewrite list_lookup_alter_eq.
    destruct (g !! Z.to_nat r') as [rw|]; simpl; [|reflexivity].
    apply list_lookup_alter_eq.
  - destruct (decide (Z.to_nat r = Z.to_nat r')) as [Heq|Hn].
    + rewrite Heq, list_lookup_alter_eq.
      destruct (g !! Z.to_nat r') as [rw|]; simpl; [|reflexivity].
      apply list_lookup_alter_ne. intros Hcc. apply Hne. lia.
    + rewrite list_lookup_alter_ne by exact Hn. reflexivity.
Qed.

Lemma cellAt_clear (g : Grid) (r c : Z) :
  cellAt (map (map (Cell.setHighlighted false)) g) r c =
  Cell.setHighlighted false <$> cellAt g r c.
Proof.
  unfold cellAt. destruct ((0 <=? r) && (0 <=? c)); [|reflexivity].
  change (map (map (Cell.setHighlighted false)) g)
    with (fmap (M:=list) (fmap (M:=list) (Cell.setHighlighted false)) g).
  rewrite list_lookup_fmap.
  destruct (g !! Z.to_nat r) as [rw|]; simpl; [|reflexivity].
  apply list_lookup_fmap.
Qed.

Lemma cellAt_initialize (cfg : list (list Z)) (s : MapState) (r c : Z)
    (cell : Cell.t) :
  cellAt (cells (initializeCellStates cfg s)) r c = Some cell →
  Cell.rowIndex cell = r ∧ Cell.cellIndex cell = c ∧ Cell.unit cell = None
  ∧ Cell.isActive cell = false ∧ Cell.isHighlighted cell = false.
Proof.
  unfold cellAt, initializeCellStates; simpl.
  destruct (0 <=? r) eqn:Hr; destruct (0 <=? c) eqn:Hc; simpl;
    try discriminate.
  rewrite list_lookup_imap.
  destruct (cfg !! Z.to_nat r) as [rw|]; simpl; [|discriminate].
  rewrite list_lookup_imap.
  destruct (rw !! Z.to_nat c) as [v|]; simpl; [|discriminate].
  intros [= <-]. simpl. repeat split; lia.
Qed.

Lemma inBounds_cellAt (g : Grid) (r c : Z) :
  inBounds g r c = true ↔ is_Some (cellAt g r c).
Proof.
  unfold inBounds, cellAt.
  destruct (0 <=? r) eqn:Hr; simpl;
    [|split; [discriminate|intros [? ?]; discriminate]].
  destruct (g !! Z.to_nat r) as [rw|] eqn:Hg; simpl.
  - apply lookup_lt_Some in Hg.
    destruct (0 <=? c) eqn:Hc; simpl.
    + rewrite lookup_lt_is_Some.
      destruct (r <? Z.of_nat (length g)) eqn:Hr'; [|lia]. simpl.
      rewrite Z.ltb_lt. lia.
    + rewrite andb_false_r. split; [discriminate|intros [? ?]; discriminate].
  - rewrite andb_false_r.
    destruct (0 <=? c); simpl;
      split; try discriminate; intros [? ?]; discriminate.
Qed.

Lemma inBounds_false_cellAt (g : Grid) (r c : Z) :
  inBounds g r c = false ↔ cellAt g r c = None.
Proof.
  rewrite <- not_true_iff_false, inBounds_cellAt, eq_None_not_Some.
  reflexivity.
Qed.

(** ** Grid lookups (C9) *)

(** C9, counterexample: in the matrix built from the mask [[0]] the place
    (0,0) is within bounds and stores a cell object, yet [getCell 0 0]
    returns null, because the cell is invisible. *)
Lemma C9_getCell_in_bounds_counterexample :
  inBounds (gridOf [[0]]) 0 0 = true
  ∧ is_Some (cellAt (gridOf [[0]]) 0 0)
  ∧ getCell (gridOf [[0]]) 0 0 = None.
Proof. repeat split. eexists; reflexivity. Qed.

(** C9, amended: [getCell row col] returns the cell stored at (row, col)
    exactly when (row, col) is within bounds and that cell is visible; it
    returns null exactly when (row, col) is out of bounds or the cell there
    is invisible; outside the bounds [cellExists] is false. *)
Theorem C9_getCell_visible_in_bounds (g : Grid) (r c : Z) :
  (∀ cell, getCell g r c = Some cell ↔
     inBounds g r c = true ∧ cellAt g r c = Some cell
     ∧ Cell.isVisible cell = true)
  ∧ (getCell g r c = None ↔
     inBounds g r c = false
     ∨ ∃ cell, cellAt g r c = Some cell ∧ Cell.isVisible cell = false)
  ∧ (inBounds g r c = false ↔ cellAt g r c = None)
  ∧ (inBounds g r c = false → cellExists g r c = false).
Proof.
  split; [|split; [|split]].
  - intros cell. rewrite getCell_Some, inBounds_cellAt. split.
    + intros [H1 H2]. split; [rewrite H1; eauto|auto].
    + intros (_ & H1 & H2). auto.
  - rewrite getCell_None, inBounds_false_cellAt. split.
    + intros H. destruct (cellAt g r c) as [x|]; [right|left; reflexivity].
      exists x. split; [reflexivity|]. apply H. reflexivity.
    + intros [H|(x & H1 & H2)] cell Hc; [congruence|].
      rewrite H1 in Hc. congruence.
  - apply inBounds_false_cellAt.
  - rewrite inBounds_false_cellAt, cellExists_cellAt. intros ->. reflexivity.
Qed.

(** ** Range query at distance zero (C7) *)

Lemma rangeFuel_pos (g : Grid) : ∃ n, rangeFuel g = S n.
Proof. unfold rangeFuel. exists (7 * length (allKeys g))%nat. lia. Qed.

Lemma rangeLoop_nil (fuel : nat) (g : Grid) (range : Z) (p : Cell.t → bool)
    (visited : list (Z * Z)) (result : list Cell.t) :
  rangeLoop fuel g range p [] visited result = Some result.
Proof. destruct fuel; reflexivity. Qed.

(** C7: with range 0 the query returns exactly the origin cell when it
    exists, is visible and passes the predicate, and nothing otherwise; for
    a negative range, and for an origin that is out of bounds or invisible,
    it returns nothing. *)
Theorem C7_getCellsInRange_zero_and_empty (g : Grid) (r c : Z)
    (p : Cell.t → bool) :
  getCellsInRange g r c 0 p =
    match getCell g r c with
    | Some cell => if p cell then [cell] else []
    | None => []
    end
  ∧ (∀ range, range < 0 → getCellsInRange g r c range p = [])
  ∧ (∀ range, cellExists g r c = false → getCellsInRange g r c range p = []).
Proof.
  split; [|split].
  - unfold getCellsInRange. simpl.
    destruct (cellExists g r c) eqn:He; simpl.
    + destruct (rangeFuel_pos g) as [n ->]. simpl.
      destruct (getCell g r c) as [cell|] eqn:Hg;
        [|rewrite rangeLoop_nil; reflexivity].
      apply getCell_Some in Hg as [_ Hv]. rewrite Hv. simpl.
      destruct (p cell); simpl; rewrite rangeLoop_nil; reflexivity.
    + unfold getCell. rewrite He. reflexivity.
  - intros range Hneg. unfold getCellsInRange.
    destruct (range <? 0) eqn:Hr; [reflexivity|lia].
  - intros range He. unfold getCellsInRange. rewrite He.
    rewrite orb_true_r. reflexivity.
Qed.

(** ** Roster (C8) *)

(** C8, the code at the failing input: adding the same unit twice to the
    empty roster stores its reference twice, and one [removeUnit] then
    leaves it in the roster. *)
Theorem C8_addUnit_twice_duplicates :
  units (addUnit (addUnit (mapState soldiers) (Some 0%nat)).2 (Some 0%nat)).2
    = [0%nat; 0%nat]
  ∧ units
      (removeUnit
         (addUnit (addUnit (mapState soldiers) (Some 0%nat)).2 (Some 0%nat)).2
         (Some 0%nat)).2
    = [0%nat].
Proof. split; reflexivity. Qed.

(** ** Highlighting changes nothing but the [isHighlighted] flags *)

Lemma sameButHighlight_refl (g : Grid) : sameButHighlight g g.
Proof. intros r c. reflexivity. Qed.

Lemma sameButHighlight_trans (g1 g2 g3 : Grid) :
  sameButHighlight g1 g2 → sameButHighlight g2 g3 → sameButHighlight g1 g3.
Proof. intros H1 H2 r c. rewrite H1. apply H2. Qed.

Lemma sameButHighlight_sym (g1 g2 : Grid) :
  sameButHighlight g1 g2 → sameButHighlight g2 g1.
Proof. intros H r c. symmetry. apply H. Qed.

Lemma sameButHighlight_clear (g : Grid) :
  sameButHighlight g (map (map (Cell.setHighlighted false)) g).
Proof.
  intros r c. rewrite cellAt_clear.
  destruct (cellAt g r c); reflexivity.
Qed.

Lemma sameButHighlight_upd (b : bool) (r c : Z) (g : Grid) :
  sameButHighlight g (updCell (Cell.setHighlighted b) r c g).
Proof.
  intros r' c'. rewrite cellAt_updCell.
  destruct (decide _); [|reflexivity].
  destruct (cellAt g r' c'); reflexivity.
Qed.

Lemma sameButHighlight_highlightCells (cs : list Cell.t) (g : Grid) :
  sameButHighlight g (highlightCells cs g).
Proof.
  unfold highlightCells. revert g.
  induction cs as [|cell cs IH]; intros g; simpl.
  - apply sameButHighlight_refl.
  - eapply sameButHighlight_trans; [|apply IH].
    apply sameButHighlight_upd.
Qed.

Lemma sameButHighlight_cellAt (g g' : Grid) (r c : Z) (cell' : Cell.t) :
  sameButHighlight g g' → cellAt g' r c = Some cell' →
  ∃ cell, cellAt g r c = Some cell
    ∧ Cell.rowIndex cell = Cell.rowIndex cell'
    ∧ Cell.cellIndex cell = Cell.cellIndex cell'
    ∧ Cell.isVisible cell = Cell.isVisible cell'
    ∧ Cell.isActive cell = Cell.isActive cell'
    ∧ Cell.unit cell = Cell.unit cell'.
Proof.
  intros H Hc. specialize (H r c). rewrite Hc in H.
  destruct (cellAt g r c) as [cell|]; [|discriminate].
  exists cell. split; [reflexivity|].
  simpl in H. injection H as H1 H2 H3 H4 H5. auto.
Qed.

Lemma sameButHighlight_getCell (g g' : Grid) (r c : Z) (cell' : Cell.t) :
  sameButHighlight g g' → getCell g' r c = Some cell' →
  ∃ cell, getCell g r c = Some cell
    ∧ Cell.rowIndex cell = Cell.rowIndex cell'
    ∧ Cell.cellIndex cell = Cell.cellIndex cell'
    ∧ Cell.isActive cell = Cell.isActive cell'
    ∧ Cell.unit cell = Cell.unit cell'.
Proof.
  intros H Hc. apply getCell_Some in Hc as [Hc Hv].
  destruct (sameButHighlight_cellAt _ _ _ _ _ H Hc)
    as (cell & H1 & H2 & H3 & H4 & H5 & H6).
  exists cell. rewrite getCell_Some. repeat split; auto. congruence.
Qed.

Lemma clearHighlightedCells_frame (s : MapState) :
  ∃ g, clearHighlightedCells s = withCells s g ∧ sameButHighlight (cells s) g.
Proof.
  eexists. split; [reflexivity|]. apply sameButHighlight_clear.
Qed.

Lemma highlightMovementRange_frame (s : MapState) (unit : option UnitRef) :
  ∃ g, highlightMovementRange s unit = withCells s g
       ∧ sameButHighlight (cells s) g.
Proof.
  unfold highlightMovementRange.
  destruct unit as [u|].
  - destruct (Unit.movementRemaining (store s u) <=? 0).
    + exists (cells s). split; [destruct s; reflexivity|].
      apply sameButHighlight_refl.
    + eexists. split; [reflexivity|]. apply sameButHighlight_highlightCells.
  - exists (cells s). split; [destruct s; reflexivity|].
    apply sameButHighlight_refl.
Qed.

(** ** [moveUnit] *)

Lemma moveUnit_true (s : MapState) (u : UnitRef) (r c : Z) (target : Cell.t) :
  getCell (cells s) r c = Some target →
  Cell.unit target = None →
  1 <= Unit.movementRemaining (store s u) →
  ∃ g',
    moveUnit s (Some u) r c =
      (true,
       withCells
         (withStore s (<[u := (Unit.move (store s u) r c 1).2]> (store s))) g')
    ∧ sameButHighlight
        (updCell (Cell.setUnit (Some u)) r c
           (setCellUnit None (row (Unit.position (store s u)))
              (col (Unit.position (store s u))) (cells s)))
        g'.
Proof.
  intros Hget Hunit Hmr. unfold moveUnit. rewrite Hget.
  pose proof (proj1 (getCell_Some _ _ _ _) Hget) as [_ Hv].
  rewrite Hv, Hunit. simpl.
  unfold Unit.move. destruct (1 <=? _) eqn:Hle; [|lia]. simpl.
  match goal with
  | |- context [clearHighlightedCells ?s3] =>
      destruct (clearHighlightedCells_frame s3) as (g4 & E4 & H4);
      rewrite E4
  end.
  simpl in H4.
  match goal with
  | |- context [if ?b then _ else _] => destruct b
  end.
  - match goal with
    | |- context [highlightMovementRange ?s4 ?a] =>
        destruct (highlightMovementRange_frame s4 a) as (g5 & E5 & H5);
        rewrite E5
    end.
    simpl in H5. exists g5. split; [reflexivity|].
    eapply sameButHighlight_trans; eassumption.
  - exists g4. split; [reflexivity|]. exact H4.
Qed.

Lemma moveUnit_succeeds_iff (s : MapState) (unit : option UnitRef) (r c : Z) :
  (moveUnit s unit r c).1 = true ↔
  ∃ u target, unit = Some u
    ∧ getCell (cells s) r c = Some target
    ∧ Cell.unit target = None
    ∧ 1 <= Unit.movementRemaining (store s u).
Proof.
  split.
  - unfold moveUnit. destruct unit as [u|]; [|discriminate].
    destruct (getCell (cells s) r c) as [target|] eqn:Hget; [|discriminate].
    destruct (Cell.isVisible target); simpl; [|discriminate].
    destruct (Cell.unit target) as [v|] eqn:Hu; simpl; [discriminate|].
    unfold Unit.move. destruct (1 <=? _) eqn:Hle; simpl; [|discriminate].
    intros _. exists u, target. repeat split; auto. lia.
  - intros (u & target & -> & Hget & Hu & Hmr).
    destruct (moveUnit_true s u r c target Hget Hu Hmr) as (g' & -> & _).
    reflexivity.
Qed.

Lemma moveUnit_false (s : MapState) (unit : option UnitRef) (r c : Z) :
  (moveUnit s unit r c).1 = false → (moveUnit s unit r c).2 = s.
Proof.
  unfold moveUnit. destruct unit as [u|]; [|reflexivity].
  destruct (getCell (cells s) r c) as [target|]; [|reflexivity].
  destruct (negb (Cell.isVisible target) || _); [reflexivity|].
  unfold Unit.move. destruct (1 <=? _); simpl; [|reflexivity].
  destruct (0 <? _); discriminate.
Qed.

Lemma getCell_updCell (f : Cell.t → Cell.t) (g : Grid) (r c r' c' : Z) :
  (∀ x, Cell.isVisible (f x) = Cell.isVisible x) →
  getCell (updCell f r c g) r' c' =
  if decide (r = r' ∧ c = c') then f <$> getCell g r' c' else getCell g r' c'.
Proof.
  intros Hf. unfold getCell. rewrite !cellExists_cellAt, cellAt_updCell.
  destruct (decide _); [|reflexivity].
  destruct (cellAt g r' c') as [x|]; simpl; [|reflexivity].
  rewrite Hf. destruct (Cell.isVisible x); reflexivity.
Qed.

Lemma getCell_setCellUnit (v : option UnitRef) (g : Grid) (r c r' c' : Z) :
  getCell (setCellUnit v r c g) r' c' =
  if decide (r = r' ∧ c = c')
  then Cell.setUnit v <$> getCell g r' c' else getCell g r' c'.
Proof.
  unfold setCellUnit.
  destruct (getCell g r c) as [x|] eqn:Hg.
  - apply getCell_updCell. reflexivity.
  - destruct (decide _) as [[-> ->]|]; [rewrite Hg|]; reflexivity.
Qed.

(** C10: a unit that is not placed (position (-1,-1)) and has at least one
    movement point left is moved by [moveUnit] onto any existing, visible,
    unoccupied cell: the call succeeds, the unit's position becomes (r, c),
    the cell refers to the unit, and [movementRemaining] drops by 1. *)
Theorem C10_moveUnit_introduces_unplaced_unit
    (s : MapState) (u : UnitRef) (r c : Z) (cell : Cell.t) :
  Unit.position (store s u) = {| row := -1; col := -1 |} →
  1 <= Unit.movementRemaining (store s u) →
  getCell (cells s) r c = Some cell →
  Cell.unit cell = None →
  (moveUnit s (Some u) r c).1 = true
  ∧ Unit.position (store (moveUnit s (Some u) r c).2 u)
    = {| row := r; col := c |}
  ∧ Unit.movementRemaining (store (moveUnit s (Some u) r c).2 u)
    = Unit.movementRemaining (store s u) - 1
  ∧ ∃ cell', getCell (cells (moveUnit s (Some u) r c).2) r c = Some cell'
      ∧ Cell.unit cell' = Some u.
Proof.
  intros Hpos Hmr Hget Hunit.
  destruct (moveUnit_true s u r c cell Hget Hunit Hmr) as (g' & -> & Hsame).
  simpl. rewrite fn_lookup_insert.
  unfold Unit.move. destruct (1 <=? _) eqn:Hle; [|lia]. simpl.
  repeat split.
  apply sameButHighlight_sym in Hsame.
  destruct (sameButHighlight_getCell _ _ r c (Cell.setUnit (Some u) cell) Hsame)
    as (cell' & Hc' & _ & _ & _ & Hu').
  - rewrite getCell_updCell by reflexivity.
    rewrite decide_True by auto.
    rewrite getCell_setCellUnit, Hpos. simpl.
    destruct (decide _) as [[<- <-]|]; rewrite Hget; [|reflexivity].
    simpl. destruct cell; simpl in *. rewrite Hunit. reflexivity.
  - exists cell'. split; [exact Hc'|]. rewrite Hu'. reflexivity.
Qed.

Lemma C10_moveUnit_introduces_unplaced_unit_witness :
  (moveUnit (initializeCellStates [[1]] (mapState soldiers)) (Some 0%nat) 0 0).1
  = true.
Proof.
  refine (proj1 (C10_moveUnit_introduces_unplaced_unit
    (initializeCellStates [[1]] (mapState soldiers)) 0%nat 0 0
    {| Cell.rowIndex := 0; Cell.cellIndex := 0; Cell.isVisible := true;
       Cell.isActive := false; Cell.isHighlighted := false;
       Cell.unit := None |} _ _ _ _)).
  - reflexivity.
  - simpl. lia.
  - reflexivity.
  - reflexivity.
Defined.

Lemma withinMovementRange_needs_point (s : MapState) (u : UnitRef) (r c : Z) :
  gridWf (cells s) →
  withinMovementRange s u r c = true →
  ¬ (row (Unit.position (store s u)) = r
     ∧ col (Unit.position (store s u)) = c) →
  1 <= Unit.movementRemaining (store s u).
Proof.
  intros Hwf Hin Hne. unfold withinMovementRange in Hin.
  apply existsb_exists in Hin as (x & Hx & Hrc).
  apply andb_prop in Hrc as [Hr Hc].
  apply Z.eqb_eq in Hr. apply Z.eqb_eq in Hc.
  set (pr := row (Unit.position (store s u))) in *.
  set (pc := col (Unit.position (store s u))) in *.
  destruct (Z_lt_le_dec (Unit.movementRemaining (store s u)) 1) as [Hlt|];
    [exfalso|assumption].
  destruct (Z_lt_le_dec (Unit.movementRemaining (store s u)) 0) as [Hneg|Hnn].
  - unfold getCellsInRange in Hx.
    destruct (_ <? 0) eqn:E; [inversion Hx|lia].
  - replace (Unit.movementRemaining (store s u)) with 0 in Hx by lia.
    unfold getCellsInRange in Hx. simpl in Hx.
    destruct (cellExists (cells s) pr pc); simpl in Hx; [|inversion Hx].
    unfold rangeFuel in Hx.
    replace (7 * length (allKeys (cells s)) + 1)%nat
      with (S (7 * length (allKeys (cells s)))) in Hx by lia.
    simpl in Hx.
    destruct (getCell (cells s) pr pc) as [origin|] eqn:Hg;
      [|rewrite rangeLoop_nil in Hx; inversion Hx].
    pose proof (proj1 (getCell_Some _ _ _ _) Hg) as [Hat _].
    destruct (Hwf _ _ _ Hat) as [Hor Hoc].
    destruct (negb (Cell.isVisible origin) || negb (emptyOrSelf u origin));
      simpl in Hx; rewrite rangeLoop_nil in Hx;
      [inversion Hx|].
    destruct Hx as [<-|[]]. apply Hne. split; congruence.
Qed.

(** C1, counterexample: a soldier with two movement points stands at (0,0)
    of a row of four visible cells.  The cell (0,3) is three hexes away and
    not within movement range, yet [moveUnit] succeeds, and the move costs
    one movement point, not three. *)
Lemma C1_moveUnit_ignores_distance_counterexample :
  (moveUnit rowOfFour (Some 0%nat) 0 3).1 = true
  ∧ specMoveAllowed rowOfFour 0%nat 0 3 = false
  ∧ Unit.movementRemaining (store rowOfFour 0%nat) = 2
  ∧ Unit.movementRemaining (store (moveUnit rowOfFour (Some 0%nat) 0 3).2 0%nat)
    = 1.
Proof. repeat split; vm_compute; reflexivity. Qed.

(** C1, amended: [moveUnit u r c] succeeds if and only if [u] is not null,
    the cell (r, c) exists, is visible and unoccupied, and [u] has at least
    one movement point left (the distance to the cell is not examined).  On
    success [u.movementRemaining] decreases by exactly 1, [u.position]
    becomes (r, c), the target cell refers to [u], and the cell at the
    former position of [u], when it exists and is not the target, refers to
    no unit.  In particular the call succeeds for every visible, unoccupied
    cell, other than the position of [u], that is within
    [u.movementRemaining] of that position under the empty-or-self
    predicate. *)
Theorem C1_moveUnit_succeeds_iff_free_cell_and_one_point
    (s : MapState) (unit : option UnitRef) (r c : Z) :
  ((moveUnit s unit r c).1 = true ↔
   ∃ u target, unit = Some u
     ∧ getCell (cells s) r c = Some target
     ∧ Cell.unit target = None
     ∧ 1 <= Unit.movementRemaining (store s u))
  ∧ (∀ u, unit = Some u → (moveUnit s unit r c).1 = true →
      Unit.movementRemaining (store (moveUnit s unit r c).2 u)
      = Unit.movementRemaining (store s u) - 1
      ∧ Unit.position (store (moveUnit s unit r c).2 u)
        = {| row := r; col := c |}
      ∧ (∃ cell', getCell (cells (moveUnit s unit r c).2) r c = Some cell'
           ∧ Cell.unit cell' = Some u)
      ∧ ∀ old,
          getCell (cells s) (row (Unit.position (store s u)))
            (col (Unit.position (store s u))) = Some old →
          ¬ (row (Unit.position (store s u)) = r
             ∧ col (Unit.position (store s u)) = c) →
          ∃ old',
            getCell (cells (moveUnit s unit r c).2)
              (row (Unit.position (store s u)))
              (col (Unit.position (store s u))) = Some old'
            ∧ Cell.unit old' = None)
  ∧ ∀ u, unit = Some u →
      gridWf (cells s) →
      specMoveAllowed s u r c = true →
      ¬ (row (Unit.position (store s u)) = r
         ∧ col (Unit.position (store s u)) = c) →
      (moveUnit s unit r c).1 = true.
Proof.
  split; [apply moveUnit_succeeds_iff|].
  split.
  2: {
    intros u -> Hwf Hspec Hne. apply moveUnit_succeeds_iff.
    unfold specMoveAllowed in Hspec.
    destruct (cellAt (cells s) r c) as [cell|] eqn:Hat; [|discriminate].
    apply andb_prop in Hspec as [Hspec Hin].
    apply andb_prop in Hspec as [Hv Hu].
    exists u, cell. split; [reflexivity|].
    split; [apply getCell_Some; auto|].
    split.
    - destruct (Cell.unit cell) as [v|]; [|reflexivity].
      rewrite bool_decide_eq_true_2 in Hu by eauto. discriminate.
    - eapply withinMovementRange_needs_point; eassumption. }
  intros u -> Hok.
  apply moveUnit_succeeds_iff in Hok
    as (u' & target & [= <-] & Hget & Hunit & Hmr).
  destruct (moveUnit_true s u r c target Hget Hunit Hmr) as (g' & -> & Hsame).
  simpl. rewrite fn_lookup_insert.
  unfold Unit.move. destruct (1 <=? _) eqn:Hle; [|lia]. simpl.
  apply sameButHighlight_sym in Hsame.
  set (pr := row (Unit.position (store s u))) in *.
  set (pc := col (Unit.position (store s u))) in *.
  repeat split.
  - destruct (sameButHighlight_getCell _ _ r c
                (Cell.setUnit (Some u) target) Hsame)
      as (cell' & Hc' & _ & _ & _ & Hu').
    + rewrite getCell_updCell by reflexivity.
      rewrite decide_True by auto.
      rewrite getCell_setCellUnit.
      destruct (decide _); rewrite Hget; reflexivity.
    + exists cell'. split; [exact Hc'|]. rewrite Hu'. reflexivity.
  - intros old Hold Hne.
    destruct (sameButHighlight_getCell _ _ pr pc
                (Cell.setUnit None old) Hsame)
      as (old' & Hc' & _ & _ & _ & Hu').
    + rewrite getCell_updCell by reflexivity.
      rewrite decide_False by (intros [? ?]; apply Hne; auto).
      rewrite getCell_setCellUnit, decide_True by auto.
      rewrite Hold. reflexivity.
    + exists old'. split; [exact Hc'|]. rewrite Hu'. reflexivity.
Qed.

(** ** Input during the AI turn (C6) *)

(** C6, counterexample: after the player has ended the turn it is the AI's
    turn, and [moveUnit] still succeeds and moves the player's soldier. *)
Lemma C6_moveUnit_during_ai_turn_counterexample :
  currentTurn rowOfFourAITurn = TurnAI
  ∧ (moveUnit rowOfFourAITurn (Some 0%nat) 0 1).1 = true
  ∧ Unit.position (store rowOfFourAITurn 0%nat) = {| row := 0; col := 0 |}
  ∧ Unit.position (store (moveUnit rowOfFourAITurn (Some 0%nat) 0 1).2 0%nat)
    = {| row := 0; col := 1 |}.
Proof. repeat split; vm_compute; reflexivity. Qed.

(** C6, amended: [moveUnit] does not consult [currentTurn]: whether it
    succeeds is the same whichever side's turn it is.  Input is rejected
    during the AI's turn by the click handler: while [currentTurn] is 'ai',
    [handleClick] returns without changing any state, so no move, selection
    or toggle is performed from a click. *)
Theorem C6_handleClick_rejected_during_ai_turn :
  (∀ s isDragging hasMoved beyondThreshold hit,
     currentTurn s = TurnAI →
     handleClick s isDragging hasMoved beyondThreshold hit = s)
  ∧ (∀ s t unit r c,
       (moveUnit (withCurrentTurn s t) unit r c).1 = (moveUnit s unit r c).1).
Proof.
  split.
  - intros s d m b hit Hai. unfold handleClick. rewrite Hai.
    destruct (d || m); reflexivity.
  - intros s t unit r c.
    apply eq_true_iff_eq. rewrite !moveUnit_succeeds_iff. reflexivity.
Qed.

(** ** Turn switching (C4) *)

Lemma resetTurn_fold (t : Turn) (us : list UnitRef) (st : UnitRef → Unit.t)
    (u : UnitRef) :
  fold_left
    (λ st' x,
       if ownerIsTurn (Unit.owner (st' x)) t
       then alter Unit.resetTurn x st' else st')
    us st u
  = if bool_decide (u ∈ us) && ownerIsTurn (Unit.owner (st u)) t
    then Unit.resetTurn (st u) else st u.
Proof.
  revert st. induction us as [|x us IH]; intros st; simpl.
  - reflexivity.
  - rewrite IH. clear IH.
    destruct (decide (x = u)) as [->|Hne].
    + rewrite (bool_decide_eq_true_2 (u ∈ u :: us)) by left. simpl.
      destruct (ownerIsTurn (Unit.owner (st u)) t) eqn:Ho.
      * rewrite fn_lookup_alter. simpl. rewrite Ho.
        destruct (bool_decide (u ∈ us)); reflexivity.
      * rewrite Ho. rewrite andb_false_r. reflexivity.
    + assert (Hin : bool_decide (u ∈ x :: us) = bool_decide (u ∈ us)).
      { apply bool_decide_ext. rewrite elem_of_cons.
        split; [intros [->|?]; [congruence|assumption]|auto]. }
      rewrite Hin.
      destruct (ownerIsTurn (Unit.owner (st x)) t); [|reflexivity].
      rewrite fn_lookup_alter_ne by exact Hne. reflexivity.
Qed.

(** C4: [endTurn] flips [currentTurn] once; afterwards every roster unit
    owned by the side whose turn begins has [movementRemaining] equal to
    [movement] and [hasAttacked] false (it is the unit reset by
    [resetTurn]), and every roster unit owned by another side is
    unchanged.  The roster itself is unchanged, and the AI callback is
    scheduled exactly when the new turn is the AI's. *)
Theorem C4_endTurn_flips_turn_and_resets_new_side (s : MapState) :
  currentTurn (endTurn s).1 = flipTurn (currentTurn s)
  ∧ currentTurn (endTurn s).1 ≠ currentTurn s
  ∧ units (endTurn s).1 = units s
  ∧ ((endTurn s).2 = true ↔ currentTurn (endTurn s).1 = TurnAI)
  ∧ ∀ u, u ∈ units s →
      (ownerIsTurn (Unit.owner (store s u)) (currentTurn (endTurn s).1) = true →
         store (endTurn s).1 u = Unit.resetTurn (store s u)
         ∧ Unit.movementRemaining (store (endTurn s).1 u)
           = Unit.movement (store (endTurn s).1 u)
         ∧ Unit.hasAttacked (store (endTurn s).1 u) = false
         ∧ Unit.owner (store (endTurn s).1 u) = Unit.owner (store s u))
      ∧ (ownerIsTurn (Unit.owner (store s u)) (currentTurn (endTurn s).1)
         = false →
         store (endTurn s).1 u = store s u).
Proof.
  unfold endTurn. simpl.
  split; [reflexivity|].
  split; [destruct (currentTurn s); discriminate|].
  split; [reflexivity|].
  split; [destruct (currentTurn s); simpl; split; congruence|].
  intros u Hin. rewrite resetTurn_fold.
  rewrite (bool_decide_eq_true_2 _ Hin). simpl.
  split; intros ->; [|reflexivity].
  repeat split.
Qed.

(** ** Failure leaves the state unchanged (C5) *)

Lemma placeUnit_false (s : MapState) (u : UnitRef) (r c : Z) :
  (placeUnit s u r c).1 = false → (placeUnit s u r c).2 = s.
Proof.
  unfold placeUnit.
  destruct (getCell (cells s) r c) as [cell|]; [|reflexivity].
  destruct (Cell.isVisible cell && _); [discriminate|reflexivity].
Qed.

Lemma removeUnit_false (s : MapState) (unit : option UnitRef) :
  (removeUnit s unit).1 = false → (removeUnit s unit).2 = s.
Proof.
  unfold removeUnit. destruct unit as [u|]; [|reflexivity].
  destruct (negb (indexOf u (units s) =? -1)); [discriminate|reflexivity].
Qed.

Lemma toggleCellState_no_cell (s : MapState) (r c : Z) :
  getCell (cells s) r c = None → toggleCellState s r c = (false, s).
Proof.
  intros Hg. unfold toggleCellState.
  destruct ((0 <=? r) && (r <? Z.of_nat (length (cells s)))) eqn:Hr;
    [|reflexivity].
  destruct (cells s !! Z.to_nat r) as [rw|] eqn:Hrow; [|reflexivity].
  destruct ((0 <=? c) && (c <? Z.of_nat (length rw))) eqn:Hc; [|reflexivity].
  destruct (rw !! Z.to_nat c) as [cell|] eqn:Hcell; [|reflexivity].
  destruct (Cell.isVisible cell) eqn:Hv; [|reflexivity].
  exfalso. rewrite getCell_None in Hg.
  specialize (Hg cell). rewrite Hv in Hg. enough (false = true) by discriminate.
  symmetry. apply Hg. unfold cellAt.
  apply andb_prop in Hr as [Hr _]. apply andb_prop in Hc as [Hc _].
  rewrite Hr, Hc. simpl. rewrite Hrow. simpl. exact Hcell.
Qed.

Lemma toggleCellState_false (s : MapState) (r c : Z) :
  (toggleCellState s r c).1 = false →
  (toggleCellState s r c).2 = s
  ∨ ∃ cell, getCell (cells s) r c = Some cell ∧ Cell.isActive cell = true
      ∧ (toggleCellState s r c).2
        = withCells s (updCell (Cell.setActive false) r c (cells s)).
Proof.
  destruct (getCell (cells s) r c) as [cell|] eqn:Hg.
  - apply getCell_Some in Hg as [Hat Hv].
    pose proof Hat as Hat'. unfold cellAt in Hat'. unfold toggleCellState.
    destruct (0 <=? r) eqn:Hr; [|discriminate].
    destruct (0 <=? c) eqn:Hc; [|discriminate]. simpl in *.
    destruct (cells s !! Z.to_nat r) as [rw|] eqn:Hrow; [|discriminate].
    simpl in Hat'.
    apply lookup_lt_Some in Hrow. pose proof (lookup_lt_Some _ _ _ Hat').
    destruct (r <? Z.of_nat (length (cells s))) eqn:Hr'; [|lia].
    destruct (c <? Z.of_nat (length rw)) eqn:Hc'; [|lia].
    rewrite Hat', Hv. simpl.
    destruct (Cell.isActive cell) eqn:Ha; [|discriminate].
    intros _. right. exists cell. repeat split; auto.
  - intros _. left. rewrite toggleCellState_no_cell by exact Hg. reflexivity.
Qed.

(** C5, counterexample: [toggleCellState] on a visible active cell returns
    false (the new value of [isActive]) and has changed the cell; and
    [performAttack] on a unit of attack strength 0 returns 0 and has set
    [hasAttacked]. *)
Lemma C5_false_result_after_mutation_counterexample :
  ((toggleCellState oneActiveCell 0 0).1 = false
   ∧ cells (toggleCellState oneActiveCell 0 0).2 ≠ cells oneActiveCell)
  ∧ ((Unit.performAttack harmless).1 = 0
     ∧ (Unit.performAttack harmless).2 ≠ harmless).
Proof. repeat split; vm_compute; discriminate. Qed.

(** C5, amended: whenever [placeUnit], [moveUnit], [removeUnit] or
    [Unit.move] returns false, the whole state (cells, units, roster,
    selection, turn) is exactly as before the call; [performAttack] leaves
    the unit as it was whenever it returns 0 on a unit whose attack strength
    is not 0; [toggleCellState] returns false and leaves the state as it was
    when the cell does not exist or is invisible, and otherwise a false
    result is the new [isActive] value of a visible cell that was active and
    has been deactivated. *)
Theorem C5_failure_leaves_state_unchanged :
  (∀ s u r c, (placeUnit s u r c).1 = false → (placeUnit s u r c).2 = s)
  ∧ (∀ s unit r c,
       (moveUnit s unit r c).1 = false → (moveUnit s unit r c).2 = s)
  ∧ (∀ s unit, (removeUnit s unit).1 = false → (removeUnit s unit).2 = s)
  ∧ (∀ u r c cost,
       (Unit.move u r c cost).1 = false → (Unit.move u r c cost).2 = u)
  ∧ (∀ u, (Unit.performAttack u).1 = 0 → Unit.attack u ≠ 0 →
       (Unit.performAttack u).2 = u)
  ∧ (∀ s r c,
       getCell (cells s) r c = None → toggleCellState s r c = (false, s))
  ∧ (∀ s r c, (toggleCellState s r c).1 = false →
       (toggleCellState s r c).2 = s
       ∨ ∃ cell, getCell (cells s) r c = Some cell
           ∧ Cell.isActive cell = true
           ∧ (toggleCellState s r c).2
             = withCells s (updCell (Cell.setActive false) r c (cells s))).
Proof.
  split; [exact placeUnit_false|].
  split; [exact moveUnit_false|].
  split; [exact removeUnit_false|].
  split.
  { intros u r c cost. unfold Unit.move.
    destruct (cost <=? _); [discriminate|reflexivity]. }
  split.
  { intros u. unfold Unit.performAttack.
    destruct (Unit.canAttack u); simpl; [congruence|reflexivity]. }
  split; [exact toggleCellState_no_cell|exact toggleCellState_false].
Qed.

(** ** The flood fill (C3) *)

Section RangeLoop.

Variable g : Grid.
Variable p : Cell.t → bool.
Variables r0 c0 range : Z.

Lemma queueOk_tail (x : Z * Z * Z) (queue : list (Z * Z * Z)) :
  queueOk g p r0 c0 range (x :: queue) → queueOk g p r0 c0 range queue.
Proof. intros H r c d Hin. apply H. apply elem_of_cons. auto. Qed.

Lemma queueOk_head_reach (r c d : Z) (queue : list (Z * Z * Z)) :
  queueOk g p r0 c0 range ((r, c, d) :: queue) →
  admissible g p r c →
  0 <= d <= range ∧ reach g p r0 c0 d r c.
Proof.
  intros H Hadm.
  destruct (H r c d) as [Hd [(-> & -> & ->)|(d' & r' & c' & -> & Hr & Hn)]].
  - apply elem_of_cons. auto.
  - split; [exact Hd|]. apply reach_origin. exact Hadm.
  - split; [exact Hd|]. eapply reach_step; eassumption.
Qed.

Lemma queueOk_spread (r c d : Z) (queue : list (Z * Z * Z)) :
  queueOk g p r0 c0 range queue →
  0 <= d → d < range → reach g p r0 c0 d r c →
  queueOk g p r0 c0 range
    (queue ++ map (λ n, (n.1, n.2, d + 1)) (neighbors r c)).
Proof.
  intros H Hd0 Hd Hr r' c' d' Hin.
  apply elem_of_app in Hin as [Hin|Hin]; [apply H; exact Hin|].
  apply list_elem_of_In, in_map_iff in Hin as ([nr nc] & [= <- <- <-] & Hn).
  apply list_elem_of_In in Hn. simpl.
  split; [lia|]. right. exists d, r, c. auto.
Qed.

Lemma rangeLoop_sound (fuel : nat) :
  ∀ queue visited result res,
    queueOk g p r0 c0 range queue →
    resultOk g p r0 c0 range result →
    rangeLoop fuel g range p queue visited result = Some res →
    resultOk g p r0 c0 range res.
Proof.
  induction fuel as [|fuel IH]; intros queue visited result res Hq Hres.
  - destruct queue as [|[[r c] d] queue]; simpl; [|discriminate].
    intros [= <-]. exact Hres.
  - destruct queue as [|[[r c] d] queue]; simpl.
    { intros [= <-]. exact Hres. }
    pose proof (queueOk_tail _ _ Hq) as Hq'.
    destruct (getCell g r c) as [cell|] eqn:Hg; [|apply IH; assumption].
    destruct (negb (Cell.isVisible cell) || negb (p cell)) eqn:Hskip;
      [apply IH; assumption|].
    destruct (visitedHas (r, c) visited); [apply IH; assumption|].
    apply orb_false_elim in Hskip as [_ Hp].
    apply negb_false_iff in Hp.
    destruct (queueOk_head_reach r c d queue Hq) as [Hd Hreach].
    { exists cell. auto. }
    assert (Hres' : resultOk g p r0 c0 range (result ++ [cell])).
    { intros x Hx. apply elem_of_app in Hx as [Hx|Hx]; [apply Hres; exact Hx|].
      apply list_elem_of_singleton in Hx as ->.
      exists r, c, d. auto. }
    destruct (range <=? d) eqn:Hrd.
    + apply IH; assumption.
    + apply IH; [|assumption].
      apply queueOk_spread; [assumption|lia|lia|assumption].
Qed.

Lemma rangeLoop_keys (fuel : nat) :
  gridWf g →
  ∀ queue visited result res,
    NoDup visited →
    cellKey <$> result = reverse visited →
    rangeLoop fuel g range p queue visited result = Some res →
    NoDup (cellKey <$> res).
Proof.
  intros Hwf.
  induction fuel as [|fuel IH]; intros queue visited result res Hnd Hkeys.
  - destruct queue as [|[[r c] d] queue]; simpl; [|discriminate].
    intros [= <-]. rewrite Hkeys, reverse_Permutation. exact Hnd.
  - destruct queue as [|[[r c] d] queue]; simpl.
    { intros [= <-]. rewrite Hkeys, reverse_Permutation. exact Hnd. }
    destruct (getCell g r c) as [cell|] eqn:Hg; [|apply IH; assumption].
    destruct (negb (Cell.isVisible cell) || negb (p cell));
      [apply IH; assumption|].
    destruct (visitedHas (r, c) visited) eqn:Hvis; [apply IH; assumption|].
    apply bool_decide_eq_false in Hvis.
    apply getCell_Some in Hg as [Hat _].
    destruct (Hwf r c cell Hat) as [Hri Hci].
    assert (Hnd' : NoDup ((r, c) :: visited)).
    { apply NoDup_cons_2; assumption. }
    assert (Hkeys' : cellKey <$> result ++ [cell] = reverse ((r, c) :: visited)).
    { rewrite fmap_app, reverse_cons, Hkeys. simpl.
      unfold cellKey. rewrite Hri, Hci. reflexivity. }
    destruct (range <=? d); apply IH; assumption.
Qed.

Lemma visitedHas_cons (k x : Z * Z) (visited : list (Z * Z)) :
  visitedHas x (k :: visited) = bool_decide (x = k) || visitedHas x visited.
Proof.
  unfold visitedHas.
  destruct (bool_decide (x = k)) eqn:E1; simpl.
  - apply bool_decide_eq_true in E1 as ->.
    apply bool_decide_eq_true. apply elem_of_cons. auto.
  - apply bool_decide_eq_false in E1.
    apply bool_decide_ext. rewrite elem_of_cons.
    split; [intros [?|?]; [contradiction|assumption]|auto].
Qed.

Lemma filter_visit_le (k : Z * Z) (visited l : list (Z * Z)) :
  (length (List.filter (λ x, negb (visitedHas x (k :: visited))) l)
   ≤ length (List.filter (λ x, negb (visitedHas x visited)) l))%nat.
Proof.
  induction l as [|x l IH]; simpl; [lia|].
  rewrite visitedHas_cons.
  destruct (bool_decide (x = k)); destruct (visitedHas x visited); simpl; lia.
Qed.

Lemma filter_visit_lt (k : Z * Z) (visited l : list (Z * Z)) :
  k ∈ l → visitedHas k visited = false →
  (length (List.filter (λ x, negb (visitedHas x (k :: visited))) l)
   < length (List.filter (λ x, negb (visitedHas x visited)) l))%nat.
Proof.
  intros Hin Hk. induction l as [|x l IH]; [inversion Hin|].
  simpl. rewrite visitedHas_cons.
  apply elem_of_cons in Hin as [<-|Hin].
  - rewrite bool_decide_eq_true_2 by reflexivity. rewrite Hk. simpl.
    pose proof (filter_visit_le k visited l). lia.
  - specialize (IH Hin).
    destruct (bool_decide (x = k)); destruct (visitedHas x visited);
      simpl; lia.
Qed.

Lemma cellAt_allKeys (r c : Z) (cell : Cell.t) :
  cellAt g r c = Some cell → (r, c) ∈ allKeys g.
Proof.
  intros Hat. destruct (cellAt_bounds _ _ _ _ Hat) as [Hr Hc].
  unfold cellAt in Hat.
  destruct (0 <=? r) eqn:Er; [|lia]. destruct (0 <=? c) eqn:Ec; [|lia].
  simpl in Hat.
  destruct (g !! Z.to_nat r) as [rw|] eqn:Hrow; [|discriminate].
  simpl in Hat.
  unfold allKeys. apply list_elem_of_In, in_concat.
  exists (imap (λ j _, (Z.of_nat (Z.to_nat r), Z.of_nat j)) rw). split.
  - apply list_elem_of_In.
    apply (elem_of_lookup_imap_2
             (λ i rw', imap (λ j _, (Z.of_nat i, Z.of_nat j)) rw')
             g rw (Z.to_nat r)).
    exact Hrow.
  - apply list_elem_of_In.
    replace (r, c) with (Z.of_nat (Z.to_nat r), Z.of_nat (Z.to_nat c))
      by (f_equal; lia).
    apply (elem_of_lookup_imap_2
             (λ j _, (Z.of_nat (Z.to_nat r), Z.of_nat j))
             rw cell (Z.to_nat c)).
    exact Hat.
Qed.

(** The loop empties its queue within the fuel: a dequeued triple either is
    dropped or marks a cell visited for the first time and enqueues six. *)
Lemma rangeLoop_terminates (fuel : nat) :
  ∀ queue visited result,
    (length queue + 7 * length (unvisited g visited) ≤ fuel)%nat →
    is_Some (rangeLoop fuel g range p queue visited result).
Proof.
  induction fuel as [|fuel IH]; intros queue visited result Hm.
  - destruct queue; simpl in *; [eauto|lia].
  - destruct queue as [|[[r c] d] queue]; simpl in *; [eauto|].
    destruct (getCell g r c) as [cell|] eqn:Hg; [|apply IH; lia].
    destruct (negb (Cell.isVisible cell) || negb (p cell)); [apply IH; lia|].
    destruct (visitedHas (r, c) visited) eqn:Hvis; [apply IH; lia|].
    apply getCell_Some in Hg as [Hat _].
    pose proof (filter_visit_lt (r, c) visited (allKeys g)
                  (cellAt_allKeys _ _ _ Hat) Hvis) as Hlt.
    fold (unvisited g ((r, c) :: visited)) in Hlt.
    fold (unvisited g visited) in Hlt.
    destruct (range <=? d); apply IH.
    + lia.
    + rewrite length_app, length_map.
      assert (length (neighbors r c) = 6%nat)
        by (unfold neighbors; destruct (Z.rem r 2 =? 0); reflexivity).
      lia.
Qed.

(** *** Completeness: every admissible path within range is followed *)

Lemma qSorted_weaken (lo lo' : Z) (queue : list (Z * Z * Z)) :
  lo' <= lo → qSorted lo queue → qSorted lo' queue.
Proof. destruct queue as [|x q]; simpl; [auto|]. intros H [H1 H2]. split; [lia|auto]. Qed.

Lemma qSorted_app (lo b : Z) (queue new : list (Z * Z * Z)) :
  qSorted lo queue →
  (∀ x, x ∈ queue → x.2 <= b) →
  lo <= b →
  (∀ x, x ∈ new → x.2 = b) →
  qSorted lo (queue ++ new).
Proof.
  revert lo. induction queue as [|x q IH]; intros lo Hs Hq Hlo Hnew; simpl.
  - clear Hs Hq. revert lo Hlo.
    induction new as [|y new IHn]; intros lo Hlo; simpl; [exact I|].
    assert (y.2 = b) by (apply Hnew; left).
    split; [lia|]. apply IHn; [|lia].
    intros z Hz. apply Hnew. right. exact Hz.
  - destruct Hs as [H1 H2]. split; [exact H1|].
    apply IH; [exact H2| |apply Hq; left|exact Hnew].
    intros z Hz. apply Hq. right. exact Hz.
Qed.

Lemma bfsInv_drop (lo r c d : Z) (queue : list (Z * Z * Z))
    (visited : list (Z * Z)) (vd : list (Z * Z * Z)) (result : list Cell.t) :
  bfsInv g p r0 c0 range lo ((r, c, d) :: queue) visited vd result →
  ¬ admissible g p r c ∨ (∃ d', (r, c, d') ∈ vd) →
  bfsInv g p r0 c0 range d queue visited vd result.
Proof.
  intros (Hs & Hub & Hvd & Hcl & Ho & Hvis & Hres) Hdrop.
  destruct Hs as [Hlo Hs]. simpl in Hlo.
  split; [exact Hs|].
  split. { intros x Hx. specialize (Hub x). rewrite elem_of_cons in Hub.
           specialize (Hub (or_intror Hx)). lia. }
  split. { intros x Hx. specialize (Hvd x Hx). lia. }
  split.
  { intros r' c' d' Hin Hd n Hn Hadm.
    destruct (Hcl r' c' d' Hin Hd n Hn Hadm) as [Hl|Hr]; [left; exact Hl|].
    apply elem_of_cons in Hr as [Heq|Hr]; [|right; exact Hr].
    injection Heq as E1 E2 E3. rewrite E1, E2 in Hadm.
    destruct Hdrop as [Hna|(d0 & Hd0)]; [contradiction|].
    left. exists d0. rewrite E1, E2. split; [exact Hd0|].
    specialize (Hvd _ Hd0). simpl in Hvd. lia. }
  split.
  { destruct Ho as [Ho|[Ho|Ho]]; [|auto|auto].
    apply elem_of_cons in Ho as [Heq|Ho]; [|auto].
    injection Heq as <- <- <-.
    destruct Hdrop as [Hna|(d0 & Hd0)]; [auto|].
    right. left. exists d0. split; [exact Hd0|].
    specialize (Hvd _ Hd0). simpl in Hvd. lia. }
  split; [exact Hvis|exact Hres].
Qed.

Lemma bfsInv_visit (lo r c d : Z) (queue queue' : list (Z * Z * Z))
    (visited : list (Z * Z)) (vd : list (Z * Z * Z)) (result : list Cell.t)
    (cell : Cell.t) :
  bfsInv g p r0 c0 range lo ((r, c, d) :: queue) visited vd result →
  getCell g r c = Some cell →
  qSorted d queue' →
  (∀ x, x ∈ queue' → x.2 <= d + 1) →
  (∀ x, x ∈ queue → x ∈ queue') →
  (d < range → ∀ n, n ∈ neighbors r c → (n.1, n.2, d + 1) ∈ queue') →
  bfsInv g p r0 c0 range d queue' ((r, c) :: visited) ((r, c, d) :: vd)
    (result ++ [cell]).
Proof.
  intros (Hs & Hub & Hvd & Hcl & Ho & Hvis & Hres) Hg Hs' Hub' Hsub Hnew.
  destruct Hs as [Hlo Hs]. simpl in Hlo.
  split; [exact Hs'|]. split; [exact Hub'|].
  split.
  { intros x Hx. apply elem_of_cons in Hx as [->|Hx]; simpl; [lia|].
    specialize (Hvd x Hx). lia. }
  split.
  { intros r' c' d' Hin Hd n Hn Hadm.
    apply elem_of_cons in Hin as [Heq|Hin].
    - injection Heq as -> -> ->. right. apply Hnew; assumption.
    - destruct (Hcl r' c' d' Hin Hd n Hn Hadm) as [(d0 & Hd0 & Hle)|Hr].
      + left. exists d0. split; [right; exact Hd0|exact Hle].
      + apply elem_of_cons in Hr as [Heq|Hr]; [|right; apply Hsub; exact Hr].
        injection Heq as E1 E2 E3. left. exists d.
        rewrite E1, E2. split; [left|lia]. }
  split.
  { destruct Ho as [Ho|[(d0 & Hd0 & Hle)|Ho]]; [| |auto].
    - apply elem_of_cons in Ho as [Heq|Ho]; [|left; apply Hsub; exact Ho].
      injection Heq as <- <- <-. right. left. exists 0. split; [left|lia].
    - right. left. exists d0. split; [right; exact Hd0|exact Hle]. }
  split; [rewrite Hvis; reflexivity|].
  intros r' c' d' Hin. apply elem_of_cons in Hin as [Heq|Hin].
  - injection Heq as -> -> ->. exists cell. split; [exact Hg|].
    apply elem_of_app. right. left.
  - destruct (Hres r' c' d' Hin) as (x & Hx & Hxin).
    exists x. split; [exact Hx|]. apply elem_of_app. left. exact Hxin.
Qed.

Lemma bfsInv_final (lo : Z) (visited : list (Z * Z))
    (vd : list (Z * Z * Z)) (result : list Cell.t) :
  bfsInv g p r0 c0 range lo [] visited vd result →
  ∀ d r c, reach g p r0 c0 d r c → d <= range →
    ∃ d', (r, c, d') ∈ vd ∧ d' <= d.
Proof.
  intros (_ & _ & _ & Hcl & Ho & _ & _) d r c Hreach.
  induction Hreach as [Hadm|d r c r' c' Hreach IH Hn Hadm]; intros Hd.
  - destruct Ho as [Ho|[Ho|Ho]]; [inversion Ho|exact Ho|contradiction].
  - destruct IH as (dk & Hin & Hle); [lia|].
    destruct (Hcl r c dk Hin ltac:(lia) (r', c') Hn Hadm)
      as [(d' & Hd' & Hle')|Hq]; [|inversion Hq].
    exists d'. split; [exact Hd'|lia].
Qed.

Lemma rangeLoop_complete (fuel : nat) :
  ∀ lo queue visited vd result res,
    bfsInv g p r0 c0 range lo queue visited vd result →
    rangeLoop fuel g range p queue visited result = Some res →
    ∀ d r c, reach g p r0 c0 d r c → d <= range →
      ∃ cell, getCell g r c = Some cell ∧ cell ∈ res.
Proof.
  assert (Hend : ∀ lo visited vd result,
            bfsInv g p r0 c0 range lo [] visited vd result →
            ∀ d r c, reach g p r0 c0 d r c → d <= range →
              ∃ cell, getCell g r c = Some cell ∧ cell ∈ result).
  { intros lo visited vd result Hinv d r c Hreach Hd.
    destruct (bfsInv_final _ _ _ _ Hinv d r c Hreach Hd) as (d' & Hin & _).
    destruct Hinv as (_ & _ & _ & _ & _ & _ & Hres). eauto. }
  induction fuel as [|fuel IH]; intros lo queue visited vd result res Hinv.
  - destruct queue as [|[[r c] d] queue]; simpl; [|discriminate].
    intros [= <-]. eapply Hend; exact Hinv.
  - destruct queue as [|[[r c] d] queue]; simpl.
    { intros [= <-]. eapply Hend; exact Hinv. }
    destruct (getCell g r c) as [cell|] eqn:Hg.
    2: { apply (IH d _ _ vd). apply (bfsInv_drop lo r c); [exact Hinv|].
         left. intros (x & Hx & _). congruence. }
    destruct (negb (Cell.isVisible cell) || negb (p cell)) eqn:Hskip.
    { apply (IH d _ _ vd). apply (bfsInv_drop lo r c); [exact Hinv|].
      left. intros (x & Hx & Hpx).
      rewrite Hg in Hx. injection Hx as <-.
      apply getCell_Some in Hg as [_ Hv]. rewrite Hv, Hpx in Hskip.
      discriminate. }
    destruct (visitedHas (r, c) visited) eqn:Hvis.
    { apply (IH d _ _ vd). apply (bfsInv_drop lo r c); [exact Hinv|].
      right. apply bool_decide_eq_true in Hvis.
      destruct Hinv as (_ & _ & _ & _ & _ & Hv & _). rewrite Hv in Hvis.
      apply list_elem_of_fmap in Hvis as ([[r' c'] d'] & Heq & Hin).
      unfold keyOf in Heq. simpl in Heq. injection Heq as -> ->. eauto. }
    pose proof Hinv as ([Hlo Hs] & Hub & _). simpl in Hlo.
    destruct (range <=? d) eqn:Hrd.
    + apply (IH d _ _ ((r, c, d) :: vd)).
      apply (bfsInv_visit lo r c d queue); try assumption.
      * intros x Hx. specialize (Hub x). rewrite elem_of_cons in Hub.
        specialize (Hub (or_intror Hx)). lia.
      * auto.
      * lia.
    + apply (IH d _ _ ((r, c, d) :: vd)).
      apply (bfsInv_visit lo r c d queue); try assumption.
      * apply (qSorted_app d (d + 1)); [exact Hs| |lia|].
        -- intros x Hx. specialize (Hub x). rewrite elem_of_cons in Hub.
           specialize (Hub (or_intror Hx)). lia.
        -- intros x Hx.
           apply list_elem_of_In, in_map_iff in Hx as (n & <- & _).
           reflexivity.
      * intros x Hx. apply elem_of_app in Hx as [Hx|Hx].
        -- specialize (Hub x). rewrite elem_of_cons in Hub.
           specialize (Hub (or_intror Hx)). lia.
        -- apply list_elem_of_In, in_map_iff in Hx as (n & <- & _).
           simpl. lia.
      * intros x Hx. apply elem_of_app. left. exact Hx.
      * intros _ n Hn. apply elem_of_app. right.
        apply list_elem_of_In, in_map_iff. exists n.
        split; [reflexivity|]. apply list_elem_of_In. exact Hn.
Qed.

Lemma reach_nonneg (d r c : Z) : reach g p r0 c0 d r c → 0 <= d.
Proof. induction 1; lia. Qed.

Lemma reach_origin_admissible (d r c : Z) :
  reach g p r0 c0 d r c → admissible g p r0 c0.
Proof. induction 1; assumption. Qed.

End RangeLoop.

Lemma gridWf_initialize (cfg : list (list Z)) (s : MapState) :
  gridWf (cells (initializeCellStates cfg s)).
Proof.
  intros r c cell Hat.
  destruct (cellAt_initialize _ _ _ _ _ Hat) as (? & ? & _). auto.
Qed.

Lemma rangeLoop_skip (g : Grid) (p : Cell.t → bool) (range : Z)
    (fuel : nat) (r c dist : Z) (queue : list (Z * Z * Z))
    (visited : list (Z * Z)) (result : list Cell.t) :
  ¬ admissible g p r c →
  rangeLoop (S fuel) g range p ((r, c, dist) :: queue) visited result
  = rangeLoop fuel g range p queue visited result.
Proof.
  intros Hn. simpl.
  destruct (getCell g r c) as [cell|] eqn:Hg; [|reflexivity].
  destruct (p cell) eqn:Hp.
  - exfalso. apply Hn. exists cell. auto.
  - rewrite orb_true_r. reflexivity.
Qed.

Lemma getCellsInRange_loop (g : Grid) (p : Cell.t → bool) (r0 c0 range : Z) :
  ∃ result,
    rangeLoop (rangeFuel g) g range p [(r0, c0, 0)] [] [] = Some result
    ∧ (getCellsInRange g r0 c0 range p = result
       ∨ getCellsInRange g r0 c0 range p = []).
Proof.
  destruct (rangeLoop_terminates g p range (rangeFuel g) [(r0, c0, 0)] [] [])
    as [result Hres].
  - unfold rangeFuel, unvisited.
    pose proof (filter_length_le
                  (λ k, negb (visitedHas k [])) (allKeys g)).
    change (length [(r0, c0, 0)]) with 1%nat. lia.
  - exists result. split; [exact Hres|].
    unfold getCellsInRange. rewrite Hres.
    destruct ((range <? 0) || negb (cellExists g r0 c0)); auto.
Qed.

(** C3: a dequeued coordinate whose cell does not exist, is invisible or
    fails the predicate is dropped: the loop goes on with the same result
    and with the rest of the queue only.  The loop always empties its queue.
    Hence every returned cell lies at the end of a path of at most [range]
    steps from the origin on which every cell is admissible, a place that no
    such path reaches is not returned, and no cell is returned twice. *)
Theorem C3_getCellsInRange_stops_at_inadmissible_cells
    (g : Grid) (p : Cell.t → bool) (r0 c0 range : Z) :
  gridWf g →
  (∀ fuel r c dist queue visited result,
     ¬ admissible g p r c →
     rangeLoop (S fuel) g range p ((r, c, dist) :: queue) visited result
     = rangeLoop fuel g range p queue visited result)
  ∧ (∃ result,
       rangeLoop (rangeFuel g) g range p [(r0, c0, 0)] [] [] = Some result)
  ∧ (∀ cell, cell ∈ getCellsInRange g r0 c0 range p →
       getCell g (Cell.rowIndex cell) (Cell.cellIndex cell) = Some cell
       ∧ ∃ d, 0 <= d <= range
           ∧ reach g p r0 c0 d (Cell.rowIndex cell) (Cell.cellIndex cell))
  ∧ (∀ r c,
       (∀ d, 0 <= d <= range → ¬ reach g p r0 c0 d r c) →
       ∀ cell, cell ∈ getCellsInRange g r0 c0 range p → cellKey cell ≠ (r, c))
  ∧ NoDup (getCellsInRange g r0 c0 range p).
Proof.
  intros Hwf.
  assert (Hsound : ∀ cell, cell ∈ getCellsInRange g r0 c0 range p →
            getCell g (Cell.rowIndex cell) (Cell.cellIndex cell) = Some cell
            ∧ ∃ d, 0 <= d <= range
                ∧ reach g p r0 c0 d (Cell.rowIndex cell) (Cell.cellIndex cell)).
  { intros cell Hin. unfold getCellsInRange in Hin.
    destruct (range <? 0) eqn:Hneg; simpl in Hin; [inversion Hin|].
    destruct (cellExists g r0 c0); simpl in Hin; [|inversion Hin].
    destruct (rangeLoop _ _ _ _ _ _ _) as [res|] eqn:Hloop; [|inversion Hin].
    assert (Hq : queueOk g p r0 c0 range [(r0, c0, 0)]).
    { intros r c d Hx. apply list_elem_of_singleton in Hx as [= -> -> ->].
      split; [lia|]. left. auto. }
    assert (Hr : resultOk g p r0 c0 range []).
    { intros x Hx. inversion Hx. }
    destruct (rangeLoop_sound g p r0 c0 range _ _ _ _ _ Hq Hr Hloop cell Hin)
      as (r & c & d & Hd & Hreach & Hg).
    pose proof (proj1 (getCell_Some _ _ _ _) Hg) as [Hat _].
    destruct (Hwf r c cell Hat) as [-> ->]. eauto. }
  split; [intros; apply rangeLoop_skip; assumption|].
  split.
  { destruct (getCellsInRange_loop g p r0 c0 range) as (res & Hres & _).
    eauto. }
  split; [exact Hsound|].
  split.
  { intros r c Hno cell Hin Hkey.
    destruct (Hsound cell Hin) as (_ & d & Hd & Hreach).
    unfold cellKey in Hkey. injection Hkey as <- <-.
    exact (Hno d Hd Hreach). }
  unfold getCellsInRange.
  destruct ((range <? 0) || negb (cellExists g r0 c0)); [apply NoDup_nil_2|].
  destruct (rangeLoop _ _ _ _ _ _ _) as [res|] eqn:Hloop; [|apply NoDup_nil_2].
  apply (NoDup_fmap_1 cellKey).
  eapply (rangeLoop_keys g p range _ Hwf); [| |exact Hloop].
  - apply NoDup_nil_2.
  - reflexivity.
Qed.

Lemma C3_getCellsInRange_stops_at_inadmissible_cells_witness :
  NoDup (getCellsInRange (gridOf defaultGridConfig) 5 0 2 (emptyOrSelf 0%nat)).
Proof.
  refine (proj2 (proj2 (proj2 (proj2
    (C3_getCellsInRange_stops_at_inadmissible_cells
       (gridOf defaultGridConfig) (emptyOrSelf 0%nat) 5 0 2 _))))).
  apply gridWf_initialize.
Defined.

(** The converse of the soundness part of C3: the cell at the end of every
    admissible path of at most [range] steps from the origin is returned.
    Together they characterise the result of the query. *)
Theorem getCellsInRange_complete
    (g : Grid) (p : Cell.t → bool) (r0 c0 range d r c : Z) :
  reach g p r0 c0 d r c → d <= range →
  ∃ cell, getCell g r c = Some cell ∧ cell ∈ getCellsInRange g r0 c0 range p.
Proof.
  intros Hreach Hd.
  pose proof (reach_nonneg _ _ _ _ _ _ _ Hreach) as Hd0.
  destruct (reach_origin_admissible _ _ _ _ _ _ _ Hreach)
    as (origin & Hog & _).
  destruct (getCellsInRange_loop g p r0 c0 range) as (res & Hres & _).
  unfold getCellsInRange. rewrite Hres.
  destruct (range <? 0) eqn:Hneg; [lia|]. simpl.
  assert (He : cellExists g r0 c0 = true).
  { unfold getCell in Hog. destruct (cellExists g r0 c0); [reflexivity|].
    discriminate. }
  rewrite He. simpl.
  eapply (rangeLoop_complete g p r0 c0 range _ 0 _ _ []);
    [|exact Hres|exact Hreach|exact Hd].
  split; [simpl; split; [lia|exact I]|].
  split. { intros x Hx. apply list_elem_of_singleton in Hx as ->. simpl. lia. }
  split. { intros x Hx. inversion Hx. }
  split. { intros r' c' d' Hx. inversion Hx. }
  split. { left. left. }
  split; [reflexivity|]. intros r' c' d' Hx. inversion Hx.
Qed.

(** The scenario of the specification: on a fully visible 3 x 3 grid the
    query from (1,1) with range 1 returns the origin and its six
    neighbours. *)
Example getCellsInRange_3x3 :
  cellKey <$>
    getCellsInRange (gridOf [[1; 1; 1]; [1; 1; 1]; [1; 1; 1]]) 1 1 1 (λ _, true)
  = [(1, 1); (0, 1); (0, 2); (1, 2); (2, 2); (2, 1); (1, 0)].
Proof. vm_compute. reflexivity. Qed.

(** On the default grid a unit at (5,0) with two movement points reaches
    eight cells; the invisible cells and the cells beyond two steps are not
    among them. *)
Example getCellsInRange_default_grid :
  cellKey <$>
    getCellsInRange (gridOf defaultGridConfig) 5 0 2 (λ _, true)
  = [(5, 0); (4, 0); (4, 1); (5, 1); (3, 0); (3, 1); (4, 2); (5, 2)].
Proof. vm_compute. reflexivity. Qed.

(** ** The occupancy invariant (C2) *)

Lemma sameOccupancy_trans (g1 g2 g3 : Grid) :
  sameOccupancy g1 g2 → sameOccupancy g2 g3 → sameOccupancy g1 g3.
Proof. intros H1 H2 r c. rewrite H1. apply H2. Qed.

Lemma sameButHighlight_sameOccupancy (g g' : Grid) :
  sameButHighlight g g' → sameOccupancy g g'.
Proof.
  intros H r c. specialize (H r c).
  destruct (cellAt g r c) as [x|]; destruct (cellAt g' r c) as [y|];
    simpl in *; try discriminate; [|reflexivity].
  injection H as H1 H2 H3 H4 H5. unfold occupancy. congruence.
Qed.

Lemma sameOccupancy_upd (f : Cell.t → Cell.t) (r c : Z) (g : Grid) :
  (∀ x, occupancy (f x) = occupancy x) →
  sameOccupancy g (updCell f r c g).
Proof.
  intros Hf r' c'. rewrite cellAt_updCell.
  destruct (decide _); [|reflexivity].
  destruct (cellAt g r' c'); simpl; [rewrite Hf|]; reflexivity.
Qed.

Lemma gridInv_sameOccupancy (g g' : Grid) (st st' : UnitRef → Unit.t) :
  sameOccupancy g g' →
  (∀ u, Unit.position (st' u) = Unit.position (st u)) →
  gridInv g st → gridInv g' st'.
Proof.
  intros Hs Hst Hinv r c cell' Hat.
  specialize (Hs r c). rewrite Hat in Hs.
  destruct (cellAt g r c) as [cell|] eqn:Hc; [|discriminate].
  simpl in Hs. injection Hs as H1 H2 H3 H4.
  destruct (Hinv r c cell Hc) as [[Hr Hcc] Hu].
  split; [split; congruence|].
  intros u Hunit. rewrite <- H4 in Hunit.
  destruct (Hu u Hunit) as [Hv Hp].
  split; [congruence|]. rewrite Hst. exact Hp.
Qed.

Lemma cellAt_setCellUnit (v : option UnitRef) (g : Grid) (r c r' c' : Z) :
  cellAt (setCellUnit v r c g) r' c' =
  if decide (r = r' ∧ c = c')
  then (λ y, if Cell.isVisible y then Cell.setUnit v y else y)
         <$> cellAt g r' c'
  else cellAt g r' c'.
Proof.
  unfold setCellUnit.
  destruct (getCell g r c) as [y0|] eqn:Hg.
  - apply getCell_Some in Hg as [Hat Hv]. rewrite cellAt_updCell.
    destruct (decide _) as [[<- <-]|]; [|reflexivity].
    rewrite Hat. simpl. rewrite Hv. reflexivity.
  - destruct (decide _) as [[<- <-]|]; [|reflexivity].
    destruct (cellAt g r c) as [y|] eqn:Hat; [|reflexivity].
    simpl. rewrite (proj1 (getCell_None _ _ _) Hg y Hat). reflexivity.
Qed.

Lemma setCellUnit_negative (v : option UnitRef) (g : Grid) (r c : Z) :
  (0 <=? r) && (0 <=? c) = false → setCellUnit v r c g = g.
Proof.
  intros Hneg. unfold setCellUnit, getCell.
  rewrite cellExists_cellAt. unfold cellAt. rewrite Hneg. reflexivity.
Qed.

Lemma gridInv_clear_cell (g : Grid) (st : UnitRef → Unit.t) (r c : Z) :
  gridInv g st → gridInv (setCellUnit None r c g) st.
Proof.
  intros Hinv r' c' cell Hat. rewrite cellAt_setCellUnit in Hat.
  destruct (decide _) as [[<- <-]|]; [|apply Hinv; exact Hat].
  destruct (cellAt g r c) as [y|] eqn:Hy; [|discriminate].
  simpl in Hat. destruct (Hinv r c y Hy) as [Hrc Hu].
  destruct (Cell.isVisible y) eqn:Hv; injection Hat as <-.
  - split; [exact Hrc|]. intros u Hunit. discriminate.
  - split; [exact Hrc|]. intros u Hunit.
    destruct (Hu u Hunit) as [Hv' _]. congruence.
Qed.

(** The step shared by [placeUnit] and [moveUnit]: the cell at the unit's
    former position is cleared, the unit's position becomes (r, c) and the
    free visible cell at (r, c) refers to the unit. *)
Lemma gridInv_relocate (g : Grid) (st st' : UnitRef → Unit.t) (u : UnitRef)
    (r c : Z) (target : Cell.t) :
  gridInv g st →
  getCell g r c = Some target →
  Unit.position (st' u) = {| row := r; col := c |} →
  (∀ v, v ≠ u → st' v = st v) →
  gridInv
    (updCell (Cell.setUnit (Some u)) r c
       (setCellUnit None (row (Unit.position (st u)))
          (col (Unit.position (st u))) g))
    st'.
Proof.
  intros Hinv Hget Hpos Hother r' c' cell Hat.
  apply getCell_Some in Hget as [Htarget Hvis].
  rewrite cellAt_updCell, cellAt_setCellUnit in Hat.
  destruct (decide (r = r' ∧ c = c')) as [[<- <-]|Hne].
  - rewrite Htarget in Hat.
    destruct (Hinv r c target Htarget) as [Hrc _].
    destruct (decide _); simpl in Hat; rewrite ?Hvis in Hat;
      injection Hat as <-; simpl;
      (split; [exact Hrc|]); intros v [= <-]; auto.
  - destruct (decide _) as [[Hr Hc]|Hne'].
    + destruct (cellAt g r' c') as [y|] eqn:Hy; [|discriminate].
      simpl in Hat. destruct (Hinv r' c' y Hy) as [Hrc Hu].
      destruct (Cell.isVisible y) eqn:Hv; injection Hat as <-; simpl.
      * split; [exact Hrc|]. intros v Hunit. discriminate.
      * split; [exact Hrc|]. intros v Hunit.
        destruct (Hu v Hunit) as [Hv' _]. congruence.
    + destruct (Hinv r' c' cell Hat) as [Hrc Hu].
      split; [exact Hrc|]. intros v Hunit.
      destruct (Hu v Hunit) as [Hv Hp]. split; [exact Hv|].
      destruct (decide (v = u)) as [->|Hvu].
      * exfalso. apply Hne'. rewrite Hp. auto.
      * rewrite Hother by exact Hvu. exact Hp.
Qed.

Lemma stateInv_initializeCellStates (cfg : list (list Z)) (s : MapState) :
  stateInv (initializeCellStates cfg s).
Proof.
  intros r c cell Hat.
  destruct (cellAt_initialize _ _ _ _ _ Hat) as (Hr & Hc & Hu & _).
  split; [auto|]. intros u Hunit. congruence.
Qed.

Lemma stateInv_addUnit (s : MapState) (unit : option UnitRef) :
  stateInv s → stateInv (addUnit s unit).2.
Proof. intros H. destruct unit; exact H. Qed.

Lemma stateInv_removeUnit (s : MapState) (unit : option UnitRef) :
  stateInv s → stateInv (removeUnit s unit).2.
Proof.
  intros H. unfold removeUnit. destruct unit as [u|]; [|exact H].
  destruct (negb (indexOf u (units s) =? -1)); [|exact H].
  unfold stateInv. simpl.
  destruct ((0 <=? row _) && (0 <=? col _)); simpl;
    destruct (bool_decide _); simpl;
    try apply gridInv_clear_cell; exact H.
Qed.

Lemma stateInv_placeUnit (s : MapState) (u : UnitRef) (r c : Z) :
  stateInv s → stateInv (placeUnit s u r c).2.
Proof.
  intros H. unfold placeUnit.
  destruct (getCell (cells s) r c) as [cell|] eqn:Hget; [|exact H].
  destruct (Cell.isVisible cell && _); [|exact H].
  unfold stateInv. simpl.
  destruct ((0 <=? row _) && (0 <=? col _)) eqn:Hguard; simpl;
    destruct (negb (includes u (units s))); simpl;
    try rewrite <- (setCellUnit_negative None (cells s) _ _ Hguard) at 1;
    (eapply gridInv_relocate;
     [exact H|exact Hget|rewrite fn_lookup_alter; reflexivity|
      intros v Hv; apply fn_lookup_alter_ne; auto]).
Qed.

Lemma stateInv_moveUnit (s : MapState) (unit : option UnitRef) (r c : Z) :
  stateInv s → stateInv (moveUnit s unit r c).2.
Proof.
  intros H. destruct (moveUnit s unit r c).1 eqn:Hres.
  - apply moveUnit_succeeds_iff in Hres
      as (u & target & -> & Hget & Hunit & Hmr).
    destruct (moveUnit_true s u r c target Hget Hunit Hmr)
      as (g' & -> & Hsame).
    unfold stateInv. simpl.
    eapply gridInv_sameOccupancy;
      [apply sameButHighlight_sameOccupancy; exact Hsame|reflexivity|].
    eapply gridInv_relocate; [exact H|exact Hget| |].
    + rewrite fn_lookup_insert. unfold Unit.move.
      destruct (1 <=? _) eqn:Hle; [reflexivity|lia].
    + intros v Hv. apply fn_lookup_insert_ne. auto.
  - rewrite moveUnit_false by exact Hres. exact H.
Qed.

Lemma stateInv_clearHighlightedCells (s : MapState) :
  stateInv s → stateInv (clearHighlightedCells s).
Proof.
  intros H. destruct (clearHighlightedCells_frame s) as (g & -> & Hs).
  unfold stateInv. simpl.
  eapply gridInv_sameOccupancy;
    [apply sameButHighlight_sameOccupancy; exact Hs|reflexivity|exact H].
Qed.

Lemma stateInv_highlightMovementRange (s : MapState) (unit : option UnitRef) :
  stateInv s → stateInv (highlightMovementRange s unit).
Proof.
  intros H. destruct (highlightMovementRange_frame s unit) as (g & -> & Hs).
  unfold stateInv. simpl.
  eapply gridInv_sameOccupancy;
    [apply sameButHighlight_sameOccupancy; exact Hs|reflexivity|exact H].
Qed.

Lemma stateInv_selectUnit (s : MapState) (unit : option UnitRef) :
  stateInv s → stateInv (selectUnit s unit).
Proof.
  intros H. unfold selectUnit.
  apply stateInv_highlightMovementRange, stateInv_clearHighlightedCells.
  exact H.
Qed.

Lemma stateInv_endTurn (s : MapState) :
  stateInv s → stateInv (endTurn s).1.
Proof.
  intros H. unfold endTurn, stateInv. simpl.
  eapply gridInv_sameOccupancy;
    [apply sameButHighlight_sameOccupancy, sameButHighlight_clear| |exact H].
  intros u. rewrite resetTurn_fold.
  destruct (_ && _); reflexivity.
Qed.

Lemma stateInv_toggleCellState (s : MapState) (r c : Z) :
  stateInv s → stateInv (toggleCellState s r c).2.
Proof.
  intros H. unfold toggleCellState.
  destruct (_ && _); [|exact H].
  destruct (cells s !! Z.to_nat r) as [rw|]; [|exact H].
  destruct (_ && _); [|exact H].
  destruct (rw !! Z.to_nat c) as [cell|]; [|exact H].
  destruct (Cell.isVisible cell); [|exact H].
  unfold stateInv. simpl.
  eapply gridInv_sameOccupancy; [|reflexivity|exact H].
  apply sameOccupancy_upd. reflexivity.
Qed.

Lemma stateInv_step (s : MapState) (o : Op) :
  stateInv s → stateInv (step s o).
Proof.
  intros H. destruct o; simpl.
  - apply stateInv_initializeCellStates.
  - apply stateInv_addUnit, H.
  - apply stateInv_removeUnit, H.
  - apply stateInv_placeUnit, H.
  - apply stateInv_moveUnit, H.
  - apply stateInv_selectUnit, H.
  - apply stateInv_endTurn, H.
  - apply stateInv_toggleCellState, H.
  - apply stateInv_clearHighlightedCells, H.
Qed.

Lemma stateInv_run (ops : list Op) (s : MapState) :
  stateInv s → stateInv (run ops s).
Proof.
  unfold run. revert s. induction ops as [|o ops IH]; intros s H; simpl.
  - exact H.
  - apply IH, stateInv_step, H.
Qed.

(** C2: in every state reached from the freshly initialized grid by any
    sequence of the exported mutation operations, a cell that refers to a
    unit is the cell at that unit's position (which is the cell's own
    [rowIndex], [cellIndex]), and no two cells refer to the same unit. *)
Theorem C2_occupancy_invariant_of_reachable_states
    (gridConfig : list (list Z)) (st : UnitRef → Unit.t) (ops : list Op) :
  (∀ r c cell u,
     cellAt (cells (run ops (initializeCellStates gridConfig (mapState st))))
       r c = Some cell →
     Cell.unit cell = Some u →
     Unit.position
       (store (run ops (initializeCellStates gridConfig (mapState st))) u)
     = {| row := Cell.rowIndex cell; col := Cell.cellIndex cell |}
     ∧ Cell.rowIndex cell = r ∧ Cell.cellIndex cell = c)
  ∧ (∀ r1 c1 r2 c2 cell1 cell2 u,
       cellAt (cells (run ops (initializeCellStates gridConfig (mapState st))))
         r1 c1 = Some cell1 →
       cellAt (cells (run ops (initializeCellStates gridConfig (mapState st))))
         r2 c2 = Some cell2 →
       Cell.unit cell1 = Some u →
       Cell.unit cell2 = Some u →
       r1 = r2 ∧ c1 = c2).
Proof.
  pose proof (stateInv_run ops _
                (stateInv_initializeCellStates gridConfig (mapState st)))
    as Hinv.
  split.
  - intros r c cell u Hat Hu.
    destruct (Hinv r c cell Hat) as [[Hr Hc] Hunit].
    destruct (Hunit u Hu) as [_ Hp]. rewrite Hp, Hr, Hc. auto.
  - intros r1 c1 r2 c2 cell1 cell2 u Hat1 Hat2 Hu1 Hu2.
    destruct (Hinv r1 c1 cell1 Hat1) as [_ Hunit1].
    destruct (Hinv r2 c2 cell2 Hat2) as [_ Hunit2].
    destruct (Hunit1 u Hu1) as [_ Hp1]. destruct (Hunit2 u Hu2) as [_ Hp2].
    rewrite Hp1 in Hp2. injection Hp2 as -> ->. auto.
Qed.

(** * Further properties of the engine *)

(** ** The [Unit] methods *)

(** Whatever sequence of its methods is called on a unit with non-negative
    amounts and costs, its health stays between 0 and [maxHealth] and its
    remaining movement between 0 and [movement]; its type, owner,
    [maxHealth], [attack] and [movement] never change. *)
Theorem unit_calls_keep_bounds (u : Unit.t) (calls : list UnitCall) :
  unitOk u →
  Forall unitCallNonneg calls →
  unitOk (fold_left unitCall calls u)
  ∧ Unit.type (fold_left unitCall calls u) = Unit.type u
  ∧ Unit.owner (fold_left unitCall calls u) = Unit.owner u
  ∧ Unit.maxHealth (fold_left unitCall calls u) = Unit.maxHealth u
  ∧ Unit.attack (fold_left unitCall calls u) = Unit.attack u
  ∧ Unit.movement (fold_left unitCall calls u) = Unit.movement u.
Proof.
  intros Hok Hcalls. revert u Hok.
  induction Hcalls as [|call calls Hcall _ IH]; intros u Hok; simpl.
  - repeat split; apply Hok.
  - assert (Hstep : unitOk (unitCall u call)
             ∧ Unit.type (unitCall u call) = Unit.type u
             ∧ Unit.owner (unitCall u call) = Unit.owner u
             ∧ Unit.maxHealth (unitCall u call) = Unit.maxHealth u
             ∧ Unit.attack (unitCall u call) = Unit.attack u
             ∧ Unit.movement (unitCall u call) = Unit.movement u).
    { destruct Hok as [Hh Hm]. unfold unitOk.
      destruct call as [|amount|amount|r c cost|]; simpl in *.
      - repeat split; lia.
      - repeat split; lia.
      - repeat split; lia.
      - unfold Unit.move. destruct (cost <=? _) eqn:Hc; simpl;
          repeat split; lia.
      - unfold Unit.performAttack. destruct (Unit.canAttack u); simpl;
          repeat split; lia. }
    destruct Hstep as (Hok' & E1 & E2 & E3 & E4 & E5).
    destruct (IH _ Hok') as (H0 & H1 & H2 & H3 & H4 & H5).
    repeat split; try apply H0; congruence.
Qed.

Lemma unit_calls_keep_bounds_witness :
  unitOk
    (fold_left unitCall
       [CallTakeDamage 4; CallMove 2 3 1; CallHeal 9; CallPerformAttack;
        CallResetTurn]
       (createUnit KNIGHT AI)).
Proof.
  refine (proj1 (unit_calls_keep_bounds (createUnit KNIGHT AI)
    [CallTakeDamage 4; CallMove 2 3 1; CallHeal 9; CallPerformAttack;
     CallResetTurn] _ _)).
  - unfold unitOk. simpl. lia.
  - repeat constructor; simpl; lia.
Defined.



(** [takeDamage] never leaves the health negative and reports exactly
    whether the unit survives: the result is true if and only if the amount
    is smaller than the health.  Once the health is 0, no non-negative
    damage changes the unit any more. *)
Theorem takeDamage_reports_survival (u : Unit.t) (amount : Z) :
  0 <= Unit.health (Unit.takeDamage u amount).2
  ∧ ((Unit.takeDamage u amount).1 = true ↔ amount < Unit.health u)
  ∧ ((Unit.takeDamage u amount).1 = true ↔
     0 < Unit.health (Unit.takeDamage u amount).2)
  ∧ (Unit.health u = 0 → 0 <= amount →
     Unit.takeDamage u amount = (false, u)).
Proof.
  unfold Unit.takeDamage. simpl.
  split; [lia|]. split; [rewrite Z.ltb_lt; lia|].
  split; [rewrite Z.ltb_lt; lia|].
  intros Hz Ha. destruct u as [ty ow h mh at' mv mr ha pos]. simpl in *.
  subst h. replace (Z.max 0 (0 - amount)) with 0 by lia. reflexivity.
Qed.

(** A unit attacks at most once until its turn is reset: a second
    [performAttack] right after any [performAttack] returns 0 and changes
    nothing, and after [resetTurn] the next [performAttack] returns the
    attack strength again. *)
Theorem performAttack_once_per_turn (u : Unit.t) :
  Unit.performAttack (Unit.performAttack u).2
  = (0, (Unit.performAttack u).2)
  ∧ (Unit.performAttack (Unit.resetTurn u)).1 = Unit.attack u
  ∧ Unit.canAttack (Unit.performAttack u).2 = false
  ∧ Unit.canAttack (Unit.resetTurn u) = true.
Proof.
  unfold Unit.performAttack, Unit.canAttack, Unit.resetTurn.
  destruct (Unit.hasAttacked u) eqn:Ha; simpl; rewrite ?Ha; simpl; auto.
Qed.

(** ** The movement budget of [moveUnit] *)

Lemma moveUnit_movementRemaining (s : MapState) (unit : option UnitRef)
    (r c : Z) (u : UnitRef) :
  Unit.movementRemaining (store (moveUnit s unit r c).2 u)
  = Unit.movementRemaining (store s u)
    - (if (moveUnit s unit r c).1 && bool_decide (unit = Some u)
       then 1 else 0).
Proof.
  destruct (moveUnit s unit r c).1 eqn:Hres; simpl.
  - apply moveUnit_succeeds_iff in Hres
      as (v & target & -> & Hget & Hunit & Hmr).
    destruct (moveUnit_true s v r c target Hget Hunit Hmr) as (g' & -> & _).
    simpl. destruct (decide (v = u)) as [->|Hne].
    + rewrite bool_decide_eq_true_2 by reflexivity.
      rewrite fn_lookup_insert. unfold Unit.move.
      destruct (1 <=? _) eqn:Hle; [reflexivity|lia].
    + rewrite bool_decide_eq_false_2 by congruence.
      rewrite fn_lookup_insert_ne by exact Hne. lia.
  - rewrite moveUnit_false by exact Hres. lia.
Qed.

(** Whatever cells are asked for, a unit that has [movementRemaining] points
    left makes at most that many successful moves in a sequence of
    [moveUnit] calls, and each of them costs exactly one point: the points
    left afterwards are the points before minus the number of successful
    moves of that unit.  Moves of other units cost it nothing. *)
Theorem moveUnits_within_budget (s : MapState) (u : UnitRef)
    (moves : list (option UnitRef * Z * Z)) :
  0 <= Unit.movementRemaining (store s u) →
  0 <= (moveUnits s u moves).1 <= Unit.movementRemaining (store s u)
  ∧ Unit.movementRemaining (store (moveUnits s u moves).2 u)
    = Unit.movementRemaining (store s u) - (moveUnits s u moves).1.
Proof.
  revert s. induction moves as [|[[unit r] c] moves IH]; intros s Hmr; simpl.
  - lia.
  - pose proof (moveUnit_movementRemaining s unit r c u) as Hstep.
    assert (Hge : 0 <= Unit.movementRemaining (store (moveUnit s unit r c).2 u)).
    { rewrite Hstep.
      destruct (moveUnit s unit r c).1 eqn:Hres; simpl; [|lia].
      destruct (bool_decide (unit = Some u)) eqn:Hu; [|lia].
      apply bool_decide_eq_true in Hu as ->.
      apply moveUnit_succeeds_iff in Hres
        as (v & target & [= <-] & _ & _ & Hone). lia. }
    destruct (IH _ Hge) as [Hb Heq].
    rewrite Heq, Hstep.
    destruct ((moveUnit s unit r c).1 && bool_decide (unit = Some u));
      rewrite Hstep in Hb; lia.
Qed.

Lemma moveUnits_within_budget_witness :
  (moveUnits rowOfFour 0%nat
     [(Some 0%nat, 0, 3); (Some 0%nat, 0, 1); (Some 0%nat, 0, 2)]).1 <= 2.
Proof.
  refine (proj2 (proj1 (moveUnits_within_budget rowOfFour 0%nat
    [(Some 0%nat, 0, 3); (Some 0%nat, 0, 1); (Some 0%nat, 0, 2)] _))).
  vm_compute. discriminate.
Defined.

(** ** The grid / cell store *)

Lemma initializeCellStates_follows_mask_core
    (gridConfig : list (list Z)) (s : MapState) (r c : Z) :
  cellAt (cells (initializeCellStates gridConfig s)) r c
  = (λ v, {| Cell.rowIndex := r; Cell.cellIndex := c;
             Cell.isVisible := v =? 1; Cell.isActive := false;
             Cell.isHighlighted := false; Cell.unit := None |})
      <$> maskAt gridConfig r c
  ∧ cellExists (cells (initializeCellStates gridConfig s)) r c
    = bool_decide (maskAt gridConfig r c = Some 1)
  ∧ units (initializeCellStates gridConfig s) = units s
  ∧ store (initializeCellStates gridConfig s) = store s
  ∧ selectedUnit (initializeCellStates gridConfig s) = selectedUnit s
  ∧ currentTurn (initializeCellStates gridConfig s) = currentTurn s.
Proof.
  assert (Hat : cellAt (cells (initializeCellStates gridConfig s)) r c
    = (λ v, {| Cell.rowIndex := r; Cell.cellIndex := c;
               Cell.isVisible := v =? 1; Cell.isActive := false;
               Cell.isHighlighted := false; Cell.unit := None |})
        <$> maskAt gridConfig r c).
  { unfold cellAt, maskAt, initializeCellStates; simpl.
    destruct (0 <=? r) eqn:Hr; destruct (0 <=? c) eqn:Hc; simpl;
      try reflexivity.
    rewrite list_lookup_imap.
    destruct (gridConfig !! Z.to_nat r) as [rw|]; simpl; [|reflexivity].
    rewrite list_lookup_imap.
    destruct (rw !! Z.to_nat c) as [v|]; simpl; [|reflexivity].
    rewrite !Z2Nat.id by lia. reflexivity. }
  split; [exact Hat|].
  split; [|repeat split].
  rewrite cellExists_cellAt, Hat.
  destruct (maskAt gridConfig r c) as [v|]; simpl.
  - destruct (v =? 1) eqn:Hv.
    + apply Z.eqb_eq in Hv as ->. reflexivity.
    + symmetry. apply bool_decide_eq_false. intros [= ->]. discriminate.
  - reflexivity.
Qed.

(** [initializeCellStates] builds a matrix of the shape of the mask: there
    is a cell at (r, c) exactly where the mask has an entry, the cell
    records its place, is inactive, not highlighted and unoccupied, and it
    is visible ([cellExists]) exactly where the entry is 1.  The roster, the
    unit objects, the selection and the turn are left as they were. *)
Theorem initializeCellStates_follows_mask
    (gridConfig : list (list Z)) (s : MapState) (r c : Z) :
  cellAt (cells (initializeCellStates gridConfig s)) r c
  = (λ v, {| Cell.rowIndex := r; Cell.cellIndex := c;
             Cell.isVisible := v =? 1; Cell.isActive := false;
             Cell.isHighlighted := false; Cell.unit := None |})
      <$> maskAt gridConfig r c
  ∧ cellExists (cells (initializeCellStates gridConfig s)) r c
    = bool_decide (maskAt gridConfig r c = Some 1)
  ∧ units (initializeCellStates gridConfig s) = units s
  ∧ store (initializeCellStates gridConfig s) = store s
  ∧ selectedUnit (initializeCellStates gridConfig s) = selectedUnit s
  ∧ currentTurn (initializeCellStates gridConfig s) = currentTurn s.
Proof. apply initializeCellStates_follows_mask_core. Qed.

Lemma alter_fixed {A : Type} (f : A → A) (l : list A) (i : nat) (x : A) :
  l !! i = Some x → f x = x → alter f i l = l.
Proof.
  intros Hl Hf. rewrite <- (list_alter_id id l i) at 2 by reflexivity.
  apply list_alter_ext; [|reflexivity].
  intros y Hy. rewrite Hl in Hy. injection Hy as <-. exact Hf.
Qed.

Lemma updCell_twice_fixed (f1 f2 : Cell.t → Cell.t) (g : Grid) (r c : Z)
    (cell : Cell.t) :
  cellAt g r c = Some cell → f2 (f1 cell) = cell →
  updCell f2 r c (updCell f1 r c g) = g.
Proof.
  intros Hat Hf. unfold updCell. unfold cellAt in Hat.
  destruct ((0 <=? r) && (0 <=? c)); [|discriminate].
  destruct (g !! Z.to_nat r) as [rw|] eqn:Hrow; [|discriminate].
  simpl in Hat. rewrite list_alter_alter_eq.
  apply (alter_fixed _ _ _ rw Hrow). simpl.
  rewrite list_alter_alter_eq.
  apply (alter_fixed _ _ _ cell Hat). exact Hf.
Qed.

Lemma toggleCellState_visible (s : MapState) (r c : Z) (cell : Cell.t) :
  getCell (cells s) r c = Some cell →
  toggleCellState s r c
  = (negb (Cell.isActive cell),
     withCells s
       (updCell (Cell.setActive (negb (Cell.isActive cell))) r c (cells s))).
Proof.
  intros Hg. apply getCell_Some in Hg as [Hat Hv].
  pose proof Hat as Hat'. unfold cellAt in Hat'. unfold toggleCellState.
  destruct (0 <=? r) eqn:Hr; [|discriminate].
  destruct (0 <=? c) eqn:Hc; [|discriminate]. simpl in *.
  destruct (cells s !! Z.to_nat r) as [rw|] eqn:Hrow; [|discriminate].
  simpl in Hat'.
  apply lookup_lt_Some in Hrow. pose proof (lookup_lt_Some _ _ _ Hat').
  destruct (r <? Z.of_nat (length (cells s))) eqn:Hr'; [|lia].
  destruct (c <? Z.of_nat (length rw)) eqn:Hc'; [|lia].
  rewrite Hat', Hv. reflexivity.
Qed.

(** [toggleCellState] is its own inverse: two calls on the same place give
    back the state exactly.  One call returns true exactly when the cell
    exists, is visible and was inactive; it changes the [isActive] flag of
    that one cell and nothing else (no unit reference, no highlight, no
    other cell, nor the roster, units, selection or turn). *)
Theorem toggleCellState_involution_and_frame (s : MapState) (r c : Z) :
  (toggleCellState (toggleCellState s r c).2 r c).2 = s
  ∧ ((toggleCellState s r c).1 = true ↔
     ∃ cell, getCell (cells s) r c = Some cell ∧ Cell.isActive cell = false)
  ∧ (toggleCellState s r c).2 = withCells s (cells (toggleCellState s r c).2)
  ∧ ∀ r' c',
      cellAt (cells (toggleCellState s r c).2) r' c'
      = (λ x, if bool_decide (r = r' ∧ c = c') && Cell.isVisible x
              then Cell.setActive (negb (Cell.isActive x)) x else x)
          <$> cellAt (cells s) r' c'.
Proof.
  destruct (getCell (cells s) r c) as [cell|] eqn:Hg.
  - rewrite (toggleCellState_visible s r c cell Hg). simpl.
    pose proof (proj1 (getCell_Some _ _ _ _) Hg) as [Hat Hv].
    split; [|split; [|split]].
    + erewrite toggleCellState_visible.
      2: { simpl. rewrite getCell_updCell by reflexivity.
           rewrite decide_True by auto. rewrite Hg. reflexivity. }
      simpl. rewrite negb_involutive.
      rewrite (updCell_twice_fixed _ _ _ _ _ cell Hat)
        by (destruct cell; reflexivity).
      destruct s; reflexivity.
    + split.
      * intros Ha. exists cell. split; [reflexivity|].
        apply negb_true_iff. exact Ha.
      * intros (x & [= <-] & Ha). rewrite Ha. reflexivity.
    + reflexivity.
    + intros r' c'. rewrite cellAt_updCell.
      destruct (decide (r = r' ∧ c = c')) as [[<- <-]|Hne].
      * rewrite bool_decide_eq_true_2 by auto. rewrite Hat. simpl.
        rewrite Hv. reflexivity.
      * rewrite bool_decide_eq_false_2 by exact Hne. simpl.
        destruct (cellAt (cells s) r' c'); reflexivity.
  - rewrite (toggleCellState_no_cell s r c Hg). simpl.
    rewrite (toggleCellState_no_cell s r c Hg). simpl.
    split; [reflexivity|].
    split; [split; [discriminate|intros (x & Hx & _); discriminate]|].
    split; [destruct s; reflexivity|].
    intros r' c'.
    destruct (cellAt (cells s) r' c') as [x|] eqn:Hx; [|reflexivity]. simpl.
    destruct (bool_decide (r = r' ∧ c = c')) eqn:Hd; [|reflexivity].
    apply bool_decide_eq_true in Hd as [<- <-].
    rewrite (proj1 (getCell_None _ _ _) Hg x Hx). reflexivity.
Qed.

(** After [clearHighlightedCells] no cell is highlighted; the call changes
    nothing but highlight flags, and calling it again changes nothing. *)
Theorem clearHighlightedCells_clears_all (s : MapState) :
  (∀ r c cell, cellAt (cells (clearHighlightedCells s)) r c = Some cell →
     Cell.isHighlighted cell = false)
  ∧ (∀ r c,
       cellAt (cells (clearHighlightedCells s)) r c
       = Cell.setHighlighted false <$> cellAt (cells s) r c)
  ∧ clearHighlightedCells s = withCells s (cells (clearHighlightedCells s))
  ∧ clearHighlightedCells (clearHighlightedCells s) = clearHighlightedCells s.
Proof.
  unfold clearHighlightedCells. simpl.
  split; [|split; [|split]].
  - intros r c cell. rewrite cellAt_clear.
    destruct (cellAt (cells s) r c); simpl; [|discriminate].
    intros [= <-]. reflexivity.
  - intros r c. apply cellAt_clear.
  - reflexivity.
  - f_equal. rewrite map_map. apply map_ext. intros rw.
    rewrite map_map. apply map_ext. intros cell. reflexivity.
Qed.

(** ** The range query *)

Lemma rowParity (r : Z) : (Z.rem r 2 =? 0) = Z.even r.
Proof.
  destruct (Z.even r) eqn:He.
  - apply Z.eqb_eq. apply Z.even_spec in He as [m ->].
    rewrite Z.mul_comm. apply Z.rem_mul. lia.
  - apply Z.eqb_neq. intros Hrem.
    apply Z.rem_divide in Hrem as [m Hm]; [|lia].
    assert (Z.even r = true) by (apply Z.even_spec; exists m; lia).
    congruence.
Qed.

Lemma neighbors_cases (r c r' c' : Z) :
  (r', c') ∈ neighbors r c ↔
  (Z.even r = true
   ∧ ((r' = r - 1 ∧ c' = c - 1) ∨ (r' = r - 1 ∧ c' = c)
      ∨ (r' = r ∧ c' = c + 1) ∨ (r' = r + 1 ∧ c' = c)
      ∨ (r' = r + 1 ∧ c' = c - 1) ∨ (r' = r ∧ c' = c - 1)))
  ∨ (Z.even r = false
     ∧ ((r' = r - 1 ∧ c' = c) ∨ (r' = r - 1 ∧ c' = c + 1)
        ∨ (r' = r ∧ c' = c + 1) ∨ (r' = r + 1 ∧ c' = c + 1)
        ∨ (r' = r + 1 ∧ c' = c) ∨ (r' = r ∧ c' = c - 1))).
Proof.
  unfold neighbors. rewrite rowParity.
  destruct (Z.even r); rewrite !elem_of_cons, elem_of_nil; split.
  - intros H. left. split; [reflexivity|].
    repeat (destruct H as [H|H]; [injection H as -> ->; tauto|]).
    contradiction.
  - intros [[_ H]|[H _]]; [|discriminate].
    repeat (destruct H as [[-> ->]|H]; [tauto|]).
    destruct H as [-> ->]. tauto.
  - intros H. right. split; [reflexivity|].
    repeat (destruct H as [H|H]; [injection H as -> ->; tauto|]).
    contradiction.
  - intros [[H _]|[_ H]]; [discriminate|].
    repeat (destruct H as [[-> ->]|H]; [tauto|]).
    destruct H as [-> ->]. tauto.
Qed.

Lemma even_pred_succ (r : Z) :
  Z.even (r - 1) = negb (Z.even r) ∧ Z.even (r + 1) = negb (Z.even r).
Proof.
  split.
  - rewrite Z.even_sub. destruct (Z.even r); reflexivity.
  - rewrite Z.even_add. destruct (Z.even r); reflexivity.
Qed.

Lemma neighbors_symmetric_irreflexive_core (r c : Z) :
  (∀ r' c', (r', c') ∈ neighbors r c ↔ (r, c) ∈ neighbors r' c')
  ∧ ((r, c) ∉ neighbors r c)
  ∧ NoDup (neighbors r c)
  ∧ length (neighbors r c) = 6%nat
  ∧ ∀ r' c', (r', c') ∈ neighbors r c →
      Z.abs (r' - r) <= 1 ∧ Z.abs (c' - c) <= 1.
Proof.
  assert (Hdir : ∀ a b a' b',
            (a', b') ∈ neighbors a b → (a, b) ∈ neighbors a' b').
  { intros a b a' b'. rewrite !neighbors_cases.
    destruct (even_pred_succ a) as [Hp Hs].
    intros [[He H]|[He H]];
      repeat (destruct H as [[-> ->]|H]);
      try destruct H as [-> ->];
      rewrite ?Hp, ?Hs, He; simpl;
      [right|right|left|right|right|left|left|left|right|left|left|right];
      (split; [reflexivity|]); lia. }
  split; [intros r' c'; split; apply Hdir|].
  split.
  { rewrite neighbors_cases. intros [[_ H]|[_ H]]; lia. }
  split.
  { unfold neighbors. destruct (Z.rem r 2 =? 0);
      repeat (apply NoDup_cons_2;
              [rewrite ?elem_of_cons, elem_of_nil;
               intros H; repeat (destruct H as [H|H]; [injection H; lia|]);
               contradiction|]);
      apply NoDup_nil_2. }
  split.
  { unfold neighbors. destruct (Z.rem r 2 =? 0); reflexivity. }
  intros r' c'. rewrite neighbors_cases. intros [[_ H]|[_ H]]; lia.
Qed.

(** The adjacency used by the flood fill is a proper hexagonal one, for both
    row parities: it is symmetric, no place is its own neighbour, the six
    neighbours of a place are distinct, and a neighbour is at most one row
    and one column away. *)
Theorem neighbors_symmetric_irreflexive (r c : Z) :
  (∀ r' c', (r', c') ∈ neighbors r c ↔ (r, c) ∈ neighbors r' c')
  ∧ ((r, c) ∉ neighbors r c)
  ∧ NoDup (neighbors r c)
  ∧ length (neighbors r c) = 6%nat
  ∧ ∀ r' c', (r', c') ∈ neighbors r c →
      Z.abs (r' - r) <= 1 ∧ Z.abs (c' - c) <= 1.
Proof. apply neighbors_symmetric_irreflexive_core. Qed.

Lemma getCellsInRange_sound (g : Grid) (p : Cell.t → bool) (r0 c0 range : Z)
    (cell : Cell.t) :
  cell ∈ getCellsInRange g r0 c0 range p →
  ∃ r c d, 0 <= d <= range ∧ reach g p r0 c0 d r c
    ∧ getCell g r c = Some cell.
Proof.
  intros Hin. unfold getCellsInRange in Hin.
  destruct (range <? 0) eqn:Hneg; simpl in Hin; [inversion Hin|].
  destruct (cellExists g r0 c0); simpl in Hin; [|inversion Hin].
  destruct (rangeLoop _ _ _ _ _ _ _) as [res|] eqn:Hloop; [|inversion Hin].
  refine (rangeLoop_sound g p r0 c0 range _ _ _ _ _ _ _ Hloop cell Hin).
  - intros r c d Hx. apply list_elem_of_singleton in Hx as [= -> -> ->].
    split; [lia|]. left. auto.
  - intros x Hx. inversion Hx.
Qed.

Lemma getCellsInRange_exactly_reachable_core
    (g : Grid) (p : Cell.t → bool) (r0 c0 range : Z) (cell : Cell.t) :
  gridWf g →
  cell ∈ getCellsInRange g r0 c0 range p ↔
  getCell g (Cell.rowIndex cell) (Cell.cellIndex cell) = Some cell
  ∧ ∃ d, 0 <= d <= range
      ∧ reach g p r0 c0 d (Cell.rowIndex cell) (Cell.cellIndex cell).
Proof.
  intros Hwf. split.
  - intros Hin.
    destruct (getCellsInRange_sound _ _ _ _ _ _ Hin)
      as (r & c & d & Hd & Hreach & Hg).
    pose proof (proj1 (getCell_Some _ _ _ _) Hg) as [Hat _].
    destruct (Hwf r c cell Hat) as [-> ->]. eauto.
  - intros (Hg & d & Hd & Hreach).
    destruct (getCellsInRange_complete g p r0 c0 range d _ _ Hreach)
      as (cell' & Hg' & Hin); [lia|].
    rewrite Hg in Hg'. injection Hg' as <-. exact Hin.
Qed.

(** The result of the range query is exactly the set of cells that an
    admissible path of at most [range] steps reaches from the origin: a
    cell is returned if and only if it is a visible cell of the matrix and
    such a path ends at its place. *)
Theorem getCellsInRange_exactly_reachable
    (g : Grid) (p : Cell.t → bool) (r0 c0 range : Z) (cell : Cell.t) :
  gridWf g →
  cell ∈ getCellsInRange g r0 c0 range p ↔
  getCell g (Cell.rowIndex cell) (Cell.cellIndex cell) = Some cell
  ∧ ∃ d, 0 <= d <= range
      ∧ reach g p r0 c0 d (Cell.rowIndex cell) (Cell.cellIndex cell).
Proof. apply getCellsInRange_exactly_reachable_core. Qed.

Lemma getCellsInRange_exactly_reachable_witness :
  {| Cell.rowIndex := 4; Cell.cellIndex := 1; Cell.isVisible := true;
     Cell.isActive := false; Cell.isHighlighted := false;
     Cell.unit := None |}
  ∈ getCellsInRange (gridOf defaultGridConfig) 5 0 2 (emptyOrSelf 0%nat)
  ↔ getCell (gridOf defaultGridConfig) 4 1
    = Some {| Cell.rowIndex := 4; Cell.cellIndex := 1; Cell.isVisible := true;
              Cell.isActive := false; Cell.isHighlighted := false;
              Cell.unit := None |}
    ∧ ∃ d, 0 <= d <= 2
        ∧ reach (gridOf defaultGridConfig) (emptyOrSelf 0%nat) 5 0 d 4 1.
Proof.
  apply (getCellsInRange_exactly_reachable (gridOf defaultGridConfig)
           (emptyOrSelf 0%nat) 5 0 2
           {| Cell.rowIndex := 4; Cell.cellIndex := 1; Cell.isVisible := true;
              Cell.isActive := false; Cell.isHighlighted := false;
              Cell.unit := None |}).
  apply gridWf_initialize.
Defined.

Lemma reach_mono (g : Grid) (p q : Cell.t → bool) (r0 c0 d r c : Z) :
  (∀ x, p x = true → q x = true) →
  reach g p r0 c0 d r c → reach g q r0 c0 d r c.
Proof.
  intros Hpq Hreach.
  assert (Hadm : ∀ a b, admissible g p a b → admissible g q a b).
  { intros a b (x & Hx & Hp). exists x. auto. }
  induction Hreach as [Ho|d r c r' c' _ IH Hn Ha].
  - apply reach_origin. auto.
  - eapply reach_step; eauto.
Qed.

(** The query grows with the range and with the predicate: with a larger
    range, or with a predicate that admits more cells, every cell returned
    before is still returned. *)
Theorem getCellsInRange_monotone
    (g : Grid) (p q : Cell.t → bool) (r0 c0 range range' : Z)
    (cell : Cell.t) :
  gridWf g →
  range <= range' →
  (∀ x, p x = true → q x = true) →
  cell ∈ getCellsInRange g r0 c0 range p →
  cell ∈ getCellsInRange g r0 c0 range' q.
Proof.
  intros Hwf Hle Hpq Hin.
  apply (getCellsInRange_exactly_reachable_core g p r0 c0 range cell Hwf) in Hin
    as (Hg & d & Hd & Hreach).
  apply (getCellsInRange_exactly_reachable_core g q r0 c0 range' cell Hwf).
  split; [exact Hg|]. exists d. split; [lia|].
  eapply reach_mono; eassumption.
Qed.

Lemma getCellsInRange_monotone_witness :
  {| Cell.rowIndex := 5; Cell.cellIndex := 0; Cell.isVisible := true;
     Cell.isActive := false; Cell.isHighlighted := false;
     Cell.unit := None |}
  ∈ getCellsInRange (gridOf defaultGridConfig) 5 0 3 (λ _, true).
Proof.
  apply (getCellsInRange_monotone (gridOf defaultGridConfig)
           (emptyOrSelf 0%nat) (λ _, true) 5 0 0 3).
  - apply gridWf_initialize.
  - lia.
  - reflexivity.
  - vm_compute. left.
Defined.

Lemma reach_bound (g : Grid) (p : Cell.t → bool) (r0 c0 d r c : Z) :
  reach g p r0 c0 d r c → Z.abs (r - r0) <= d ∧ Z.abs (c - c0) <= d.
Proof.
  induction 1 as [|d r c r' c' _ IH Hn _]; [lia|].
  destruct (neighbors_symmetric_irreflexive_core r c) as (_ & _ & _ & _ & Hb).
  specialize (Hb r' c' Hn). lia.
Qed.

(** No returned cell is more than [range] rows or more than [range] columns
    away from the origin; in particular a query never leaves the square of
    side [2 * range + 1] around the origin. *)
Theorem getCellsInRange_stays_near_origin
    (g : Grid) (p : Cell.t → bool) (r0 c0 range : Z) (cell : Cell.t) :
  gridWf g →
  cell ∈ getCellsInRange g r0 c0 range p →
  Z.abs (Cell.rowIndex cell - r0) <= range
  ∧ Z.abs (Cell.cellIndex cell - c0) <= range.
Proof.
  intros Hwf Hin.
  apply (getCellsInRange_exactly_reachable_core g p r0 c0 range cell Hwf) in Hin
    as (_ & d & Hd & Hreach).
  apply reach_bound in Hreach. lia.
Qed.

Lemma getCellsInRange_stays_near_origin_witness :
  Z.abs (5 - 5) <= 2 ∧ Z.abs (0 - 0) <= 2.
Proof.
  apply (getCellsInRange_stays_near_origin (gridOf defaultGridConfig)
           (emptyOrSelf 0%nat) 5 0 2
           {| Cell.rowIndex := 5; Cell.cellIndex := 0; Cell.isVisible := true;
              Cell.isActive := false; Cell.isHighlighted := false;
              Cell.unit := None |}).
  - apply gridWf_initialize.
  - vm_compute. left.
Defined.

(** ** Selection and highlighting *)

Lemma cellAt_highlightCells (cs : list Cell.t) (g : Grid) (r c : Z) :
  cellAt (highlightCells cs g) r c
  = (λ x, if bool_decide ((r, c) ∈ cellKey <$> cs)
          then Cell.setHighlighted true x else x)
      <$> cellAt g r c.
Proof.
  unfold highlightCells. revert g.
  induction cs as [|x cs IH]; intros g.
  - simpl. destruct (cellAt g r c); reflexivity.
  - cbn [fold_left]. rewrite IH, cellAt_updCell, fmap_cons. clear IH.
    destruct (decide (Cell.rowIndex x = r ∧ Cell.cellIndex x = c))
      as [[Hr Hc]|Hne].
    + rewrite (bool_decide_eq_true_2 ((r, c) ∈ cellKey x :: (cellKey <$> cs)))
        by (unfold cellKey; rewrite Hr, Hc; left).
      destruct (cellAt g r c) as [y|]; simpl; [|reflexivity].
      destruct (bool_decide _); reflexivity.
    + assert (Heq : bool_decide ((r, c) ∈ cellKey x :: (cellKey <$> cs))
                    = bool_decide ((r, c) ∈ cellKey <$> cs)).
      { apply bool_decide_ext. rewrite elem_of_cons. unfold cellKey at 1.
        split; [intros [[= -> ->]|H]; [tauto|exact H]|auto]. }
      rewrite Heq. reflexivity.
Qed.

Lemma gridWf_sameOccupancy (g g' : Grid) :
  sameOccupancy g g' → gridWf g → gridWf g'.
Proof.
  intros Hs Hwf r c cell' Hat. specialize (Hs r c). rewrite Hat in Hs.
  destruct (cellAt g r c) as [cell|] eqn:Hc; [|discriminate].
  simpl in Hs. injection Hs as H1 H2 _ _.
  destruct (Hwf r c cell Hc). split; congruence.
Qed.

Lemma admissible_sameOccupancy (g g' : Grid) (u : UnitRef) (r c : Z) :
  sameOccupancy g g' →
  admissible g (emptyOrSelf u) r c → admissible g' (emptyOrSelf u) r c.
Proof.
  intros Hs (cell & Hg & Hp). apply getCell_Some in Hg as [Hat Hv].
  specialize (Hs r c). rewrite Hat in Hs.
  destruct (cellAt g' r c) as [cell'|] eqn:Hc; [|discriminate].
  simpl in Hs. injection Hs as _ _ H3 H4.
  exists cell'. split; [apply getCell_Some; split; congruence|].
  unfold emptyOrSelf in *. rewrite <- H4. exact Hp.
Qed.

Lemma reach_sameOccupancy (g g' : Grid) (u : UnitRef) (r0 c0 d r c : Z) :
  sameOccupancy g g' →
  reach g (emptyOrSelf u) r0 c0 d r c → reach g' (emptyOrSelf u) r0 c0 d r c.
Proof.
  intros Hs Hreach.
  induction Hreach as [Ho|d r c r' c' _ IH Hn Ha].
  - apply reach_origin. eapply admissible_sameOccupancy; eassumption.
  - eapply reach_step; [exact IH|exact Hn|].
    eapply admissible_sameOccupancy; eassumption.
Qed.

Lemma sameOccupancy_sym (g g' : Grid) :
  sameOccupancy g g' → sameOccupancy g' g.
Proof. intros H r c. symmetry. apply H. Qed.

(** What [highlightMovementRange] leaves highlighted on a board whose
    highlights have just been cleared. *)
Lemma rehighlight_exactly_reachable (s : MapState) (unit : option UnitRef)
    (r c : Z) (cell' : Cell.t) :
  gridWf (cells s) →
  cellAt (cells (highlightMovementRange (clearHighlightedCells s) unit)) r c
    = Some cell' →
  Cell.isHighlighted cell' = true ↔
  ∃ u, unit = Some u
    ∧ 0 < Unit.movementRemaining (store s u)
    ∧ ∃ d, 0 <= d <= Unit.movementRemaining (store s u)
        ∧ reach
            (cells (highlightMovementRange (clearHighlightedCells s) unit))
            (emptyOrSelf u)
            (row (Unit.position (store s u)))
            (col (Unit.position (store s u))) d r c.
Proof.
  intros Hwf.
  pose proof (sameButHighlight_sameOccupancy _ _
                (sameButHighlight_clear (cells s))) as Hs1.
  pose proof (gridWf_sameOccupancy _ _ Hs1 Hwf) as Hwf1.
  unfold highlightMovementRange.
  change (store (clearHighlightedCells s)) with (store s).
  change (cells (clearHighlightedCells s))
    with (map (map (Cell.setHighlighted false)) (cells s)).
  set (g1 := map (map (Cell.setHighlighted false)) (cells s)) in *.
  assert (Hoff : ∀ x, cellAt g1 r c = Some x → Cell.isHighlighted x = false).
  { intros x. unfold g1. rewrite cellAt_clear.
    destruct (cellAt (cells s) r c); simpl; [|discriminate].
    intros [= <-]. reflexivity. }
  destruct unit as [u|].
  2: { simpl. intros Hat. rewrite (Hoff _ Hat).
       split; [discriminate|intros (u & Hu & _); discriminate]. }
  destruct (Unit.movementRemaining (store s u) <=? 0) eqn:Hmr.
  { simpl. intros Hat. rewrite (Hoff _ Hat).
    split; [discriminate|intros (v & [= <-] & Hpos & _); lia]. }
  simpl.
  set (pr := row (Unit.position (store s u))).
  set (pc := col (Unit.position (store s u))).
  set (mr := Unit.movementRemaining (store s u)) in *.
  set (cs := getCellsInRange g1 pr pc mr (emptyOrSelf u)).
  pose proof (sameButHighlight_sameOccupancy _ _
                (sameButHighlight_highlightCells cs g1)) as Hs2.
  rewrite cellAt_highlightCells.
  destruct (cellAt g1 r c) as [x|] eqn:Hx; [|discriminate]. simpl.
  intros [= <-].
  destruct (bool_decide ((r, c) ∈ cellKey <$> cs)) eqn:Hin.
  - split; [intros _|reflexivity].
    apply bool_decide_eq_true in Hin.
    apply list_elem_of_fmap in Hin as (y & Hkey & Hy).
    apply (getCellsInRange_exactly_reachable_core g1 _ pr pc mr y Hwf1) in Hy
      as (_ & d & Hd & Hreach).
    unfold cellKey in Hkey. injection Hkey as -> ->.
    exists u. split; [reflexivity|]. split; [lia|].
    exists d. split; [exact Hd|].
    eapply reach_sameOccupancy; eassumption.
  - rewrite (Hoff x eq_refl). split; [discriminate|].
    intros (v & [= <-] & _ & d & Hd & Hreach). exfalso.
    apply bool_decide_eq_false in Hin. apply Hin.
    apply (reach_sameOccupancy _ g1) in Hreach;
      [|apply sameOccupancy_sym; exact Hs2].
    destruct (getCellsInRange_complete g1 _ pr pc mr d r c Hreach)
      as (y & Hy & Hyin); [lia|].
    apply list_elem_of_fmap. exists y. split; [|exact Hyin].
    apply getCell_Some in Hy as [Hat _].
    destruct (Hwf1 r c y Hat) as [<- <-]. reflexivity.
Qed.

Lemma stateInv_gridWf (s : MapState) : stateInv s → gridWf (cells s).
Proof. intros H r c cell Hat. apply (H r c cell Hat). Qed.

Lemma rowOfFour_wf : gridWf (cells rowOfFour).
Proof.
  apply stateInv_gridWf. unfold rowOfFour.
  apply stateInv_placeUnit, stateInv_initializeCellStates.
Qed.

Lemma selectUnit_highlights_exactly_reachable_core
    (s : MapState) (unit : option UnitRef) :
  gridWf (cells s) →
  selectedUnit (selectUnit s unit) = unit
  ∧ sameButHighlight (cells s) (cells (selectUnit s unit))
  ∧ units (selectUnit s unit) = units s
  ∧ store (selectUnit s unit) = store s
  ∧ currentTurn (selectUnit s unit) = currentTurn s
  ∧ ∀ r c cell',
      cellAt (cells (selectUnit s unit)) r c = Some cell' →
      Cell.isHighlighted cell' = true ↔
      ∃ u, unit = Some u
        ∧ 0 < Unit.movementRemaining (store s u)
        ∧ ∃ d, 0 <= d <= Unit.movementRemaining (store s u)
            ∧ reach (cells (selectUnit s unit)) (emptyOrSelf u)
                (row (Unit.position (store s u)))
                (col (Unit.position (store s u))) d r c.
Proof.
  intros Hwf. unfold selectUnit.
  destruct (clearHighlightedCells_frame (withSelectedUnit s unit))
    as (g1 & E1 & H1).
  destruct (highlightMovementRange_frame
              (clearHighlightedCells (withSelectedUnit s unit)) unit)
    as (g2 & E2 & H2).
  split; [rewrite E2, E1; reflexivity|].
  split.
  { rewrite E2. simpl. eapply sameButHighlight_trans; [exact H1|].
    rewrite E1 in H2. exact H2. }
  split; [rewrite E2, E1; reflexivity|].
  split; [rewrite E2, E1; reflexivity|].
  split; [rewrite E2, E1; reflexivity|].
  intros r c cell' Hat.
  exact (rehighlight_exactly_reachable (withSelectedUnit s unit) unit r c
           cell' Hwf Hat).
Qed.

(** [selectUnit] records the selection and recomputes the highlights: on
    the resulting board a cell is highlighted if and only if a unit was
    selected, it has movement left, and a path of at most
    [movementRemaining] steps over cells that are empty or hold that unit
    leads from its position to the cell.  Selecting null, or a unit without
    movement left, leaves nothing highlighted.  Nothing but highlight flags
    and the selection changes. *)
Theorem selectUnit_highlights_exactly_reachable
    (s : MapState) (unit : option UnitRef) :
  gridWf (cells s) →
  selectedUnit (selectUnit s unit) = unit
  ∧ sameButHighlight (cells s) (cells (selectUnit s unit))
  ∧ units (selectUnit s unit) = units s
  ∧ store (selectUnit s unit) = store s
  ∧ currentTurn (selectUnit s unit) = currentTurn s
  ∧ ∀ r c cell',
      cellAt (cells (selectUnit s unit)) r c = Some cell' →
      Cell.isHighlighted cell' = true ↔
      ∃ u, unit = Some u
        ∧ 0 < Unit.movementRemaining (store s u)
        ∧ ∃ d, 0 <= d <= Unit.movementRemaining (store s u)
            ∧ reach (cells (selectUnit s unit)) (emptyOrSelf u)
                (row (Unit.position (store s u)))
                (col (Unit.position (store s u))) d r c.
Proof. apply selectUnit_highlights_exactly_reachable_core. Qed.

Lemma selectUnit_highlights_exactly_reachable_witness :
  selectedUnit (selectUnit rowOfFour (Some 0%nat)) = Some 0%nat.
Proof.
  refine (proj1 (selectUnit_highlights_exactly_reachable rowOfFour
                   (Some 0%nat) _)).
  apply rowOfFour_wf.
Defined.

Lemma gridWf_updCell (f : Cell.t → Cell.t) (r c : Z) (g : Grid) :
  (∀ x, Cell.rowIndex (f x) = Cell.rowIndex x
        ∧ Cell.cellIndex (f x) = Cell.cellIndex x) →
  gridWf g → gridWf (updCell f r c g).
Proof.
  intros Hf Hwf r' c' cell Hat. rewrite cellAt_updCell in Hat.
  destruct (decide _); [|apply Hwf; exact Hat].
  destruct (cellAt g r' c') as [y|] eqn:Hy; [|discriminate].
  simpl in Hat. injection Hat as <-.
  destruct (Hf y) as [-> ->]. apply Hwf. exact Hy.
Qed.

Lemma gridWf_setCellUnit (v : option UnitRef) (r c : Z) (g : Grid) :
  gridWf g → gridWf (setCellUnit v r c g).
Proof.
  intros Hwf. unfold setCellUnit.
  destruct (getCell g r c); [|exact Hwf].
  apply gridWf_updCell; [|exact Hwf]. intros x. split; reflexivity.
Qed.

Lemma moveUnit_rehighlights (s : MapState) (u : UnitRef) (r c : Z)
    (target : Cell.t) :
  getCell (cells s) r c = Some target →
  Cell.unit target = None →
  1 <= Unit.movementRemaining (store s u) →
  moveUnit s (Some u) r c
  = (true,
     highlightMovementRange
       (clearHighlightedCells
          (withCells
             (withStore s
                (<[u := (Unit.move (store s u) r c 1).2]> (store s)))
             (updCell (Cell.setUnit (Some u)) r c
                (setCellUnit None (row (Unit.position (store s u)))
                   (col (Unit.position (store s u))) (cells s)))))
       (Some u)).
Proof.
  intros Hget Hunit Hmr. unfold moveUnit. rewrite Hget.
  pose proof (proj1 (getCell_Some _ _ _ _) Hget) as [_ Hv].
  rewrite Hv, Hunit. simpl.
  unfold Unit.move. destruct (1 <=? _) eqn:Hle; [|lia]. simpl.
  f_equal.
  match goal with
  | |- (if ?b then _ else _) = _ => destruct b eqn:Hb
  end; [reflexivity|].
  unfold highlightMovementRange.
  match goal with
  | |- _ = (if ?b then _ else _) => replace b with true; [reflexivity|]
  end.
  symmetry. apply Z.leb_le. apply Z.ltb_ge in Hb. exact Hb.
Qed.

Lemma moveUnit_highlights_from_new_position_core
    (s : MapState) (u : UnitRef) (r c : Z) :
  gridWf (cells s) →
  (moveUnit s (Some u) r c).1 = true →
  units (moveUnit s (Some u) r c).2 = units s
  ∧ selectedUnit (moveUnit s (Some u) r c).2 = selectedUnit s
  ∧ currentTurn (moveUnit s (Some u) r c).2 = currentTurn s
  ∧ (∀ v, v ≠ u → store (moveUnit s (Some u) r c).2 v = store s v)
  ∧ ∀ r' c' cell',
      cellAt (cells (moveUnit s (Some u) r c).2) r' c' = Some cell' →
      Cell.isHighlighted cell' = true ↔
      0 < Unit.movementRemaining (store (moveUnit s (Some u) r c).2 u)
      ∧ ∃ d,
          0 <= d
            <= Unit.movementRemaining (store (moveUnit s (Some u) r c).2 u)
          ∧ reach (cells (moveUnit s (Some u) r c).2) (emptyOrSelf u)
              r c d r' c'.
Proof.
  intros Hwf Hok.
  apply moveUnit_succeeds_iff in Hok
    as (u' & target & [= <-] & Hget & Hunit & Hmr).
  rewrite (moveUnit_rehighlights s u r c target Hget Hunit Hmr).
  cbn [fst snd].
  set (s3 := withCells _ _).
  destruct (clearHighlightedCells_frame s3) as (g1 & E1 & H1).
  destruct (highlightMovementRange_frame (clearHighlightedCells s3) (Some u))
    as (g2 & E2 & H2).
  assert (Hstore : store (highlightMovementRange (clearHighlightedCells s3)
                            (Some u)) = store s3)
    by (rewrite E2, E1; reflexivity).
  split; [rewrite E2, E1; reflexivity|].
  split; [rewrite E2, E1; reflexivity|].
  split; [rewrite E2, E1; reflexivity|].
  split.
  { intros v Hv. rewrite Hstore. unfold s3. simpl.
    apply fn_lookup_insert_ne. auto. }
  intros r' c' cell' Hat.
  assert (Hwf3 : gridWf (cells s3)).
  { unfold s3. simpl. apply gridWf_updCell; [intros x; split; reflexivity|].
    apply gridWf_setCellUnit. exact Hwf. }
  pose proof (rehighlight_exactly_reachable s3 (Some u) r' c' cell' Hwf3 Hat)
    as Hre.
  rewrite Hstore.
  assert (Hpos : Unit.position (store s3 u) = {| row := r; col := c |}).
  { unfold s3. simpl. rewrite fn_lookup_insert. unfold Unit.move.
    destruct (1 <=? _) eqn:Hle; [reflexivity|lia]. }
  rewrite Hre. split.
  - intros (v & [= <-] & Hp & Hd). rewrite Hpos in Hd. auto.
  - intros [Hp Hd]. exists u. rewrite Hpos. auto.
Qed.

(** After a successful [moveUnit] the highlights are those of the new
    situation: a cell is highlighted if and only if the moved unit still has
    movement left and a path of at most that many steps, over cells that are
    empty or hold the unit, leads from its new position (r, c) to the cell.
    The move changes neither the roster, the selection, the turn, nor any
    other unit object. *)
Theorem moveUnit_highlights_from_new_position
    (s : MapState) (u : UnitRef) (r c : Z) :
  gridWf (cells s) →
  (moveUnit s (Some u) r c).1 = true →
  units (moveUnit s (Some u) r c).2 = units s
  ∧ selectedUnit (moveUnit s (Some u) r c).2 = selectedUnit s
  ∧ currentTurn (moveUnit s (Some u) r c).2 = currentTurn s
  ∧ (∀ v, v ≠ u → store (moveUnit s (Some u) r c).2 v = store s v)
  ∧ ∀ r' c' cell',
      cellAt (cells (moveUnit s (Some u) r c).2) r' c' = Some cell' →
      Cell.isHighlighted cell' = true ↔
      0 < Unit.movementRemaining (store (moveUnit s (Some u) r c).2 u)
      ∧ ∃ d,
          0 <= d
            <= Unit.movementRemaining (store (moveUnit s (Some u) r c).2 u)
          ∧ reach (cells (moveUnit s (Some u) r c).2) (emptyOrSelf u)
              r c d r' c'.
Proof. apply moveUnit_highlights_from_new_position_core. Qed.

Lemma moveUnit_highlights_from_new_position_witness :
  units (moveUnit rowOfFour (Some 0%nat) 0 1).2 = units rowOfFour.
Proof.
  refine (proj1 (moveUnit_highlights_from_new_position rowOfFour 0%nat 0 1
                   _ _)).
  - apply rowOfFour_wf.
  - vm_compute. reflexivity.
Defined.

(** ** The roster and the placement of units *)

Lemma indexOf_spec (u : UnitRef) (l : list UnitRef) :
  (indexOf u l = -1 ∧ u ∉ l)
  ∨ ∃ l1 l2, l = l1 ++ u :: l2 ∧ (u ∉ l1)
      ∧ indexOf u l = Z.of_nat (length l1).
Proof.
  induction l as [|x l IH]; simpl.
  - left. split; [reflexivity|]. apply not_elem_of_nil.
  - destruct (decide (x = u)) as [->|Hne].
    + right. exists [], l. split; [reflexivity|].
      split; [apply not_elem_of_nil|reflexivity].
    + destruct IH as [[Hi Hn]|(l1 & l2 & -> & Hn & Hi)].
      * left. rewrite Hi. simpl. split; [reflexivity|].
        apply not_elem_of_cons. auto.
      * right. exists (x :: l1), l2. split; [reflexivity|].
        split; [apply not_elem_of_cons; auto|].
        rewrite Hi. destruct (Z.of_nat (length l1) =? -1) eqn:E; [lia|].
        simpl length. lia.
Qed.

Lemma removeUnit_true (s : MapState) (u : UnitRef) :
  indexOf u (units s) ≠ -1 →
  removeUnit s (Some u)
  = (true,
     {| cells :=
          if (0 <=? row (Unit.position (store s u)))
             && (0 <=? col (Unit.position (store s u)))
          then setCellUnit None (row (Unit.position (store s u)))
                 (col (Unit.position (store s u))) (cells s)
          else cells s;
        activeHexagon := activeHexagon s;
        units := delete (Z.to_nat (indexOf u (units s))) (units s);
        selectedUnit :=
          if bool_decide (selectedUnit s = Some u) then None
          else selectedUnit s;
        currentTurn := currentTurn s;
        store := store s |}).
Proof.
  intros Hi. unfold removeUnit.
  destruct (indexOf u (units s) =? -1) eqn:E; [lia|]. simpl.
  destruct ((0 <=? _) && (0 <=? _)); simpl;
    destruct (bool_decide _); reflexivity.
Qed.

(** [removeUnit u] succeeds exactly when [u] is in the roster.  It then
    removes the first roster entry of [u] and clears the selection if [u]
    was selected; it clears the unit reference of the visible cell at
    [u.position] (whichever unit that cell referred to) and of no other
    cell.  No unit object is changed: the removed unit keeps its position.
    If the roster had no duplicates, [u] is no longer in it. *)
Theorem removeUnit_effects (s : MapState) (u : UnitRef) :
  ((removeUnit s (Some u)).1 = true ↔ u ∈ units s)
  ∧ store (removeUnit s (Some u)).2 = store s
  ∧ currentTurn (removeUnit s (Some u)).2 = currentTurn s
  ∧ (u ∈ units s →
     (∃ l1 l2, units s = l1 ++ u :: l2 ∧ (u ∉ l1)
        ∧ units (removeUnit s (Some u)).2 = l1 ++ l2)
     ∧ (NoDup (units s) → u ∉ units (removeUnit s (Some u)).2)
     ∧ selectedUnit (removeUnit s (Some u)).2
       = (if bool_decide (selectedUnit s = Some u) then None
          else selectedUnit s)
     ∧ ∀ r c,
         cellAt (cells (removeUnit s (Some u)).2) r c
         = (λ x, if bool_decide (row (Unit.position (store s u)) = r
                                 ∧ col (Unit.position (store s u)) = c)
                    && Cell.isVisible x
                 then Cell.setUnit None x else x)
             <$> cellAt (cells s) r c).
Proof.
  destruct (indexOf_spec u (units s)) as [[Hi Hn]|(l1 & l2 & Hl & Hn & Hi)].
  - unfold removeUnit. rewrite Hi. simpl.
    split; [split; [discriminate|intros H; contradiction]|].
    split; [reflexivity|]. split; [reflexivity|]. intros H. contradiction.
  - rewrite removeUnit_true by lia. simpl.
    assert (Hin : u ∈ units s).
    { rewrite Hl. apply elem_of_app. right. left. }
    split; [split; [intros _; exact Hin|reflexivity]|].
    split; [reflexivity|]. split; [reflexivity|].
    intros _.
    assert (Hunits : delete (Z.to_nat (indexOf u (units s))) (units s)
                     = l1 ++ l2).
    { rewrite Hi, Nat2Z.id, Hl. apply delete_middle. }
    rewrite Hunits.
    split; [eauto|]. split; [|split; [reflexivity|]].
    + intros Hnd. rewrite Hl in Hnd.
      apply list.NoDup_app in Hnd as (_ & Hdis & Hnd2).
      apply list.NoDup_cons in Hnd2 as [Hn2 _].
      apply not_elem_of_app. auto.
    + intros r c.
      destruct ((0 <=? row _) && (0 <=? col _)) eqn:Hguard.
      * rewrite cellAt_setCellUnit.
        destruct (decide _) as [Hd|Hd].
        -- rewrite bool_decide_eq_true_2 by exact Hd. reflexivity.
        -- rewrite bool_decide_eq_false_2 by exact Hd. simpl.
           destruct (cellAt (cells s) r c); reflexivity.
      * destruct (cellAt (cells s) r c) as [x|] eqn:Hx; [|reflexivity].
        simpl. destruct (bool_decide _) eqn:Hd; [|reflexivity].
        apply bool_decide_eq_true in Hd as [Hr Hcc].
        apply cellAt_bounds in Hx as [Hx1 Hx2]. rewrite Hr, Hcc in Hguard.
        apply andb_false_iff in Hguard as [Hg|Hg]; lia.
Qed.

Lemma placeUnit_true (s : MapState) (u : UnitRef) (r c : Z)
    (target : Cell.t) :
  getCell (cells s) r c = Some target →
  Cell.unit target = None →
  ∃ st',
    placeUnit s u r c
    = (true,
       {| cells :=
            updCell (Cell.setUnit (Some u)) r c
              (setCellUnit None (row (Unit.position (store s u)))
                 (col (Unit.position (store s u))) (cells s));
          activeHexagon := activeHexagon s;
          units := if includes u (units s) then units s else units s ++ [u];
          selectedUnit := selectedUnit s;
          currentTurn := currentTurn s;
          store := st' |})
    ∧ st' u
      = {| Unit.type := Unit.type (store s u);
           Unit.owner := Unit.owner (store s u);
           Unit.health := Unit.health (store s u);
           Unit.maxHealth := Unit.maxHealth (store s u);
           Unit.attack := Unit.attack (store s u);
           Unit.movement := Unit.movement (store s u);
           Unit.movementRemaining := Unit.movementRemaining (store s u);
           Unit.hasAttacked := Unit.hasAttacked (store s u);
           Unit.position := {| row := r; col := c |} |}
    ∧ ∀ v, v ≠ u → st' v = store s v.
Proof.
  intros Hget Hunit. unfold placeUnit. rewrite Hget.
  pose proof (proj1 (getCell_Some _ _ _ _) Hget) as [_ Hv].
  rewrite Hv, Hunit. simpl.
  eexists. split; [|split].
  - destruct ((0 <=? row _) && (0 <=? col _)) eqn:Hguard; simpl;
      destruct (includes u (units s)); simpl;
      rewrite ?(setCellUnit_negative None (cells s) _ _ Hguard);
      reflexivity.
  - simpl. rewrite fn_lookup_alter. reflexivity.
  - intros v Hne. simpl. apply fn_lookup_alter_ne. auto.
Qed.

Lemma placeUnit_succeeds_iff (s : MapState) (u : UnitRef) (r c : Z) :
  (placeUnit s u r c).1 = true ↔
  ∃ target, getCell (cells s) r c = Some target ∧ Cell.unit target = None.
Proof.
  split.
  - unfold placeUnit.
    destruct (getCell (cells s) r c) as [target|]; [|discriminate].
    destruct (Cell.isVisible target); simpl; [|discriminate].
    destruct (Cell.unit target) as [v|] eqn:Hu; simpl; [discriminate|].
    intros _. eauto.
  - intros (target & Hget & Hunit).
    destruct (placeUnit_true s u r c target Hget Hunit) as (st' & -> & _).
    reflexivity.
Qed.

Lemma placeUnit_effects_core (s : MapState) (u : UnitRef) (r c : Z) :
  ((placeUnit s u r c).1 = true ↔
   ∃ target, getCell (cells s) r c = Some target ∧ Cell.unit target = None)
  ∧ ((placeUnit s u r c).1 = true →
     (∃ cell', getCell (cells (placeUnit s u r c).2) r c = Some cell'
        ∧ Cell.unit cell' = Some u)
     ∧ Unit.position (store (placeUnit s u r c).2 u) = {| row := r; col := c |}
     ∧ Unit.movementRemaining (store (placeUnit s u r c).2 u)
       = Unit.movementRemaining (store s u)
     ∧ Unit.hasAttacked (store (placeUnit s u r c).2 u)
       = Unit.hasAttacked (store s u)
     ∧ Unit.health (store (placeUnit s u r c).2 u) = Unit.health (store s u)
     ∧ (∀ v, v ≠ u → store (placeUnit s u r c).2 v = store s v)
     ∧ u ∈ units (placeUnit s u r c).2
     ∧ (u ∈ units s → units (placeUnit s u r c).2 = units s)
     ∧ (u ∉ units s → units (placeUnit s u r c).2 = units s ++ [u])
     ∧ (NoDup (units s) → NoDup (units (placeUnit s u r c).2))
     ∧ selectedUnit (placeUnit s u r c).2 = selectedUnit s
     ∧ currentTurn (placeUnit s u r c).2 = currentTurn s
     ∧ ∀ r' c',
         ¬ (r' = r ∧ c' = c) →
         ¬ (r' = row (Unit.position (store s u))
            ∧ c' = col (Unit.position (store s u))) →
         cellAt (cells (placeUnit s u r c).2) r' c' = cellAt (cells s) r' c').
Proof.
  split; [apply placeUnit_succeeds_iff|].
  intros Hok. apply placeUnit_succeeds_iff in Hok as (target & Hget & Hunit).
  destruct (placeUnit_true s u r c target Hget Hunit)
    as (st' & -> & Hu & Hother).
  cbn [fst snd cells store units selectedUnit currentTurn].
  rewrite Hu. cbn [Unit.position Unit.movementRemaining Unit.hasAttacked
                   Unit.health].
  assert (Hinc : includes u (units s) = bool_decide (u ∈ units s))
    by reflexivity.
  split.
  { exists (Cell.setUnit (Some u) target). split; [|reflexivity].
    rewrite getCell_updCell by reflexivity.
    rewrite decide_True by auto. rewrite getCell_setCellUnit.
    destruct (decide _); rewrite Hget; reflexivity. }
  repeat (split; [reflexivity|]).
  split; [exact Hother|].
  split.
  { rewrite Hinc. destruct (bool_decide (u ∈ units s)) eqn:Hb.
    - apply bool_decide_eq_true in Hb. exact Hb.
    - apply elem_of_app. right. left. }
  split.
  { intros Hin. rewrite Hinc, bool_decide_eq_true_2 by exact Hin.
    reflexivity. }
  split.
  { intros Hin. rewrite Hinc, bool_decide_eq_false_2 by exact Hin.
    reflexivity. }
  split.
  { intros Hnd. rewrite Hinc. destruct (bool_decide (u ∈ units s)) eqn:Hb;
      [exact Hnd|].
    apply bool_decide_eq_false in Hb.
    apply list.NoDup_app. split; [exact Hnd|]. split.
    - intros x Hx Hxu. apply list_elem_of_singleton in Hxu as ->. auto.
    - apply NoDup_singleton. }
  split; [reflexivity|]. split; [reflexivity|].
  intros r' c' H1 H2.
  rewrite cellAt_updCell, decide_False by (intros [? ?]; auto).
  rewrite cellAt_setCellUnit, decide_False by (intros [? ?]; auto).
  reflexivity.
Qed.

(** [placeUnit u r c] succeeds exactly when the cell (r, c) exists, is
    visible and is unoccupied.  It then makes the cell refer to [u] and
    sets [u.position] to (r, c) without touching any other field of [u]
    (placing costs no movement) or any other unit object; [u] is in the
    roster afterwards, added at the end only if it was not there, so a
    roster without duplicates stays without duplicates; the selection and
    the turn are unchanged, and every cell other than (r, c) and the cell at
    the former position of [u] is unchanged. *)
Theorem placeUnit_effects (s : MapState) (u : UnitRef) (r c : Z) :
  ((placeUnit s u r c).1 = true ↔
   ∃ target, getCell (cells s) r c = Some target ∧ Cell.unit target = None)
  ∧ ((placeUnit s u r c).1 = true →
     (∃ cell', getCell (cells (placeUnit s u r c).2) r c = Some cell'
        ∧ Cell.unit cell' = Some u)
     ∧ Unit.position (store (placeUnit s u r c).2 u) = {| row := r; col := c |}
     ∧ Unit.movementRemaining (store (placeUnit s u r c).2 u)
       = Unit.movementRemaining (store s u)
     ∧ Unit.hasAttacked (store (placeUnit s u r c).2 u)
       = Unit.hasAttacked (store s u)
     ∧ Unit.health (store (placeUnit s u r c).2 u) = Unit.health (store s u)
     ∧ (∀ v, v ≠ u → store (placeUnit s u r c).2 v = store s v)
     ∧ u ∈ units (placeUnit s u r c).2
     ∧ (u ∈ units s → units (placeUnit s u r c).2 = units s)
     ∧ (u ∉ units s → units (placeUnit s u r c).2 = units s ++ [u])
     ∧ (NoDup (units s) → NoDup (units (placeUnit s u r c).2))
     ∧ selectedUnit (placeUnit s u r c).2 = selectedUnit s
     ∧ currentTurn (placeUnit s u r c).2 = currentTurn s
     ∧ ∀ r' c',
         ¬ (r' = r ∧ c' = c) →
         ¬ (r' = row (Unit.position (store s u))
            ∧ c' = col (Unit.position (store s u))) →
         cellAt (cells (placeUnit s u r c).2) r' c' = cellAt (cells s) r' c').
Proof. apply placeUnit_effects_core. Qed.

Lemma moveUnit_units (s : MapState) (unit : option UnitRef) (r c : Z) :
  units (moveUnit s unit r c).2 = units s
  ∧ selectedUnit (moveUnit s unit r c).2 = selectedUnit s
  ∧ currentTurn (moveUnit s unit r c).2 = currentTurn s.
Proof.
  destruct (moveUnit s unit r c).1 eqn:Hres.
  - apply moveUnit_succeeds_iff in Hres
      as (u & target & -> & Hget & Hunit & Hmr).
    destruct (moveUnit_true s u r c target Hget Hunit Hmr) as (g' & -> & _).
    repeat split.
  - rewrite moveUnit_false by exact Hres. repeat split.
Qed.

Lemma selectUnit_units (s : MapState) (unit : option UnitRef) :
  units (selectUnit s unit) = units s.
Proof.
  unfold selectUnit.
  destruct (highlightMovementRange_frame
              (clearHighlightedCells (withSelectedUnit s unit)) unit)
    as (g2 & -> & _).
  reflexivity.
Qed.

Lemma toggleCellState_units (s : MapState) (r c : Z) :
  units (toggleCellState s r c).2 = units s.
Proof.
  destruct (getCell (cells s) r c) as [cell|] eqn:Hg.
  - rewrite (toggleCellState_visible s r c cell Hg). reflexivity.
  - rewrite (toggleCellState_no_cell s r c Hg). reflexivity.
Qed.

Lemma step_units_NoDup (s : MapState) (o : Op) :
  NoDup (units s) →
  match o with
  | OpAddUnit (Some u) => u ∉ units s
  | _ => True
  end →
  NoDup (units (step s o)).
Proof.
  intros Hnd Hsafe.
  destruct o as [cfg|[u|]|[u|]|u r c|unit r c|unit| |r c|]; cbn [step].
  - exact Hnd.
  - simpl. apply list.NoDup_app. split; [exact Hnd|]. split.
    + intros x Hx Hxu. apply list_elem_of_singleton in Hxu as ->. auto.
    + apply NoDup_singleton.
  - exact Hnd.
  - destruct (indexOf_spec u (units s)) as [[Hi _]|(l1 & l2 & _ & _ & Hi)].
    + unfold removeUnit. rewrite Hi. exact Hnd.
    + rewrite removeUnit_true by lia. simpl.
      eapply sublist_NoDup; [exact Hnd|apply sublist_delete].
  - exact Hnd.
  - destruct (placeUnit s u r c).1 eqn:Hres.
    + destruct (placeUnit_effects_core s u r c) as [_ Heff].
      destruct (Heff Hres) as (_ & _ & _ & _ & _ & _ & _ & _ & _ & H & _).
      apply H. exact Hnd.
    + rewrite placeUnit_false by exact Hres. exact Hnd.
  - rewrite (proj1 (moveUnit_units s unit r c)). exact Hnd.
  - rewrite selectUnit_units. exact Hnd.
  - exact Hnd.
  - rewrite toggleCellState_units. exact Hnd.
  - exact Hnd.
Qed.

(** The roster never acquires a duplicate except through [addUnit]: along
    any sequence of the mutation operations in which [addUnit] is never
    given a unit that is already in the roster, a roster without duplicates
    stays without duplicates. *)
Theorem roster_without_duplicates (s : MapState) (ops : list Op) :
  NoDup (units s) →
  addsOnlyNewUnits s ops →
  NoDup (units (run ops s)).
Proof.
  unfold run. revert s.
  induction ops as [|o ops IH]; intros s Hnd Hsafe; simpl.
  - exact Hnd.
  - destruct Hsafe as [Ho Hrest].
    apply IH; [|exact Hrest]. apply step_units_NoDup; assumption.
Qed.

Lemma roster_without_duplicates_witness :
  NoDup
    (units
       (run [OpAddUnit (Some 3%nat); OpPlaceUnit 3%nat 0 1;
             OpPlaceUnit 0%nat 0 2; OpRemoveUnit (Some 3%nat);
             OpAddUnit (Some 3%nat)]
          rowOfFour)).
Proof.
  apply (roster_without_duplicates rowOfFour).
  - vm_compute. apply NoDup_singleton.
  - vm_compute. repeat split; intros H; repeat (inversion H; subst; clear H;
      match goal with H' : _ ∈ _ |- _ => rename H' into H | _ => idtac end).
Defined.

Lemma getCell_ext (g g' : Grid) (r c : Z) :
  cellAt g r c = cellAt g' r c → getCell g r c = getCell g' r c.
Proof.
  intros H. unfold getCell. rewrite !cellExists_cellAt, H. reflexivity.
Qed.

Lemma placeAll_unplaced_units_core (s : MapState) (l : list (UnitRef * Z * Z)) :
  NoDup (map (λ p, p.1.1) l) →
  NoDup (map (λ p, (p.1.2, p.2)) l) →
  (∀ u r c, (u, r, c) ∈ l →
     Unit.position (store s u) = {| row := -1; col := -1 |}
     ∧ (u ∉ units s)
     ∧ ∃ cell, getCell (cells s) r c = Some cell ∧ Cell.unit cell = None) →
  (∀ u r c, (u, r, c) ∈ l →
     Unit.position (store (placeAll s l) u) = {| row := r; col := c |}
     ∧ ∃ cell', getCell (cells (placeAll s l)) r c = Some cell'
         ∧ Cell.unit cell' = Some u)
  ∧ (∀ v, v ∉ map (λ p, p.1.1) l → store (placeAll s l) v = store s v)
  ∧ (∀ r c, (r, c) ∉ map (λ p, (p.1.2, p.2)) l →
       cellAt (cells (placeAll s l)) r c = cellAt (cells s) r c)
  ∧ units (placeAll s l) = units s ++ map (λ p, p.1.1) l
  ∧ selectedUnit (placeAll s l) = selectedUnit s
  ∧ currentTurn (placeAll s l) = currentTurn s.
Proof.
  unfold placeAll. revert s.
  induction l as [|[[u r] c] l IH]; intros s Hrefs Htargets Hfresh.
  - simpl. split; [intros u r c H; inversion H|].
    rewrite app_nil_r. repeat split.
  - cbn [fold_left map fst snd] in *.
    apply list.NoDup_cons in Hrefs as [Hu Hrefs].
    apply list.NoDup_cons in Htargets as [Hrc Htargets].
    destruct (Hfresh u r c ltac:(left)) as (Hpos & Hnew & cell & Hget & Hunit).
    destruct (placeUnit_true s u r c cell Hget Hunit)
      as (st' & Hplace & Hstu & Hother).
    rewrite Hpos in Hplace. simpl in Hplace.
    rewrite (setCellUnit_negative None (cells s) (-1) (-1) eq_refl) in Hplace.
    assert (Hinc : includes u (units s) = false)
      by (apply bool_decide_eq_false; exact Hnew).
    rewrite Hinc in Hplace. rewrite Hplace. cbn [snd].
    set (s1 := {| cells := _ |}).
    assert (Hfresh1 : ∀ v r' c', (v, r', c') ∈ l →
              Unit.position (store s1 v) = {| row := -1; col := -1 |}
              ∧ (v ∉ units s1)
              ∧ ∃ cell1, getCell (cells s1) r' c' = Some cell1
                  ∧ Cell.unit cell1 = None).
    { intros v r' c' Hin.
      destruct (Hfresh v r' c' ltac:(right; exact Hin))
        as (Hpv & Hnv & cellv & Hgv & Huv).
      assert (Hvu : v ≠ u).
      { intros ->. apply Hu. apply list_elem_of_fmap.
        exists (u, r', c'). auto. }
      assert (Hne : ¬ (r = r' ∧ c = c')).
      { intros [-> ->]. apply Hrc. apply list_elem_of_fmap.
        exists (v, r', c'). auto. }
      unfold s1. simpl. split; [rewrite Hother by exact Hvu; exact Hpv|].
      split.
      - apply not_elem_of_app. split; [exact Hnv|].
        intros Hx. apply list_elem_of_singleton in Hx. auto.
      - exists cellv. split; [|exact Huv].
        rewrite getCell_updCell by reflexivity.
        rewrite decide_False by exact Hne. exact Hgv. }
    destruct (IH s1 Hrefs Htargets Hfresh1)
      as (Hplaced & Hst & Hcells & Hunits & Hsel & Hturn).
    split; [|split; [|split; [|split; [|split]]]].
    + intros v r' c' Hin. apply elem_of_cons in Hin as [Heq|Hin].
      * injection Heq as -> -> ->.
        rewrite (Hst u Hu). split; [unfold s1; simpl; rewrite Hstu; reflexivity|].
        exists (Cell.setUnit (Some u) cell). split; [|reflexivity].
        rewrite (getCell_ext _ (cells s1)) by (apply Hcells; exact Hrc).
        unfold s1. simpl. rewrite getCell_updCell by reflexivity.
        rewrite decide_True by auto. rewrite Hget. reflexivity.
      * apply Hplaced. exact Hin.
    + intros v Hv. apply not_elem_of_cons in Hv as [Hvu Hv].
      rewrite (Hst v Hv). unfold s1. simpl. apply Hother. exact Hvu.
    + intros r' c' Hn. apply not_elem_of_cons in Hn as [Hne Hn].
      rewrite (Hcells r' c' Hn). unfold s1. simpl.
      rewrite cellAt_updCell.
      rewrite decide_False by (intros [-> ->]; apply Hne; reflexivity).
      reflexivity.
    + rewrite Hunits. unfold s1. simpl. rewrite <- app_assoc. reflexivity.
    + rewrite Hsel. reflexivity.
    + rewrite Hturn. reflexivity.
Qed.

(** Placing units that are not yet on the board (position (-1,-1)) and not
    in the roster, each on its own free visible cell: every placement takes
    effect.  Afterwards each unit is at its cell and the cell refers to it,
    the roster has grown by the units in the order of placement, and all
    other unit objects and all other cells are as before. *)
Theorem placeAll_unplaced_units (s : MapState) (l : list (UnitRef * Z * Z)) :
  NoDup (map (λ p, p.1.1) l) →
  NoDup (map (λ p, (p.1.2, p.2)) l) →
  (∀ u r c, (u, r, c) ∈ l →
     Unit.position (store s u) = {| row := -1; col := -1 |}
     ∧ (u ∉ units s)
     ∧ ∃ cell, getCell (cells s) r c = Some cell ∧ Cell.unit cell = None) →
  (∀ u r c, (u, r, c) ∈ l →
     Unit.position (store (placeAll s l) u) = {| row := r; col := c |}
     ∧ ∃ cell', getCell (cells (placeAll s l)) r c = Some cell'
         ∧ Cell.unit cell' = Some u)
  ∧ (∀ v, v ∉ map (λ p, p.1.1) l → store (placeAll s l) v = store s v)
  ∧ (∀ r c, (r, c) ∉ map (λ p, (p.1.2, p.2)) l →
       cellAt (cells (placeAll s l)) r c = cellAt (cells s) r c)
  ∧ units (placeAll s l) = units s ++ map (λ p, p.1.1) l
  ∧ selectedUnit (placeAll s l) = selectedUnit s
  ∧ currentTurn (placeAll s l) = currentTurn s.
Proof. apply placeAll_unplaced_units_core. Qed.

Lemma initializeUnits_placeAll (s : MapState) (base : UnitRef) :
  initializeUnits s base
  = placeAll (createdUnits s base)
      (map (λ p, ((base + p.1.1)%nat, p.1.2, p.2)) setupCells).
Proof.
  unfold initializeUnits, placeAll, createdUnits, setupCells.
  cbn [map fold_left fst snd]. rewrite Nat.add_0_r. reflexivity.
Qed.

Lemma createdUnits_store (s : MapState) (base k : nat) (r c : Z) :
  (k, r, c) ∈ setupCells →
  Unit.position (store (createdUnits s base) (base + k)%nat)
  = {| row := -1; col := -1 |}
  ∧ Unit.owner (store (createdUnits s base) (base + k)%nat) = setupOwner k
  ∧ Unit.movementRemaining (store (createdUnits s base) (base + k)%nat)
    = Unit.movement (store (createdUnits s base) (base + k)%nat)
  ∧ Unit.health (store (createdUnits s base) (base + k)%nat)
    = Unit.maxHealth (store (createdUnits s base) (base + k)%nat).
Proof.
  intros Hin. unfold createdUnits, newUnit. cbn [store withStore].
  unfold setupCells in Hin.
  repeat (apply elem_of_cons in Hin as [Heq|Hin];
          [injection Heq as -> -> ->;
           rewrite ?Nat.add_0_r;
           repeat (rewrite fn_lookup_insert_ne by lia);
           rewrite fn_lookup_insert; repeat split|]).
  inversion Hin.
Qed.

Lemma placeUnit_stats (s : MapState) (u : UnitRef) (r c : Z) (v : UnitRef) :
  Unit.owner (store (placeUnit s u r c).2 v) = Unit.owner (store s v)
  ∧ Unit.movementRemaining (store (placeUnit s u r c).2 v)
    = Unit.movementRemaining (store s v)
  ∧ Unit.movement (store (placeUnit s u r c).2 v) = Unit.movement (store s v)
  ∧ Unit.health (store (placeUnit s u r c).2 v) = Unit.health (store s v)
  ∧ Unit.maxHealth (store (placeUnit s u r c).2 v)
    = Unit.maxHealth (store s v).
Proof.
  destruct (placeUnit s u r c).1 eqn:Hres.
  - apply placeUnit_succeeds_iff in Hres as (target & Hget & Hunit).
    destruct (placeUnit_true s u r c target Hget Hunit)
      as (st' & -> & Hu & Hother).
    cbn [snd store]. destruct (decide (v = u)) as [->|Hne].
    + rewrite Hu. repeat split.
    + rewrite Hother by exact Hne. repeat split.
  - rewrite placeUnit_false by exact Hres. repeat split.
Qed.

Lemma placeAll_stats (s : MapState) (l : list (UnitRef * Z * Z))
    (v : UnitRef) :
  Unit.owner (store (placeAll s l) v) = Unit.owner (store s v)
  ∧ Unit.movementRemaining (store (placeAll s l) v)
    = Unit.movementRemaining (store s v)
  ∧ Unit.movement (store (placeAll s l) v) = Unit.movement (store s v)
  ∧ Unit.health (store (placeAll s l) v) = Unit.health (store s v)
  ∧ Unit.maxHealth (store (placeAll s l) v) = Unit.maxHealth (store s v).
Proof.
  unfold placeAll. revert s.
  induction l as [|[[u r] c] l IH]; intros s; cbn [fold_left fst snd].
  - repeat split.
  - destruct (IH (placeUnit s u r c).2) as (E1 & E2 & E3 & E4 & E5).
    destruct (placeUnit_stats s u r c v) as (F1 & F2 & F3 & F4 & F5).
    repeat split; congruence.
Qed.

(** The start of the game.  If the mask shows the ten cells that
    [initializeUnits] uses as visible, then after loading every one of its
    placements has taken effect: the roster consists of the ten new units
    in the order of creation, each stands on its cell with full health and
    full movement, the first five are the player's and the rest the AI's,
    every other cell is unoccupied, nothing is selected and it is the
    player's turn. *)
Theorem startGame_places_every_unit
    (gridConfig : list (list Z)) (st : UnitRef → Unit.t) (base : UnitRef) :
  (∀ k r c, (k, r, c) ∈ setupCells → maskAt gridConfig r c = Some 1) →
  units (startGame gridConfig st base)
  = map (λ p, (base + p.1.1)%nat) setupCells
  ∧ (∀ k r c, (k, r, c) ∈ setupCells →
       Unit.position (store (startGame gridConfig st base) (base + k)%nat)
       = {| row := r; col := c |}
       ∧ Unit.owner (store (startGame gridConfig st base) (base + k)%nat)
         = setupOwner k
       ∧ Unit.movementRemaining
           (store (startGame gridConfig st base) (base + k)%nat)
         = Unit.movement (store (startGame gridConfig st base) (base + k)%nat)
       ∧ Unit.health (store (startGame gridConfig st base) (base + k)%nat)
         = Unit.maxHealth
             (store (startGame gridConfig st base) (base + k)%nat)
       ∧ ∃ cell, getCell (cells (startGame gridConfig st base)) r c = Some cell
           ∧ Cell.unit cell = Some (base + k)%nat)
  ∧ (∀ r c cell,
       (r, c) ∉ map (λ p, (p.1.2, p.2)) setupCells →
       cellAt (cells (startGame gridConfig st base)) r c = Some cell →
       Cell.unit cell = None)
  ∧ selectedUnit (startGame gridConfig st base) = None
  ∧ currentTurn (startGame gridConfig st base) = TurnPlayer.
Proof.
  intros Hmask. unfold startGame. rewrite initializeUnits_placeAll.
  set (s0 := initializeCellStates gridConfig (mapState st)).
  set (l := map (λ p, ((base + p.1.1)%nat, p.1.2, p.2)) setupCells).
  assert (Hl1 : map (λ p, p.1.1) l = map (λ p, (base + p.1.1)%nat) setupCells)
    by reflexivity.
  assert (Hl2 : map (λ p, (p.1.2, p.2)) l
                = map (λ p, (p.1.2, p.2)) setupCells) by reflexivity.
  assert (Hmem : ∀ u r c, (u, r, c) ∈ l →
            ∃ k, u = (base + k)%nat ∧ (k, r, c) ∈ setupCells).
  { intros u r c Hin. apply list_elem_of_fmap in Hin as ([[k r'] c'] & Heq & Hin).
    injection Heq as -> -> ->. eauto. }
  destruct (placeAll_unplaced_units_core (createdUnits s0 base) l)
    as (Hplaced & Hst & Hcells & Hunits & Hsel & Hturn).
  - rewrite Hl1. unfold setupCells. cbn [map fst snd].
    repeat (apply NoDup_cons_2;
            [rewrite ?elem_of_cons, elem_of_nil; lia|]).
    apply NoDup_nil_2.
  - rewrite Hl2. unfold setupCells. cbn [map fst snd].
    repeat (apply NoDup_cons_2;
            [rewrite ?elem_of_cons, elem_of_nil;
             intros H; repeat (destruct H as [H|H]; [discriminate|]);
             contradiction|]).
    apply NoDup_nil_2.
  - intros u r c Hin. destruct (Hmem u r c Hin) as (k & -> & Hk).
    split; [apply (createdUnits_store s0 base k r c Hk)|].
    split; [apply not_elem_of_nil|].
    destruct (initializeCellStates_follows_mask_core gridConfig (mapState st) r c)
      as (Hat & _).
    rewrite (Hmask k r c Hk) in Hat. simpl in Hat.
    eexists. split; [apply getCell_Some; split; [exact Hat|reflexivity]|].
    reflexivity.
  - split; [rewrite Hunits; reflexivity|].
    split.
    { intros k r c Hk.
      assert (Hin : ((base + k)%nat, r, c) ∈ l).
      { apply list_elem_of_fmap. exists (k, r, c). auto. }
      destruct (Hplaced _ _ _ Hin) as [Hpos Hcell].
      destruct (createdUnits_store s0 base k r c Hk) as (_ & Ho & Hm & Hh).
      destruct (placeAll_stats (createdUnits s0 base) l (base + k)%nat)
        as (E1 & E2 & E3 & E4 & E5).
      split; [exact Hpos|].
      split; [rewrite E1; exact Ho|].
      split; [rewrite E2, E3; exact Hm|].
      split; [rewrite E4, E5; exact Hh|].
      exact Hcell. }
    split; [|split; [rewrite Hsel; reflexivity|rewrite Hturn; reflexivity]].
    intros r c cell Hn Hat. rewrite Hcells in Hat by (rewrite Hl2; exact Hn).
    destruct (cellAt_initialize gridConfig (mapState st) r c cell Hat)
      as (_ & _ & Hu & _).
    exact Hu.
Qed.

Lemma placeAll_unplaced_units_witness :
  units
    (placeAll (initializeCellStates [[1; 1]] (mapState soldiers))
       [(0%nat, 0, 0); (1%nat, 0, 1)])
  = [0%nat; 1%nat].
Proof.
  refine (proj1 (proj2 (proj2 (proj2
    (placeAll_unplaced_units
       (initializeCellStates [[1; 1]] (mapState soldiers))
       [(0%nat, 0, 0); (1%nat, 0, 1)] _ _ _))))).
  - vm_compute. repeat constructor; intros H;
      repeat (inversion H; subst; clear H;
              match goal with H' : _ ∈ _ |- _ => rename H' into H
                         | _ => idtac end).
  - vm_compute. repeat constructor; intros H;
      repeat (inversion H; subst; clear H;
              match goal with H' : _ ∈ _ |- _ => rename H' into H
                         | _ => idtac end).
  - intros u r c Hin.
    repeat (apply elem_of_cons in Hin as [Heq|Hin];
            [injection Heq as -> -> ->;
             split; [reflexivity|];
             split; [apply not_elem_of_nil|];
             eexists; split; reflexivity|]).
    inversion Hin.
Defined.

Lemma startGame_places_every_unit_witness :
  units (startGame defaultGridConfig soldiers 0%nat)
  = map (λ p, (0 + p.1.1)%nat) setupCells.
Proof.
  refine (proj1 (startGame_places_every_unit defaultGridConfig soldiers
                   0%nat _)).
  intros k r c Hin. unfold setupCells in Hin.
  repeat (apply elem_of_cons in Hin as [Heq|Hin];
          [injection Heq as -> -> ->; reflexivity|]).
  inversion Hin.
Defined.

(** ** Turn switching *)

Lemma endTurn_store (s : MapState) (u : UnitRef) :
  store (endTurn s).1 u
  = if bool_decide (u ∈ units s)
       && ownerIsTurn (Unit.owner (store s u)) (flipTurn (currentTurn s))
    then Unit.resetTurn (store s u) else store s u.
Proof. unfold endTurn. simpl. apply resetTurn_fold. Qed.

(** [endTurn] clears the selection and every highlight and changes no
    other cell flag and no unit reference.  It never touches a unit that is
    not in the roster, nor a neutral unit, and it changes no unit's
    position, health or owner.  Two calls in a row give the turn back to
    the side that had it, and after them every roster unit of the player or
    of the AI has its full movement and may attack. *)
Theorem endTurn_frame_and_round (s : MapState) :
  selectedUnit (endTurn s).1 = None
  ∧ (∀ r c,
       cellAt (cells (endTurn s).1) r c
       = Cell.setHighlighted false <$> cellAt (cells s) r c)
  ∧ (∀ u, u ∉ units s → store (endTurn s).1 u = store s u)
  ∧ (∀ u, Unit.owner (store s u) = NEUTRAL →
       store (endTurn s).1 u = store s u)
  ∧ (∀ u, Unit.position (store (endTurn s).1 u) = Unit.position (store s u)
          ∧ Unit.health (store (endTurn s).1 u) = Unit.health (store s u)
          ∧ Unit.owner (store (endTurn s).1 u) = Unit.owner (store s u))
  ∧ currentTurn (endTurn (endTurn s).1).1 = currentTurn s
  ∧ ∀ u, u ∈ units s →
      Unit.owner (store s u) ≠ NEUTRAL →
      Unit.movementRemaining (store (endTurn (endTurn s).1).1 u)
      = Unit.movement (store s u)
      ∧ Unit.hasAttacked (store (endTurn (endTurn s).1).1 u) = false.
Proof.
  split; [reflexivity|].
  split; [intros r c; apply cellAt_clear|].
  split.
  { intros u Hn. rewrite endTurn_store.
    rewrite bool_decide_eq_false_2 by exact Hn. reflexivity. }
  split.
  { intros u Ho. rewrite endTurn_store, Ho.
    rewrite andb_false_r. reflexivity. }
  split.
  { intros u. rewrite endTurn_store. destruct (_ && _); repeat split. }
  split.
  { unfold endTurn. simpl. destruct (currentTurn s); reflexivity. }
  intros u Hin Ho.
  rewrite endTurn_store.
  assert (Hu1 : units (endTurn s).1 = units s) by reflexivity.
  assert (Ht1 : currentTurn (endTurn s).1 = flipTurn (currentTurn s))
    by reflexivity.
  rewrite Hu1, Ht1, (bool_decide_eq_true_2 _ Hin).
  rewrite (endTurn_store s u), (bool_decide_eq_true_2 _ Hin).
  destruct (Unit.owner (store s u)) eqn:Hown; [| |contradiction];
    destruct (currentTurn s); simpl; rewrite ?Hown; simpl; auto.
Qed.

(** ** The event loop *)

Lemma findClickedInRow_spec (hit : Z → Z → bool) (ri ci : Z)
    (rw : list Cell.t) (cell : Cell.t) (r c : Z) :
  findClickedInRow hit ri ci rw = Some (cell, r, c) →
  r = ri ∧ ci <= c ∧ rw !! Z.to_nat (c - ci) = Some cell
  ∧ Cell.isVisible cell = true ∧ hit r c = true.
Proof.
  revert ci. induction rw as [|x rw IH]; intros ci; simpl; [discriminate|].
  assert (Hrec : findClickedInRow hit ri (ci + 1) rw = Some (cell, r, c) →
            r = ri ∧ ci <= c ∧ (x :: rw) !! Z.to_nat (c - ci) = Some cell
            ∧ Cell.isVisible cell = true ∧ hit r c = true).
  { intros H. destruct (IH _ H) as (-> & Hle & Hl & Hv & Hh).
    split; [reflexivity|]. split; [lia|]. split; [|auto].
    replace (Z.to_nat (c - ci)) with (S (Z.to_nat (c - (ci + 1)))) by lia.
    exact Hl. }
  destruct (Cell.isVisible x) eqn:Hv; simpl; [|exact Hrec].
  destruct (hit ri ci) eqn:Hh; [|exact Hrec].
  intros [= <- <- <-]. rewrite Z.sub_diag. simpl. repeat split; auto. lia.
Qed.

Lemma findClicked_spec (hit : Z → Z → bool) (ri : Z) (g : Grid)
    (cell : Cell.t) (r c : Z) :
  findClicked hit ri g = Some (cell, r, c) →
  ri <= r ∧ 0 <= c
  ∧ (g !! Z.to_nat (r - ri) ≫= λ rw, rw !! Z.to_nat c) = Some cell
  ∧ Cell.isVisible cell = true ∧ hit r c = true.
Proof.
  revert ri. induction g as [|rw g IH]; intros ri; simpl; [discriminate|].
  destruct (findClickedInRow hit ri 0 rw) as [[[x r'] c']|] eqn:Hrow.
  - intros [= -> -> ->].
    destruct (findClickedInRow_spec _ _ _ _ _ _ _ Hrow)
      as (-> & Hle & Hl & Hv & Hh).
    split; [lia|]. split; [exact Hle|]. rewrite Z.sub_diag. simpl.
    rewrite Z.sub_0_r in Hl. auto.
  - intros H. destruct (IH _ H) as (Hle & Hc & Hl & Hv & Hh).
    split; [lia|]. split; [exact Hc|]. split; [|auto].
    replace (Z.to_nat (r - ri)) with (S (Z.to_nat (r - (ri + 1)))) by lia.
    exact Hl.
Qed.

Lemma findClicked_cellAt (hit : Z → Z → bool) (g : Grid) (cell : Cell.t)
    (r c : Z) :
  findClicked hit 0 g = Some (cell, r, c) →
  cellAt g r c = Some cell ∧ Cell.isVisible cell = true ∧ hit r c = true.
Proof.
  intros H. destruct (findClicked_spec _ _ _ _ _ _ H)
    as (Hr & Hc & Hl & Hv & Hh).
  split; [|auto]. unfold cellAt.
  destruct (0 <=? r) eqn:Er; [|lia]. destruct (0 <=? c) eqn:Ec; [|lia].
  simpl. rewrite Z.sub_0_r in Hl. exact Hl.
Qed.

Lemma gameInv_selectUnit (s : MapState) (unit : option UnitRef) :
  gameInv s →
  (∀ u, unit = Some u → Unit.owner (store s u) = PLAYER) →
  gameInv (selectUnit s unit).
Proof.
  intros (Hst & _ & _) Hown.
  destruct (selectUnit_highlights_exactly_reachable_core s unit
              (stateInv_gridWf s Hst)) as (E1 & _ & _ & E2 & _ & Hhl).
  split; [apply stateInv_selectUnit; exact Hst|].
  split.
  - intros r c cell Hat. rewrite E1, E2. apply Hhl. exact Hat.
  - intros u Hu. rewrite E1 in Hu. rewrite E2. apply Hown. exact Hu.
Qed.

Lemma moveUnit_position (s : MapState) (u : UnitRef) (r c : Z) :
  (moveUnit s (Some u) r c).1 = true →
  Unit.position (store (moveUnit s (Some u) r c).2 u) = {| row := r; col := c |}
  ∧ Unit.owner (store (moveUnit s (Some u) r c).2 u) = Unit.owner (store s u).
Proof.
  intros Hok. apply moveUnit_succeeds_iff in Hok
    as (u' & target & [= <-] & Hget & Hunit & Hmr).
  destruct (moveUnit_true s u r c target Hget Hunit Hmr) as (g' & -> & _).
  simpl. rewrite fn_lookup_insert. unfold Unit.move.
  destruct (1 <=? _) eqn:Hle; [split; reflexivity|lia].
Qed.

Lemma gameInv_moveUnit_selected (s : MapState) (u : UnitRef) (r c : Z) :
  gameInv s → selectedUnit s = Some u →
  gameInv (moveUnit s (Some u) r c).2.
Proof.
  intros Hinv Hsel.
  destruct (moveUnit s (Some u) r c).1 eqn:Hres;
    [|rewrite moveUnit_false by exact Hres; exact Hinv].
  destruct Hinv as (Hst & _ & Hown).
  destruct (moveUnit_highlights_from_new_position_core s u r c
              (stateInv_gridWf s Hst) Hres) as (_ & E1 & _ & _ & Hhl).
  destruct (moveUnit_position s u r c Hres) as [Hpos Ho].
  split; [apply stateInv_moveUnit; exact Hst|].
  split.
  - intros r' c' cell Hat. rewrite (Hhl r' c' cell Hat). rewrite E1, Hsel.
    split.
    + intros [Hp Hd]. exists u. rewrite Hpos. auto.
    + intros (v & [= <-] & Hp & Hd). rewrite Hpos in Hd. auto.
  - intros v Hv. rewrite E1, Hsel in Hv. injection Hv as <-.
    rewrite Ho. apply Hown. exact Hsel.
Qed.

Lemma highlightsOk_none (s : MapState) :
  selectedUnit s = None → (highlightsOk s ↔ noHighlights s).
Proof.
  intros Hsel. split.
  - intros H r c cell Hat. destruct (Cell.isHighlighted cell) eqn:Hh;
      [|reflexivity].
    apply (H r c cell Hat) in Hh as (u & Hu & _). congruence.
  - intros H r c cell Hat. rewrite (H r c cell Hat).
    split; [discriminate|]. intros (u & Hu & _). congruence.
Qed.

Lemma gameInv_toggleCellState (s : MapState) (r c : Z) :
  gameInv s → selectedUnit s = None →
  gameInv (toggleCellState s r c).2.
Proof.
  intros (Hst & Hhl & Hown) Hsel.
  destruct (getCell (cells s) r c) as [cell|] eqn:Hg;
    [|rewrite (toggleCellState_no_cell s r c Hg);
      split; [exact Hst|split; [exact Hhl|exact Hown]]].
  split; [apply stateInv_toggleCellState; exact Hst|].
  rewrite (toggleCellState_visible s r c cell Hg). simpl.
  split; [|intros u Hu; congruence].
  apply highlightsOk_none; [exact Hsel|].
  apply (highlightsOk_none s Hsel) in Hhl.
  intros r' c' x Hat. simpl in Hat. rewrite cellAt_updCell in Hat.
  destruct (decide _); [|apply (Hhl r' c' x Hat)].
  destruct (cellAt (cells s) r' c') as [y|] eqn:Hy; [|discriminate].
  simpl in Hat. injection Hat as <-. simpl. apply (Hhl r' c' y Hy).
Qed.

Lemma gameInv_endTurn (s : MapState) : gameInv s → gameInv (endTurn s).1.
Proof.
  intros (Hst & _ & _).
  split; [apply stateInv_endTurn; exact Hst|].
  split; [|intros u Hu; discriminate].
  apply highlightsOk_none; [reflexivity|].
  intros r c cell Hat.
  change (cells (endTurn s).1)
    with (map (map (Cell.setHighlighted false)) (cells s)) in Hat.
  rewrite cellAt_clear in Hat.
  destruct (cellAt (cells s) r c); [|discriminate].
  injection Hat as <-. reflexivity.
Qed.

Lemma gameInv_handleCellInteraction (s : MapState) (cell : Cell.t)
    (r c : Z) :
  gameInv s → currentTurn s = TurnPlayer →
  gameInv (handleCellInteraction s cell r c).
Proof.
  intros Hinv Hturn. unfold handleCellInteraction.
  destruct (selectedUnit s) as [sel|] eqn:Hsel.
  - destruct (bool_decide (Cell.unit cell = Some sel)).
    { apply gameInv_selectUnit; [exact Hinv|]. intros u Hu. discriminate. }
    destruct (unitOwnerIs s (Cell.unit cell) _) eqn:Hown.
    { apply gameInv_selectUnit; [exact Hinv|].
      intros u Hu. rewrite Hu in Hown. simpl in Hown.
      destruct (Unit.owner (store s u)); [reflexivity|discriminate..]. }
    destruct (Cell.isHighlighted cell).
    { apply gameInv_moveUnit_selected; assumption. }
    apply gameInv_selectUnit; [exact Hinv|]. intros u Hu. discriminate.
  - destruct (unitOwnerIs s (Cell.unit cell) _) eqn:Hown.
    + apply gameInv_selectUnit; [exact Hinv|].
      intros u Hu. rewrite Hu, Hturn in Hown. simpl in Hown.
      destruct (Unit.owner (store s u)); [reflexivity|discriminate..].
    + apply gameInv_toggleCellState; assumption.
Qed.

Lemma handleClick_cases (s : MapState) (d m b : bool) (hit : Z → Z → bool) :
  handleClick s d m b hit = s
  ∨ (currentTurn s = TurnPlayer
     ∧ ∃ cell r c, cellAt (cells s) r c = Some cell
         ∧ Cell.isVisible cell = true
         ∧ handleClick s d m b hit = handleCellInteraction s cell r c).
Proof.
  unfold handleClick. destruct (d || m); [auto|].
  destruct (currentTurn s) eqn:Hturn; [|auto].
  destruct b; [auto|].
  destruct (findClicked hit 0 (cells s)) as [[[cell r] c]|] eqn:Hf; [|auto].
  right. split; [reflexivity|]. exists cell, r, c.
  destruct (findClicked_cellAt _ _ _ _ _ Hf) as (Hat & Hv & _). auto.
Qed.

Lemma handleCellInteraction_turn (s : MapState) (cell : Cell.t) (r c : Z) :
  currentTurn (handleCellInteraction s cell r c) = currentTurn s
  ∧ units (handleCellInteraction s cell r c) = units s.
Proof.
  assert (Hsel : ∀ unit, currentTurn (selectUnit s unit) = currentTurn s
                          ∧ units (selectUnit s unit) = units s).
  { intros unit. unfold selectUnit.
    destruct (highlightMovementRange_frame
                (clearHighlightedCells (withSelectedUnit s unit)) unit)
      as (g2 & -> & _). split; reflexivity. }
  unfold handleCellInteraction.
  destruct (selectedUnit s) as [sel|].
  - destruct (bool_decide _); [apply Hsel|].
    destruct (unitOwnerIs s (Cell.unit cell) _); [apply Hsel|].
    destruct (Cell.isHighlighted cell); [|apply Hsel].
    destruct (moveUnit_units s (Some sel) r c) as (E1 & _ & E2). auto.
  - destruct (unitOwnerIs s (Cell.unit cell) _); [apply Hsel|].
    destruct (getCell (cells s) r c) as [x|] eqn:Hg.
    + rewrite (toggleCellState_visible s r c x Hg). split; reflexivity.
    + rewrite (toggleCellState_no_cell s r c Hg). split; reflexivity.
Qed.

Lemma worldInv_step (w : World) (e : Event) :
  worldInv w → worldInv (worldStep w e).
Proof.
  intros [Hg Hp]. destruct e as [d m b hit| |]; simpl.
  - destruct (handleClick_cases (game w) d m b hit)
      as [->|(Hturn & cell & r & c & _ & _ & ->)].
    + split; assumption.
    + split; [apply gameInv_handleCellInteraction; assumption|]. simpl.
      rewrite (proj1 (handleCellInteraction_turn (game w) cell r c)).
      exact Hp.
  - split; [apply gameInv_endTurn; exact Hg|]. simpl.
    destruct (currentTurn (game w)); simpl; [lia|discriminate].
  - destruct (pendingAI w) as [|n] eqn:Hn; [split; [exact Hg|]|].
    + rewrite Hn. exact Hp.
    + split; [apply gameInv_endTurn; exact Hg|]. simpl.
      destruct (currentTurn (game w)); simpl; [lia|discriminate].
Qed.

Lemma worldInv_run (events : list Event) (w : World) :
  worldInv w → worldInv (worldRun events w).
Proof.
  unfold worldRun. revert w.
  induction events as [|e events IH]; intros w H; simpl; [exact H|].
  apply IH, worldInv_step, H.
Qed.

Lemma placeUnit_frame (s : MapState) (u : UnitRef) (r c : Z) :
  selectedUnit (placeUnit s u r c).2 = selectedUnit s
  ∧ currentTurn (placeUnit s u r c).2 = currentTurn s
  ∧ (noHighlights s → noHighlights (placeUnit s u r c).2).
Proof.
  destruct (placeUnit s u r c).1 eqn:Hres.
  - apply placeUnit_succeeds_iff in Hres as (target & Hget & Hunit).
    destruct (placeUnit_true s u r c target Hget Hunit) as (st' & -> & _).
    cbn [snd selectedUnit currentTurn].
    split; [reflexivity|]. split; [reflexivity|].
    intros Hno r' c' cell Hat. cbn [cells] in Hat.
    rewrite cellAt_updCell, cellAt_setCellUnit in Hat.
    destruct (cellAt (cells s) r' c') as [y|] eqn:Hy.
    + specialize (Hno r' c' y Hy).
      destruct (decide (r = r' ∧ c = c')); destruct (decide _);
        simpl in Hat; try destruct (Cell.isVisible y);
        injection Hat as <-; exact Hno.
    + destruct (decide (r = r' ∧ c = c')); destruct (decide _);
        discriminate.
  - rewrite placeUnit_false by exact Hres. auto.
Qed.

Lemma placeAll_frame (s : MapState) (l : list (UnitRef * Z * Z)) :
  selectedUnit (placeAll s l) = selectedUnit s
  ∧ currentTurn (placeAll s l) = currentTurn s
  ∧ (noHighlights s → noHighlights (placeAll s l))
  ∧ (stateInv s → stateInv (placeAll s l)).
Proof.
  unfold placeAll. revert s.
  induction l as [|[[u r] c] l IH]; intros s; cbn [fold_left fst snd].
  - auto.
  - destruct (IH (placeUnit s u r c).2) as (E1 & E2 & Hno & Hst).
    destruct (placeUnit_frame s u r c) as (F1 & F2 & Fno).
    split; [congruence|]. split; [congruence|].
    split; [auto|]. intros H. apply Hst, stateInv_placeUnit, H.
Qed.

Lemma worldInv_start (gridConfig : list (list Z)) (st : UnitRef → Unit.t)
    (base : UnitRef) :
  worldInv (startWorld gridConfig st base)
  ∧ currentTurn (game (startWorld gridConfig st base)) = TurnPlayer.
Proof.
  unfold startWorld, worldInv. cbn [game pendingAI].
  unfold startGame. rewrite initializeUnits_placeAll.
  set (s0 := createdUnits (initializeCellStates gridConfig (mapState st)) base).
  assert (Hcells : ∀ r c cell, cellAt (cells s0) r c = Some cell →
            Cell.rowIndex cell = r ∧ Cell.cellIndex cell = c
            ∧ Cell.unit cell = None ∧ Cell.isHighlighted cell = false).
  { intros r c cell Hat.
    destruct (cellAt_initialize gridConfig (mapState st) r c cell Hat)
      as (? & ? & ? & _ & ?). auto. }
  destruct (placeAll_frame s0
              (map (λ p, ((base + p.1.1)%nat, p.1.2, p.2)) setupCells))
    as (E1 & E2 & Hno & Hst).
  assert (Hturn : currentTurn
            (placeAll s0
               (map (λ p, ((base + p.1.1)%nat, p.1.2, p.2)) setupCells))
            = TurnPlayer) by (rewrite E2; reflexivity).
  split; [|exact Hturn].
  split; [|rewrite Hturn; discriminate].
  split; [|split].
  - apply Hst. intros r c cell Hat.
    destruct (Hcells r c cell Hat) as (Hr & Hc & Hu & _).
    split; [auto|]. intros u Hsome. congruence.
  - apply highlightsOk_none; [rewrite E1; reflexivity|].
    apply Hno. intros r c cell Hat. apply (Hcells r c cell Hat).
  - intros u Hu. rewrite E1 in Hu. discriminate.
Qed.

Lemma selectUnit_store (s : MapState) (unit : option UnitRef) :
  store (selectUnit s unit) = store s.
Proof.
  unfold selectUnit.
  destruct (highlightMovementRange_frame
              (clearHighlightedCells (withSelectedUnit s unit)) unit)
    as (g2 & -> & _).
  reflexivity.
Qed.

Lemma toggleCellState_store (s : MapState) (r c : Z) :
  store (toggleCellState s r c).2 = store s.
Proof.
  destruct (getCell (cells s) r c) as [x|] eqn:Hg.
  - rewrite (toggleCellState_visible s r c x Hg). reflexivity.
  - rewrite (toggleCellState_no_cell s r c Hg). reflexivity.
Qed.

Lemma moveUnit_store_other (s : MapState) (u : UnitRef) (r c : Z)
    (v : UnitRef) :
  v ≠ u → store (moveUnit s (Some u) r c).2 v = store s v.
Proof.
  intros Hne. destruct (moveUnit s (Some u) r c).1 eqn:Hres.
  - apply moveUnit_succeeds_iff in Hres
      as (u' & target & [= <-] & Hget & Hunit & Hmr).
    destruct (moveUnit_true s u r c target Hget Hunit Hmr) as (g' & -> & _).
    simpl. apply fn_lookup_insert_ne. auto.
  - rewrite moveUnit_false by exact Hres. reflexivity.
Qed.

(** In the running page the AI's turn always ends: in every state that
    clicks on the canvas, clicks on the End Turn button and firing callbacks
    lead to from the loaded page, if it is the AI's turn then a [runAITurn]
    callback is pending, and when one fires the turn is the player's
    again.  The roster is the one of the start throughout. *)
Theorem ai_turn_has_pending_callback
    (gridConfig : list (list Z)) (st : UnitRef → Unit.t) (base : UnitRef)
    (events : list Event) :
  (currentTurn (game (worldRun events (startWorld gridConfig st base)))
   = TurnAI →
   (1 <= pendingAI (worldRun events (startWorld gridConfig st base)))%nat
   ∧ currentTurn
       (game
          (worldStep (worldRun events (startWorld gridConfig st base))
             TimerFires))
     = TurnPlayer)
  ∧ units (game (worldRun events (startWorld gridConfig st base)))
    = units (game (startWorld gridConfig st base)).
Proof.
  split.
  - pose proof (worldInv_run events _
                  (proj1 (worldInv_start gridConfig st base))) as [_ Hp].
    intros Hai. specialize (Hp Hai). split; [exact Hp|].
    cbn [worldStep].
    destruct (pendingAI _) as [|n]; [lia|].
    cbn [game]. unfold runAITurn, endTurn. simpl. rewrite Hai. reflexivity.
  - generalize (startWorld gridConfig st base). intros w.
    unfold worldRun. revert w.
    induction events as [|e events IH]; intros w; simpl; [reflexivity|].
    rewrite IH. destruct e as [d m b hit| |]; simpl.
    + destruct (handleClick_cases (game w) d m b hit)
        as [->|(_ & cell & r & c & _ & _ & ->)]; [reflexivity|].
      apply handleCellInteraction_turn.
    + reflexivity.
    + destruct (pendingAI w); reflexivity.
Qed.

(** In the running page the selected unit, if any, is always one of the
    player's, and the highlighted cells are always exactly the cells within
    the movement range of the selected unit: a cell is highlighted if and
    only if some unit is selected, has movement left, and a path of at most
    [movementRemaining] steps over cells that are empty or its own leads
    from its position to the cell. *)
Theorem selection_is_players_and_highlights_are_its_range
    (gridConfig : list (list Z)) (st : UnitRef → Unit.t) (base : UnitRef)
    (events : list Event) :
  (∀ u,
     selectedUnit (game (worldRun events (startWorld gridConfig st base)))
     = Some u →
     Unit.owner
       (store (game (worldRun events (startWorld gridConfig st base))) u)
     = PLAYER)
  ∧ highlightsOk (game (worldRun events (startWorld gridConfig st base))).
Proof.
  pose proof (worldInv_run events _
                (proj1 (worldInv_start gridConfig st base)))
    as [(_ & Hhl & Hown) _].
  split; assumption.
Qed.

Lemma worldStep_moves_only_selected (w : World) (e : Event) (u : UnitRef) :
  worldInv w →
  Unit.position (store (game (worldStep w e)) u)
  ≠ Unit.position (store (game w) u) →
  (∃ d m b hit, e = ClickCanvas d m b hit)
  ∧ currentTurn (game w) = TurnPlayer
  ∧ selectedUnit (game w) = Some u
  ∧ Unit.owner (store (game w) u) = PLAYER
  ∧ Unit.movementRemaining (store (game (worldStep w e)) u)
    = Unit.movementRemaining (store (game w) u) - 1
  ∧ ∃ d, 0 <= d <= Unit.movementRemaining (store (game w) u)
      ∧ reach (cells (game w)) (emptyOrSelf u)
          (row (Unit.position (store (game w) u)))
          (col (Unit.position (store (game w) u))) d
          (row (Unit.position (store (game (worldStep w e)) u)))
          (col (Unit.position (store (game (worldStep w e)) u))).
Proof.
  intros [(Hst & Hhl & Hown) _] Hmoved.
  assert (Hend : Unit.position (store (endTurn (game w)).1 u)
                 = Unit.position (store (game w) u)).
  { rewrite endTurn_store. destruct (_ && _); reflexivity. }
  destruct e as [d m b hit| |]; cbn [worldStep game] in *.
  2: { contradiction. }
  2: { destruct (pendingAI w); cbn [game] in Hmoved; contradiction. }
  destruct (handleClick_cases (game w) d m b hit)
    as [E|(Hturn & cell & r & c & Hat & _ & E)];
    rewrite E in *; [contradiction|].
  unfold handleCellInteraction in *.
  destruct (selectedUnit (game w)) as [sel|] eqn:Hsel.
  2: { destruct (unitOwnerIs _ _ _);
         [rewrite selectUnit_store in Hmoved
         |rewrite toggleCellState_store in Hmoved]; contradiction. }
  destruct (bool_decide _);
    [rewrite selectUnit_store in Hmoved; contradiction|].
  destruct (unitOwnerIs _ _ _);
    [rewrite selectUnit_store in Hmoved; contradiction|].
  destruct (Cell.isHighlighted cell) eqn:Hhigh;
    [|rewrite selectUnit_store in Hmoved; contradiction].
  destruct (decide (u = sel)) as [->|Hne];
    [|rewrite moveUnit_store_other in Hmoved by exact Hne; contradiction].
  destruct (moveUnit (game w) (Some sel) r c).1 eqn:Hres;
    [|rewrite moveUnit_false in Hmoved by exact Hres; contradiction].
  destruct (moveUnit_position (game w) sel r c Hres) as [Hpos _].
  split; [eauto|]. split; [exact Hturn|]. split; [reflexivity|].
  split; [apply Hown; reflexivity|].
  split.
  { rewrite moveUnit_movementRemaining, Hres.
    rewrite bool_decide_eq_true_2 by reflexivity. reflexivity. }
  apply (Hhl r c cell Hat) in Hhigh as (v & Hv & _ & dd & Hd & Hreach).
  rewrite Hsel in Hv. injection Hv as <-. rewrite Hpos. simpl. eauto.
Qed.

(** In the running page a unit changes its position only by a click on the
    canvas during the player's turn, and only if it is the selected unit,
    which is the player's; the move costs one movement point and leads to
    a cell within the unit's movement range: a path of at most
    [movementRemaining] steps over cells that are empty or its own leads
    from the old position to the new one. *)
Theorem click_moves_selected_unit_within_range
    (gridConfig : list (list Z)) (st : UnitRef → Unit.t) (base : UnitRef)
    (events : list Event) (e : Event) (u : UnitRef) :
  Unit.position
    (store
       (game (worldStep (worldRun events (startWorld gridConfig st base)) e))
       u)
  ≠ Unit.position
      (store (game (worldRun events (startWorld gridConfig st base))) u) →
  (∃ d m b hit, e = ClickCanvas d m b hit)
  ∧ currentTurn (game (worldRun events (startWorld gridConfig st base)))
    = TurnPlayer
  ∧ selectedUnit (game (worldRun events (startWorld gridConfig st base)))
    = Some u
  ∧ Unit.owner
      (store (game (worldRun events (startWorld gridConfig st base))) u)
    = PLAYER
  ∧ Unit.movementRemaining
      (store
         (game (worldStep (worldRun events (startWorld gridConfig st base)) e))
         u)
    = Unit.movementRemaining
        (store (game (worldRun events (startWorld gridConfig st base))) u)
      - 1
  ∧ ∃ d,
      0 <= d
        <= Unit.movementRemaining
             (store (game (worldRun events (startWorld gridConfig st base))) u)
      ∧ reach
          (cells (game (worldRun events (startWorld gridConfig st base))))
          (emptyOrSelf u)
          (row (Unit.position
                  (store
                     (game (worldRun events
                              (startWorld gridConfig st base))) u)))
          (col (Unit.position
                  (store
                     (game (worldRun events
                              (startWorld gridConfig st base))) u))) d
          (row (Unit.position
                  (store
                     (game (worldStep
                              (worldRun events
                                 (startWorld gridConfig st base)) e)) u)))
          (col (Unit.position
                  (store
                     (game (worldStep
                              (worldRun events
                                 (startWorld gridConfig st base)) e)) u))).
Proof.
  apply worldStep_moves_only_selected.
  apply worldInv_run, worldInv_start.
Qed.

Lemma click_moves_selected_unit_within_range_witness :
  selectedUnit
    (game (worldRun [ClickCanvas false false false (hitAt 5 0)]
             (startWorld defaultGridConfig soldiers 0%nat)))
  = Some 0%nat.
Proof.
  refine (proj1 (proj2 (proj2
    (click_moves_selected_unit_within_range defaultGridConfig soldiers 0%nat
       [ClickCanvas false false false (hitAt 5 0)]
       (ClickCanvas false false false (hitAt 4 1)) 0%nat _)))).
  vm_compute. discriminate.
Defined.

(** ** The view state *)

Section ViewProperties.

Variable num : Type.
Variable leb : num → num → bool.
Variables add mul div : num → num → num.
Variable exp : num → num.
Variables one minusOne zoomIntensity : num.


End ViewProperties.


(** ** The shape of the grid is fixed *)

Lemma sameVisibility_trans (g1 g2 g3 : Grid) :
  sameVisibility g1 g2 → sameVisibility g2 g3 → sameVisibility g1 g3.
Proof. intros H1 H2 r c. rewrite H1. apply H2. Qed.

Lemma sameVisibility_updCell (f : Cell.t → Cell.t) (r c : Z) (g : Grid) :
  (∀ x, Cell.isVisible (f x) = Cell.isVisible x) →
  sameVisibility g (updCell f r c g).
Proof.
  intros Hf r' c'. rewrite cellAt_updCell.
  destruct (decide _); [|reflexivity].
  destruct (cellAt g r' c'); simpl; [rewrite Hf|]; reflexivity.
Qed.

Lemma sameVisibility_setCellUnit (v : option UnitRef) (r c : Z) (g : Grid) :
  sameVisibility g (setCellUnit v r c g).
Proof.
  unfold setCellUnit. destruct (getCell g r c).
  - apply sameVisibility_updCell. reflexivity.
  - intros r' c'. reflexivity.
Qed.

Lemma sameVisibility_sameButHighlight (g g' : Grid) :
  sameButHighlight g g' → sameVisibility g g'.
Proof.
  intros H r c. specialize (H r c).
  destruct (cellAt g r c); destruct (cellAt g' r c); simpl in *;
    try discriminate; [|reflexivity].
  injection H as _ _ H _ _. rewrite H. reflexivity.
Qed.

Lemma step_sameVisibility (s : MapState) (o : Op) :
  keepsGrid o → sameVisibility (cells s) (cells (step s o)).
Proof.
  intros Hk.
  destruct o as [cfg|[u|]|[u|]|u r c|unit r c|unit| |r c|]; cbn [step];
    try (intros r' c'; reflexivity).
  - contradiction.
  - destruct (indexOf_spec u (units s)) as [[Hi _]|(l1 & l2 & _ & _ & Hi)].
    + unfold removeUnit. rewrite Hi. intros r' c'. reflexivity.
    + rewrite removeUnit_true by lia. cbn [snd cells].
      destruct (_ && _); [apply sameVisibility_setCellUnit|].
      intros r' c'. reflexivity.
  - destruct (placeUnit s u r c).1 eqn:Hres.
    + apply placeUnit_succeeds_iff in Hres as (target & Hget & Hunit).
      destruct (placeUnit_true s u r c target Hget Hunit) as (st' & -> & _).
      cbn [snd cells].
      eapply sameVisibility_trans;
        [apply (sameVisibility_setCellUnit None
                  (row (Unit.position (store s u)))
                  (col (Unit.position (store s u))))|].
      apply sameVisibility_updCell. reflexivity.
    + rewrite placeUnit_false by exact Hres. intros r' c'. reflexivity.
  - destruct (moveUnit s unit r c).1 eqn:Hres.
    + apply moveUnit_succeeds_iff in Hres
        as (u & target & -> & Hget & Hunit & Hmr).
      destruct (moveUnit_true s u r c target Hget Hunit Hmr)
        as (g' & -> & Hsame).
      cbn [snd cells].
      eapply sameVisibility_trans;
        [apply (sameVisibility_setCellUnit None
                  (row (Unit.position (store s u)))
                  (col (Unit.position (store s u))))|].
      eapply sameVisibility_trans;
        [apply (sameVisibility_updCell (Cell.setUnit (Some u)) r c);
         reflexivity|].
      apply sameVisibility_sameButHighlight. exact Hsame.
    + rewrite moveUnit_false by exact Hres. intros r' c'. reflexivity.
  - unfold selectUnit.
    destruct (clearHighlightedCells_frame (withSelectedUnit s unit))
      as (g1 & E1 & H1).
    destruct (highlightMovementRange_frame
                (clearHighlightedCells (withSelectedUnit s unit)) unit)
      as (g2 & E2 & H2).
    rewrite E2. cbn [cells]. rewrite E1 in H2.
    apply sameVisibility_sameButHighlight.
    eapply sameButHighlight_trans; [exact H1|exact H2].
  - apply sameVisibility_sameButHighlight, sameButHighlight_clear.
  - destruct (getCell (cells s) r c) as [x|] eqn:Hg.
    + rewrite (toggleCellState_visible s r c x Hg). cbn [snd cells].
      apply sameVisibility_updCell. reflexivity.
    + rewrite (toggleCellState_no_cell s r c Hg). intros r' c'. reflexivity.
  - apply sameVisibility_sameButHighlight, sameButHighlight_clear.
Qed.

(** Only [initializeCellStates] changes the shape of the grid or the
    visibility of a cell: along any sequence of the other mutation
    operations, [cellExists] answers the same for every place, and a place
    is within bounds afterwards exactly if it was before. *)
Theorem visibility_is_fixed (s : MapState) (ops : list Op) (r c : Z) :
  Forall keepsGrid ops →
  cellExists (cells (run ops s)) r c = cellExists (cells s) r c
  ∧ inBounds (cells (run ops s)) r c = inBounds (cells s) r c.
Proof.
  intros Hops.
  assert (Hsame : sameVisibility (cells s) (cells (run ops s))).
  { unfold run. revert s.
    induction Hops as [|o ops Ho _ IH]; intros s; simpl.
    - intros r' c'. reflexivity.
    - eapply sameVisibility_trans; [apply step_sameVisibility; exact Ho|].
      apply IH. }
  specialize (Hsame r c).
  split.
  - rewrite !cellExists_cellAt.
    destruct (cellAt (cells s) r c); destruct (cellAt (cells (run ops s)) r c);
      simpl in Hsame; try discriminate; [|reflexivity].
    injection Hsame as ->. reflexivity.
  - apply eq_true_iff_eq. rewrite !inBounds_cellAt.
    destruct (cellAt (cells s) r c); destruct (cellAt (cells (run ops s)) r c);
      simpl in Hsame; try discriminate; split; intros [? ?];
      try discriminate; eauto.
Qed.

Lemma visibility_is_fixed_witness :
  cellExists
    (cells (run [OpMoveUnit (Some 0%nat) 0 2; OpEndTurn;
                 OpToggleCellState 0 1] rowOfFour)) 0 3
  = cellExists (cells rowOfFour) 0 3.
Proof.
  refine (proj1 (visibility_is_fixed rowOfFour
    [OpMoveUnit (Some 0%nat) 0 2; OpEndTurn; OpToggleCellState 0 1] 0 3 _)).
  repeat constructor.
Defined.
